(** * PegNet oracle-price-record grading: a shallow embedding of
      [opr/grading.go] and of the versioned grader's [baseGrader], with the
      properties of the specification stated and settled against them.

    Go values are embedded as follows.
    - [[]byte] is [list byte]; a Go [string] is a Rocq [string].
    - [uint64] and [int] are [Z]; [float64] is Rocq's primitive binary64
      [float] (IEEE 754, round to nearest even, no fused operations).
    - A slice that the code tests against [nil] is an [option (list _)],
      [None] being the nil slice.
    - [*OraclePriceRecord] is a pointer, a number, into an explicit store of
      records; the grading functions thread the store, so two occurrences of
      one pointer share every mutation.  Pointers are never nil.
    - A run-time panic (index out of range, an explicit [panic]) is the
      [Panics] outcome of the [result] monad. *)

From Stdlib Require Import ZArith Floats Uint63 Ascii String.
From Stdlib.Strings Require Import Byte.
From stdpp Require Import base list gmap strings sorting.

Set Warnings "-clear-no-such-hyp".
Local Open Scope Z_scope.

(** ** Outcomes of a Go call *)

Inductive result (A : Type) : Type :=
| Returns (a : A)
| Panics (msg : string).
Arguments Returns {A} a.
Arguments Panics {A} msg.

Definition bind {A B} (m : result A) (k : A → result B) : result B :=
  match m with
  | Returns a => k a
  | Panics msg => Panics msg
  end.

Notation "x <- m ; k" := (bind m (λ x, k))
  (at level 20, m at level 100, k at level 200, only parsing).
Notation "' p <- m ; k" := (bind m (λ x, match x with p => k end))
  (at level 20, p pattern, m at level 100, k at level 200, only parsing).

Definition returns {A} (m : result A) : Prop := ∃ a, m = Returns a.

(** ** Bytes, slices and the library calls the code makes *)

Global Instance byte_eq_dec : EqDecision byte := Byte.byte_eq_dec.
Global Instance byte_countable : Countable byte :=
  inj_countable Byte.to_N Byte.of_N Byte.of_to_N.

(** A slice whose nil-ness the code observes. *)
Definition slice (A : Type) : Type := option (list A).
Definition len {A} (s : slice A) : nat :=
  match s with None => 0%nat | Some l => length l end.
Definition elems {A} (s : slice A) : list A := default [] s.

(** [binary.BigEndian.Uint64(b)]: reads [b[0..7]], panics on a shorter [b]. *)
Definition BigEndian_Uint64 (b : list byte) : result Z :=
  if decide (length b < 8)%nat then Panics "index out of range"
  else Returns (foldl (λ acc x, acc * 256 + Z.of_N (Byte.to_N x)) 0 (take 8 b)).

(** [b[:n]]: the capacity of a slice is taken to be its length. *)
Definition slice_to (n : nat) (b : list byte) : result (list byte) :=
  if decide (length b < n)%nat then Panics "slice bounds out of range"
  else Returns (take n b).

Definition hextable : string := "0123456789abcdef".
Definition hexdigit (n : N) : ascii :=
  default "0"%char (String.get (N.to_nat n) hextable).

(** [hex.EncodeToString]: two lower-case digits per byte, high nibble first. *)
Fixpoint EncodeToString (src : list byte) : string :=
  match src with
  | [] => EmptyString
  | v :: rest =>
      String (hexdigit (Byte.to_N v / 16))
        (String (hexdigit (Byte.to_N v mod 16)) (EncodeToString rest))
  end.

(** [sort.SliceStable(x, less)] is Go's [stable_func]: an insertion sort of
    the blocks of 20 elements, then rounds of [symMerge_func] on adjacent
    blocks, the block size doubling with each round.  [less i j] of the Go
    closures below reads the slice being sorted at [i] and [j], so the
    functions here hand it the two elements standing at those positions.

    [insertionSort_func(data, a, b)] is
    [for i := a + 1; i < b; i++ {
       for j := i; j > a && less(j, j-1); j-- { swap(j, j-1) } }];
    [bubble] is its inner loop on the sorted prefix kept in reverse. *)
Local Close Scope Z_scope.

Fixpoint bubble {A} (less : A → A → bool) (x : A) (rprefix : list A) : list A :=
  match rprefix with
  | [] => [x]
  | y :: rest => if less x y then y :: bubble less x rest else x :: y :: rest
  end.

Definition insertionSort {A} (less : A → A → bool) (x : list A) : list A :=
  reverse (foldl (λ rprefix e, bubble less e rprefix) [] x).

(** The binary searches of [symMerge_func],
    [for i < j { h := int(uint(i+j) >> 1);
                 if right(h) { i = h + 1 } else { j = h } }],
    which end with [i]; [j - i] rounds are enough. *)
Fixpoint bsearch (fuel : nat) (right : nat → bool) (i j : nat) : nat :=
  match fuel with
  | O => i
  | S fuel' =>
      if i <? j then
        let h := Nat.div2 (i + j) in
        if right h then bsearch fuel' right (h + 1) j
        else bsearch fuel' right i h
      else i
  end.

(** [symMerge_func(data, a, m, b)] on the blocks [l = data[a:m]] and
    [r = data[m:b]], which its callers keep non-empty; every index is
    counted from [a], so that [int(uint(a+b) >> 1)] is [Nat.div2 b].
    - With one element on the left, it is inserted into the right block
      before the first position [i] that the search
      [if less(h, a) { i = h + 1 } else { j = h }] leaves; with one element
      on the right, it is inserted into the left block at the position the
      search [if !less(m, h) { i = h + 1 } else { j = h }] leaves.
    - Otherwise [mid], [n], [start], [r] and [p] are as in the source, the
      search is [if !less(p-c, c) { start = c + 1 } else { r = c }], and
      [rotate_func(data, start, m, end)] exchanges [data[start:m]] with
      [data[m:end]]: then [data[a:mid]] holds [l[:start]] followed by
      [r[:end-m]], [data[mid:b]] holds [l[start:]] followed by [r[end-m:]],
      and the two halves are merged under the guards of the source. *)
Fixpoint symMerge_fuel {A} (fuel : nat) (less : A → A → bool) (l r : list A)
    : list A :=
  match fuel, l, r with
  | S fuel', d :: _, _ :: _ =>
      let data := l ++ r in
      let at_ i := nth i data d in
      let m := length l in
      let b := length data in
      if m =? 1 then
        let i := bsearch b (λ h, less (at_ h) (at_ 0)) m b in
        take (i - 1) r ++ d :: drop (i - 1) r
      else if b - m =? 1 then
        let i := bsearch b (λ h, negb (less (at_ m) (at_ h))) 0 m in
        take i l ++ at_ m :: drop i l
      else
        let mid := Nat.div2 b in
        let n := mid + m in
        let '(start0, r0) := if mid <? m then (n - b, mid) else (0, m) in
        let p := n - 1 in
        let start :=
          bsearch b (λ c, negb (less (at_ (p - c)) (at_ c))) start0 r0 in
        let end_ := n - start in
        let l1 := take start l in
        let l2 := drop start l in
        let r1 := take (end_ - m) r in
        let r2 := drop (end_ - m) r in
        let left :=
          if (0 <? start) && (start <? mid)
          then symMerge_fuel fuel' less l1 r1 else l1 ++ r1 in
        let right :=
          if (mid <? end_) && (end_ <? b)
          then symMerge_fuel fuel' less l2 r2 else l2 ++ r2 in
        left ++ right
  | _, _, _ => l ++ r
  end.

Definition symMerge {A} (less : A → A → bool) (l r : list A) : list A :=
  symMerge_fuel (length l + length r) less l r.

(** The first loop of [stable_func],
    [for b <= n { insertionSort_func(data, a, b); a = b; b += blockSize }]
    and [insertionSort_func(data, a, n)] for what is left: the blocks, each
    sorted by insertion. *)
Fixpoint sorted_blocks {A} (fuel : nat) (less : A → A → bool) (blockSize : nat)
    (data : list A) : list (list A) :=
  match fuel, data with
  | S fuel', _ :: _ =>
      if blockSize <=? length data
      then insertionSort less (take blockSize data)
           :: sorted_blocks fuel' less blockSize (drop blockSize data)
      else [insertionSort less data]
  | _, _ => []
  end.

(** One round of the second loop: [symMerge_func(data, a, a+blockSize, b)]
    for every pair of adjacent blocks, the last block of the pair being the
    short one where [m := a + blockSize; m < n]; a block without a partner
    stays. *)
Fixpoint merge_pass {A} (less : A → A → bool) (blocks : list (list A))
    : list (list A) :=
  match blocks with
  | l :: r :: rest => symMerge less l r :: merge_pass less rest
  | _ => blocks
  end.

(** [for blockSize < n { ...; blockSize *= 2 }]: rounds while more than one
    block is left. *)
Fixpoint merge_passes {A} (fuel : nat) (less : A → A → bool)
    (blocks : list (list A)) : list (list A) :=
  match fuel, blocks with
  | S fuel', _ :: _ :: _ => merge_passes fuel' less (merge_pass less blocks)
  | _, _ => blocks
  end.

Definition SliceStable {A} (less : A → A → bool) (x : list A) : list A :=
  concat (merge_passes (length x) less (sorted_blocks (length x) less 20 x)).

Local Open Scope Z_scope.

(** The duplicate filter shared, body for body, by
    [RemoveDuplicateSubmissions] and [baseGrader.filterDuplicates]:
    [added] is the [map[string]bool] of identity keys already kept. *)
Fixpoint filter_added {A} (id : A → list byte) (added : gmap (list byte) bool)
    (lst : list A) (nlist : list A) : list A :=
  match lst with
  | [] => nlist
  | v :: rest =>
      if negb (default false (added !! id v))
      then filter_added id (<[id v := true]> added) rest (nlist ++ [v])
      else filter_added id added rest nlist
  end.

(** ** Package [opr] *)

Module Opr.

Record Token : Type := mkToken { value : float }.

Record OraclePriceRecord : Type := mkOPR {
  Nonce : list byte;
  OPRHash : list byte;
  SelfReportedDifficulty : list byte;
  Difficulty : Z;
  Grade : float;
  Tokens : list Token;
  WinPreviousOPR : list string;
  EntryHash : list byte;
}.

Definition ptr : Type := N.
Definition store : Type := ptr → OraclePriceRecord.

Definition set_Difficulty (d : Z) (r : OraclePriceRecord) : OraclePriceRecord :=
  mkOPR (Nonce r) (OPRHash r) (SelfReportedDifficulty r) d (Grade r)
        (Tokens r) (WinPreviousOPR r) (EntryHash r).
Definition set_Grade (g : float) (r : OraclePriceRecord) : OraclePriceRecord :=
  mkOPR (Nonce r) (OPRHash r) (SelfReportedDifficulty r) (Difficulty r) g
        (Tokens r) (WinPreviousOPR r) (EntryHash r).

(** Assignment through the pointer [p]: the record it points to becomes
    [f] of itself. *)
Definition update (σ : store) (p : ptr) (f : OraclePriceRecord → OraclePriceRecord) : store :=
  λ q, if decide (q = p) then f (σ p) else σ q.

(** Modelled from the spec: [GetTokens] is not among the sources; it returns
    the record's price vector, one [Token] per slot in registry order, here
    the field [Tokens], and reads no field that grading writes. *)
Definition GetTokens (σ : store) (p : ptr) : list Token := Tokens (σ p).

(** [string(append(v.Nonce, v.OPRHash...))]: the bytes of the nonce followed
    by those of the record hash. *)
Definition identity (σ : store) (p : ptr) : list byte :=
  Nonce (σ p) ++ OPRHash (σ p).

Definition RemoveDuplicateSubmissions (σ : store) (lst : list ptr) : list ptr :=
  filter_added (identity σ) ∅ lst [].

Section grading.
(** The hash primitive (LXR) and [common.AllAssets], both outside the
    sources. *)
Variable LXRHash : list byte → list byte.
Variable AllAssets : list string.

(** Modelled from the spec: [ComputeDifficulty] is not among the sources;
    it hashes [record_hash ++ nonce] and reads the first 8 bytes of the
    hash as a big-endian unsigned 64-bit integer. *)
Definition ComputeDifficulty (r : OraclePriceRecord) (nonce : list byte) : result Z :=
  BigEndian_Uint64 (LXRHash (OPRHash r ++ nonce)).

(** The inner loop of [Avg]: [avg[i] += |token.value|] for the tokens from
    position [i] on. *)
Fixpoint Avg_tokens (avg : list float) (tokens : list Token) (i : nat)
    : result (list float) :=
  match tokens with
  | [] => Returns avg
  | token :: rest =>
      match avg !! i with
      | None => Panics "index out of range"
      | Some a =>
          let a' := if (0 <=? value token)%float
                    then (a + value token)%float
                    else (a - value token)%float in
          Avg_tokens (<[i := a']> avg) rest (S i)
      end
  end.

Fixpoint Avg_sum (σ : store) (avg : list float) (lst : list ptr)
    : result (list float) :=
  match lst with
  | [] => Returns avg
  | opr :: rest =>
      avg' <- Avg_tokens avg (GetTokens σ opr) 0;
      Avg_sum σ avg' rest
  end.

Definition Avg (σ : store) (lst : list ptr) : result (list float) :=
  avg <- Avg_sum σ (replicate (length AllAssets) 0%float) lst;
  let numList := of_uint63 (Uint63.of_Z (Z.of_nat (length lst))) in
  Returns ((λ a, a / numList)%float <$> avg).

(** The loop of [CalculateGrade] from slot [i] on, [grade] being
    [opr.Grade] so far. *)
Fixpoint grade_tokens (avg : list float) (tokens : list Token) (i : nat)
    (grade : float) : result float :=
  match tokens with
  | [] => Returns grade
  | v :: rest =>
      match avg !! i with
      | None => Panics "index out of range"
      | Some a =>
          if (0 <? a)%float
          then let d := ((value v - a) / a)%float in
               grade_tokens avg rest (S i) (grade + d * d * d * d)%float
          else grade_tokens avg rest (S i) grade
      end
  end.

Definition CalculateGrade (avg : list float) (σ : store) (opr : ptr)
    : result (store * float) :=
  grade <- grade_tokens avg (GetTokens σ opr) 0 0%float;
  Returns (update σ opr (set_Grade grade), grade).

(** [for j := 0; j < i; j++ { CalculateGrade(avg, top50[j]) }] over
    [top50[:i]]. *)
Fixpoint grade_all (avg : list float) (σ : store) (prefix : list ptr)
    : result store :=
  match prefix with
  | [] => Returns σ
  | opr :: rest =>
      '(σ', _) <- CalculateGrade avg σ opr;
      grade_all avg σ' rest
  end.

(** The two stable sorts of [top50[:i]]. *)
Definition rerank (σ : store) (prefix : list ptr) : list ptr :=
  SliceStable (λ a b, (Grade (σ a) <? Grade (σ b))%float)
    (SliceStable (λ a b, Difficulty (σ b) <? Difficulty (σ a)) prefix).

(** One pass of the narrowing loop at size [i]. *)
Definition grade_pass (i : nat) (σ : store) (top50 : list ptr)
    : result (store * list ptr) :=
  avg <- Avg σ (take i top50);
  σ' <- grade_all avg σ (take i top50);
  Returns (σ', rerank σ' (take i top50) ++ drop i top50).

(** [for i := len(top50); i >= 10; i-- { ... }], entered at [i]. *)
Fixpoint narrow (i : nat) (σ : store) (top50 : list ptr)
    : result (store * list ptr) :=
  match i with
  | O => Returns (σ, top50)
  | S i' =>
      if decide (10 ≤ i)%nat
      then '(σ', top50') <- grade_pass i σ top50; narrow i' σ' top50'
      else Returns (σ, top50)
  end.

(** The loop of [GradeMinimum] that collects the honest records. *)
Fixpoint find_top50 (σ : store) (sortedList : list ptr) (top50 : list ptr)
    : result (store * list ptr) :=
  match sortedList with
  | [] => Returns (σ, top50)
  | opr :: rest =>
      d <- ComputeDifficulty (σ opr) (Nonce (σ opr));
      let σ' := update σ opr (set_Difficulty d) in
      f <- BigEndian_Uint64 (SelfReportedDifficulty (σ' opr));
      if negb (f =? Difficulty (σ' opr)) then find_top50 σ' rest top50
      else
        let top50' := top50 ++ [opr] in
        if decide (length top50' = 50%nat) then Returns (σ', top50')
        else find_top50 σ' rest top50'
  end.

Definition GradeMinimum (σ : store) (sortedList : list ptr)
    : result (store * slice ptr) :=
  let lst := RemoveDuplicateSubmissions σ sortedList in
  if decide (length lst < 10)%nat then Returns (σ, None)
  else
    '(σ1, top50) <- find_top50 σ sortedList [];
    '(σ2, top50') <- narrow (length top50) σ1 top50;
    Returns (σ2, Some top50').

(** [GradeBlock]: the records are deduplicated, sorted by [Difficulty]
    descending, cut to 50 and narrowed. *)
Definition GradeBlock (σ : store) (lst : list ptr)
    : result (store * slice ptr * slice ptr) :=
  let lst := RemoveDuplicateSubmissions σ lst in
  if decide (length lst < 10)%nat then Returns (σ, None, None)
  else
    let lst := SliceStable (λ a b, Difficulty (σ b) <? Difficulty (σ a)) lst in
    let topDifficulty := take 50 lst in
    '(σ', graded) <- narrow (length topDifficulty) σ topDifficulty;
    Returns (σ', Some graded, Some lst).
End grading.

(** The loop of [VerifyWinners] from position [i] of [opr.WinPreviousOPR]. *)
Fixpoint VerifyWinners_from (σ : store) (refs : list string) (i : nat)
    (winners : slice ptr) : result bool :=
  match refs with
  | [] => Returns true
  | w :: rest =>
      if bool_decide (winners = None) && negb (String.eqb w "")
      then Returns false
      else if bool_decide (0 < len winners)%nat
      then match elems winners !! i with
           | None => Panics "index out of range"
           | Some wi =>
               short <- slice_to 8 (EntryHash (σ wi));
               if negb (String.eqb w (EncodeToString short)) then Returns false
               else VerifyWinners_from σ rest (S i) winners
           end
      else VerifyWinners_from σ rest (S i) winners
  end.

Definition VerifyWinners (σ : store) (opr : ptr) (winners : slice ptr)
    : result bool :=
  VerifyWinners_from σ (WinPreviousOPR (σ opr)) 0 winners.

Definition GetRewardFromPlace (place : Z) : Z :=
  if decide (10 ≤ place) then 0
  else if decide (place = 0) then 800 * 10 ^ 8
  else if decide (place = 1) then 600 * 10 ^ 8
  else 450 * 10 ^ 8.

End Opr.

(** ** Package [grader] *)

Module Grader.

(** Modelled from the spec: the declaration of [GradingOPR] is not among the
    sources; these are the fields [baseGrader] reads.  The records are never
    written through their pointers here, so they stand for themselves. *)
Record GradingOPR : Type := mkGradingOPR {
  Nonce : list byte;
  OPRHash : list byte;
  SelfReportedDifficulty : Z;
}.

Record baseGrader : Type := mkBaseGrader {
  oprs : list GradingOPR;
  winners : list GradingOPR;
  graded : bool;
  height : Z;
  prevWinners : list string;
}.

(** Modelled from the spec: [V1Block] and [V2Block] are declared outside the
    sources; [NewGrader] assigns [height] and [prevWinners] on both, the
    fields of the [baseGrader] they embed. *)
Inductive Block : Type :=
| V1Block (bg : baseGrader)
| V2Block (bg : baseGrader).

Definition base (b : Block) : baseGrader :=
  match b with V1Block bg | V2Block bg => bg end.

(** [new(V1Block)]: every field at its zero value. *)
Definition zero_baseGrader : baseGrader := mkBaseGrader [] [] false 0 [].

Definition set_height (h : Z) (bg : baseGrader) : baseGrader :=
  mkBaseGrader (oprs bg) (winners bg) (graded bg) h (prevWinners bg).
Definition set_prevWinners (pw : list string) (bg : baseGrader) : baseGrader :=
  mkBaseGrader (oprs bg) (winners bg) (graded bg) (height bg) pw.

Definition NewGrader (version : Z) (height : Z) (previousWinners : list string)
    : result Block :=
  if decide (version = 1) then
    let v1 := zero_baseGrader in
    let v1 := set_height height v1 in
    let v1 := set_prevWinners previousWinners v1 in
    Returns (V1Block v1)
  else if decide (version = 2) then
    let v2 := zero_baseGrader in
    let v2 := set_height height v2 in
    let v2 := set_prevWinners previousWinners v2 in
    Returns (V2Block v2)
  else Panics "invalid grader version".

Definition Count (bg : baseGrader) : nat := length (oprs bg).
Definition GetPreviousWinners (bg : baseGrader) : list string := prevWinners bg.
Definition Height (bg : baseGrader) : Z := height bg.

Definition set_oprs (l : list GradingOPR) (bg : baseGrader) : baseGrader :=
  mkBaseGrader l (winners bg) (graded bg) (height bg) (prevWinners bg).

Definition identity (v : GradingOPR) : list byte := Nonce v ++ OPRHash v.

Definition filterDuplicates (bg : baseGrader) : baseGrader :=
  set_oprs (filter_added identity ∅ (oprs bg) []) bg.

Section sorting.
(** [lxr30.Init().Hash] *)
Variable Hash : list byte → list byte.

(** The comparison handed to [sort.SliceStable]: it reads [bg.oprs[i]] on
    both sides. *)
Definition less (oi oj : GradingOPR) : bool :=
  SelfReportedDifficulty oi >? SelfReportedDifficulty oi.

Fixpoint find_topX (limit : Z) (l : list GradingOPR) (topX : list GradingOPR)
    : result (list GradingOPR) :=
  match l with
  | [] => Returns topX
  | o :: rest =>
      diff <- BigEndian_Uint64 (Hash (OPRHash o ++ Nonce o));
      if negb (diff =? SelfReportedDifficulty o) then find_topX limit rest topX
      else
        let topX' := topX ++ [o] in
        if decide (limit ≤ Z.of_nat (length topX')) then Returns topX'
        else find_topX limit rest topX'
  end.

Definition sortByDifficulty (limit : Z) (bg : baseGrader) : result baseGrader :=
  let sorted := SliceStable less (oprs bg) in
  topX <- find_topX limit sorted [];
  Returns (set_oprs topX bg).
End sorting.

End Grader.

(** ** The specification's vocabulary *)

(** Following the spec's words for the deduplicator: the element at a
    position is retained iff no earlier position carries its identity key. *)
Fixpoint first_occurrences_from {A} (id : A → list byte) (earlier : list A)
    (l : list A) : list A :=
  match l with
  | [] => []
  | v :: rest =>
      if decide (id v ∈ id <$> earlier)
      then first_occurrences_from id (earlier ++ [v]) rest
      else v :: first_occurrences_from id (earlier ++ [v]) rest
  end.

Definition first_occurrences {A} (id : A → list byte) (l : list A) : list A :=
  first_occurrences_from id [] l.

(** A record of package [opr] is honest when its recomputed difficulty is its
    self-reported one. *)
Definition honest (LXRHash : list byte → list byte) (σ : Opr.store) (p : Opr.ptr)
    : bool :=
  match Opr.ComputeDifficulty LXRHash (σ p) (Opr.Nonce (σ p)),
        BigEndian_Uint64 (Opr.SelfReportedDifficulty (σ p)) with
  | Returns d, Returns f => f =? d
  | _, _ => false
  end.

(** Both 8-byte reads that the honesty check of a record makes succeed. *)
Definition checkable (LXRHash : list byte → list byte) (σ : Opr.store)
    (p : Opr.ptr) : Prop :=
  (8 ≤ length (LXRHash (Opr.OPRHash (σ p) ++ Opr.Nonce (σ p))))%nat
  ∧ (8 ≤ length (Opr.SelfReportedDifficulty (σ p)))%nat.

(** The price vector of a record fits the asset registry. *)
Definition fits (AllAssets : list string) (σ : Opr.store) (p : Opr.ptr) : Prop :=
  (length (Opr.Tokens (σ p)) ≤ length AllAssets)%nat.

Global Instance checkable_dec LXRHash σ p : Decision (checkable LXRHash σ p).
Proof. unfold checkable. apply _. Defined.

Global Instance fits_dec AllAssets σ p : Decision (fits AllAssets σ p).
Proof. unfold fits. apply _. Defined.

(** Two stores hold the same record at every pointer of [ps]. *)
Definition agree_on (ps : list Opr.ptr) (σ σ' : Opr.store) : Prop :=
  ∀ p, p ∈ ps → σ p = σ' p.

(** Two records differ at most in the fields that grading writes. *)
Definition same_submission (r r' : Opr.OraclePriceRecord) : Prop :=
  Opr.Nonce r = Opr.Nonce r' ∧ Opr.OPRHash r = Opr.OPRHash r'
  ∧ Opr.SelfReportedDifficulty r = Opr.SelfReportedDifficulty r'
  ∧ Opr.Tokens r = Opr.Tokens r'
  ∧ Opr.WinPreviousOPR r = Opr.WinPreviousOPR r'
  ∧ Opr.EntryHash r = Opr.EntryHash r'.

(** The short hash of a winner: its entry hash's first 8 bytes in hex. *)
Definition short_hash (σ : Opr.store) (w : Opr.ptr) : string :=
  EncodeToString (take 8 (Opr.EntryHash (σ w))).

(** A record of package [grader] is honest under the hash [Hash]. *)
Definition honestG (Hash : list byte → list byte) (o : Grader.GradingOPR) : bool :=
  match BigEndian_Uint64 (Hash (Grader.OPRHash o ++ Grader.Nonce o)) with
  | Returns diff => diff =? Grader.SelfReportedDifficulty o
  | Panics _ => false
  end.

Definition checkableG (Hash : list byte → list byte) (o : Grader.GradingOPR)
    : Prop :=
  (8 ≤ length (Hash (Grader.OPRHash o ++ Grader.Nonce o)))%nat.

Global Instance checkableG_dec Hash o : Decision (checkableG Hash o).
Proof. unfold checkableG. apply _. Defined.

(** The records a verifier examines while it needs [n] more honest ones
    ([n] at least 1): the input up to and including its [n]-th honest
    record, or all of it when there are fewer. *)
Fixpoint scanned {A} (honest : A → bool) (n : nat) (l : list A) : list A :=
  match l with
  | [] => []
  | x :: rest =>
      if honest x
      then match n with
           | S (S n') => x :: scanned honest (S n') rest
           | _ => [x]
           end
      else x :: scanned honest n rest
  end.

(** How many more honest records [find_topX] collects once it holds [k]:
    it stops on the first one that brings the count to [limit] or more. *)
Definition remaining (limit : Z) (k : nat) : nat :=
  Z.to_nat (Z.max 1 (limit - Z.of_nat k)).

(** The [Difficulty] field of a record holds its recomputed difficulty. *)
Definition verified (LXRHash : list byte → list byte) (σ : Opr.store)
    (p : Opr.ptr) : Prop :=
  Opr.ComputeDifficulty LXRHash (σ p) (Opr.Nonce (σ p))
  = Returns (Opr.Difficulty (σ p)).

(** [a] may stand before [b] after a stable sort by [less] of a slice that
    was in the order [prior]: [b] is not less than [a], and unless [a] is
    less than [b] the two are in their prior order. *)
Definition stably_before {A} (less : A → A → bool) (prior : relation A)
    (a b : A) : Prop :=
  less b a = false ∧ (less a b = true ∨ prior a b).

(** The stable merge of two lists: an element of the right list goes first
    only when it is less than the head of the left. *)
Fixpoint smerge {A} (less : A → A → bool) (l : list A) : list A → list A :=
  fix aux (r : list A) : list A :=
    match l, r with
    | [], _ => r
    | _, [] => l
    | x :: l', y :: r' =>
        if less y x then y :: aux r' else x :: smerge less l' r
    end.

(** No element is less than one standing before it. *)
Definition ascending {A} (less : A → A → bool) : list A → Prop :=
  StronglySorted (λ a b, less b a = false).

(** [a] may be ranked before [b]: the grade of [b] is not below that of
    [a], and unless the grade of [a] is below that of [b], the verified
    difficulty of [a] is at least that of [b]. *)
Definition ranked_before (σ : Opr.store) (a b : Opr.ptr) : Prop :=
  (Opr.Grade (σ b) <? Opr.Grade (σ a))%float = false
  ∧ ((Opr.Grade (σ a) <? Opr.Grade (σ b))%float = true
     ∨ Opr.Difficulty (σ b) ≤ Opr.Difficulty (σ a)).

(** The grades of the records of [ps] are all numbers, or all NaN. *)
Definition comparable_grades (σ : Opr.store) (ps : list Opr.ptr) : Prop :=
  Forall (λ p, is_nan (Opr.Grade (σ p)) = false) ps
  ∨ Forall (λ p, is_nan (Opr.Grade (σ p)) = true) ps.

(** What a caller sees of a run of [GradeMinimum]: the slice returned, and
    the grade each of its records ends with. *)
Definition ranking (r : result (Opr.store * slice Opr.ptr))
    : result (slice Opr.ptr) :=
  '(_, graded) <- r; Returns graded.

Definition grades (r : result (Opr.store * slice Opr.ptr))
    : result (list float) :=
  '(σ, graded) <- r; Returns ((λ p, Opr.Grade (σ p)) <$> elems graded).

(** Following the comment in [Avg], "simply treat all values as positive":
    the loops of [Avg] with every price replaced by its absolute value. *)
Fixpoint Avg_tokens_abs (avg : list float) (tokens : list Opr.Token) (i : nat)
    : result (list float) :=
  match tokens with
  | [] => Returns avg
  | token :: rest =>
      match avg !! i with
      | None => Panics "index out of range"
      | Some a =>
          Avg_tokens_abs (<[i := (a + abs (Opr.value token))%float]> avg) rest (S i)
      end
  end.

Fixpoint Avg_sum_abs (σ : Opr.store) (avg : list float) (l : list Opr.ptr)
    : result (list float) :=
  match l with
  | [] => Returns avg
  | opr :: rest =>
      avg' <- Avg_tokens_abs avg (Opr.GetTokens σ opr) 0;
      Avg_sum_abs σ avg' rest
  end.

Definition Avg_abs (AllAssets : list string) (σ : Opr.store) (l : list Opr.ptr)
    : result (list float) :=
  avg <- Avg_sum_abs σ (replicate (length AllAssets) 0%float) l;
  let numList := of_uint63 (Uint63.of_Z (Z.of_nat (length l))) in
  Returns ((λ a, a / numList)%float <$> avg).

(** A float in its specification form is NaN or carries the sign [+]. *)
Definition unsigned (s : spec_float) : Prop :=
  match s with
  | S754_nan => True
  | S754_zero b | S754_infinity b | S754_finite b _ _ => b = false
  end.

(** Two records differ at most in their grade. *)
Definition alike (r r' : Opr.OraclePriceRecord) : Prop :=
  same_submission r r' ∧ Opr.Difficulty r = Opr.Difficulty r'.

(** The references of a candidate agree with the winners as far as both
    lists go. *)
Definition refs_match (σ : Opr.store) (refs : list string) (ws : list Opr.ptr)
    : Prop :=
  take (length ws) refs = short_hash σ <$> take (length refs) ws.

Global Instance refs_match_dec σ refs ws : Decision (refs_match σ refs ws).
Proof. unfold refs_match. apply _. Defined.

(** ** Sample data *)

Module Samples.

(** A stand-in for the hash primitive: the input reversed, padded to 32
    bytes. *)
Definition toyHash (b : list byte) : list byte :=
  take 32 (reverse b ++ replicate 32 x00).

Definition byte_of_N (n : N) : byte := default x00 (Byte.of_N n).

(** The honest 8-byte claim for a record hash and a nonce. *)
Definition claim (oprhash nonce : list byte) : list byte :=
  take 8 (toyHash (oprhash ++ nonce)).

(** An honest submission with nonce [[n]] and one price per slot. *)
Definition submission (n : N) (prices : list float) : Opr.OraclePriceRecord :=
  Opr.mkOPR [byte_of_N n] [xab] (claim [xab] [byte_of_N n]) 0 0%float
    (Opr.mkToken <$> prices) [] [].

(** The same submission claiming the largest difficulty there is, which its
    hash does not reach. *)
Definition overclaiming (n : N) (prices : list float) : Opr.OraclePriceRecord :=
  Opr.mkOPR [byte_of_N n] [xab] (replicate 8 xff) 0 0%float
    (Opr.mkToken <$> prices) [] [].

(** The pointers [start], ..., [start + len - 1]. *)
Definition ptrs (start len : nat) : list Opr.ptr := N.of_nat <$> seq start len.

Definition one_asset : list string := ["PNT"%string].
Definition two_assets : list string := ["PNT"%string; "USD"%string].

(** Every pointer holds an honest submission priced at 100. *)
Definition all_honest : Opr.store := λ p, submission p [100%float].

(** Pointer 9 overclaims; the others are honest. *)
Definition one_cheater : Opr.store :=
  λ p, if decide (p = 9%N) then overclaiming p [100%float]
       else submission p [100%float].

(** Pointer 10 repeats the nonce and record hash of pointer 0. *)
Definition one_duplicate : Opr.store :=
  λ p, if decide (p = 10%N) then submission 0 [100%float]
       else submission p [100%float].

(** Pointer 3 carries two prices, the others one. *)
Definition one_long : Opr.store :=
  λ p, if decide (p = 3%N) then submission p [100%float; 7%float]
       else submission p [100%float].

(** Pointer 3 carries one price, the others two. *)
Definition one_short : Opr.store :=
  λ p, if decide (p = 3%N) then submission p [100%float]
       else submission p [100%float; 7%float].

(** Winners for reference checks: pointers 20, 21, 22 are the previous
    winners, pointer 30 and on are candidates. *)
Definition entry (k : byte) : list byte := [k; x01; x02; x03; x04; x05; x06; x07; x08; x09].

Definition with_refs (refs : list string) : Opr.OraclePriceRecord :=
  Opr.mkOPR [x00] [xab] [] 0 0%float [] refs [].

Definition winners_store : Opr.store :=
  λ p, match p with
       | 20%N => Opr.mkOPR [x00] [xab] [] 0 0%float [] [] (entry xa1)
       | 21%N => Opr.mkOPR [x01] [xab] [] 0 0%float [] [] (entry xb1)
       | 22%N => Opr.mkOPR [x02] [xab] [] 0 0%float [] [] (entry xc1)
       | 30%N => with_refs ["a101020304050607"; "b101020304050607"; "c101020304050607"]%string
       | 31%N => with_refs ["a101020304050607"]%string
       | 32%N => with_refs ["a101020304050607"; "b101020304050607"; "c101020304050607"; ""]%string
       | 33%N => with_refs [""; ""; ""]%string
       | 34%N => with_refs ["a101020304050607"; "ffffffffffffffff"; "c101020304050607"]%string
       | _ => with_refs []
       end.

(** Four records as a pass leaves them, with their verified difficulty and
    grade: two grades, each held by two records. *)
Definition ranked (d : Z) (g : float) : Opr.OraclePriceRecord :=
  Opr.mkOPR [x00] [xab] [] d g [] [] [].

Definition graded_store : Opr.store :=
  λ p, match p with
       | 0%N => ranked 5 0.5%float
       | 1%N => ranked 9 0.25%float
       | 2%N => ranked 7 0.5%float
       | _ => ranked 3 0.25%float
       end.

(** Every pointer holds the honest submission of [all_honest] with its
    price negated. *)
Definition all_negative : Opr.store := λ p, submission p [(-100)%float].

(** The submissions of [all_honest] as they come back from an earlier
    grading, with a grade and a difficulty left in them. *)
Definition regraded : Opr.store :=
  λ p, Opr.set_Grade 0.75%float (Opr.set_Difficulty 42 (submission p [100%float])).

(** Ten honest submissions on two assets: pointers 9 and 7 carry one price,
    the others two, and pointer 0 prices the second asset at infinity. *)
Definition mixed_lengths : Opr.store :=
  λ p, match p with
       | 9%N => submission p [130%float]
       | 7%N => submission p [101%float]
       | 0%N => submission p [100%float; infinity]
       | _ => submission p [100%float; 7%float]
       end.

(** Honest submissions on one asset whose prices differ, three of them
    equal. *)
Definition varied : Opr.store :=
  λ p, submission p
         [nth (N.to_nat p)
              [100; 104; 97; 101; 99; 110; 100; 95; 102; 100; 103]%float
              100%float].

(** The submissions of [varied] as a block holds them, with a difficulty
    in each, two of them equal. *)
Definition varied_block : Opr.store :=
  λ p, Opr.set_Difficulty
         (nth (N.to_nat p) [5; 3; 9; 1; 7; 2; 8; 4; 6; 9; 0] 0)
         (varied p).

(** Records of package [grader]: honest, with nonce [[n]]. *)
Definition gopr (n : N) : Grader.GradingOPR :=
  Grader.mkGradingOPR [byte_of_N n] [xab]
    (foldl (λ acc x, acc * 256 + Z.of_N (Byte.to_N x)) 0 (claim [xab] [byte_of_N n])).

Definition grader_with (l : list Grader.GradingOPR) : Grader.baseGrader :=
  Grader.mkBaseGrader l [] false 7 [].

End Samples.

(** ** The [result] monad *)

Lemma bind_Returns {A B} (m : result A) (k : A → result B) b :
  bind m k = Returns b ↔ ∃ a, m = Returns a ∧ k a = Returns b.
Proof.
  destruct m as [a|msg]; simpl; split.
  - intros H. by exists a.
  - by intros (a' & [= ->] & H).
  - intros [=].
  - by intros (a' & [=] & _).
Qed.

Lemma returns_Returns {A} (a : A) : returns (Returns a).
Proof. by exists a. Qed.

Lemma not_returns_Panics {A} msg : ¬ returns (@Panics A msg).
Proof. by intros [a [=]]. Qed.

Lemma BigEndian_Uint64_returns b :
  returns (BigEndian_Uint64 b) ↔ (8 ≤ length b)%nat.
Proof.
  unfold BigEndian_Uint64. destruct (decide _); split; intros H.
  - by apply not_returns_Panics in H.
  - lia.
  - lia.
  - apply returns_Returns.
Qed.

(** ** The stable sort *)

Local Close Scope Z_scope.


Section insertion.
Context {A : Type} (less : A → A → bool).

Lemma bubble_Permutation x r : bubble less x r ≡ₚ x :: r.
Proof.
  induction r as [|y r IH]; simpl; first done.
  destruct (less x y); last done.
  by rewrite IH, Permutation_swap.
Qed.

Lemma foldl_bubble_Permutation l acc :
  foldl (λ rprefix e, bubble less e rprefix) acc l ≡ₚ l ++ acc.
Proof.
  revert acc. induction l as [|x l IH]; intros acc; simpl; first done.
  by rewrite IH, bubble_Permutation, Permutation_middle.
Qed.

Lemma insertionSort_Permutation l : insertionSort less l ≡ₚ l.
Proof.
  unfold insertionSort.
  by rewrite reverse_Permutation, foldl_bubble_Permutation, app_nil_r.
Qed.
End insertion.

Section merge_general.
Context {A : Type} (less : A → A → bool).

Lemma symMerge_fuel_Permutation fuel : ∀ l r,
  symMerge_fuel fuel less l r ≡ₚ l ++ r.
Proof.
  induction fuel as [|fuel IH]; intros l r; first by destruct l, r.
  destruct l as [|d l]; first done. destruct r as [|y r]; first done.
  cbn [symMerge_fuel].
  set (data := (d :: l) ++ y :: r).
  destruct (length (d :: l) =? 1)%nat eqn:Hm.
  { apply Nat.eqb_eq in Hm. destruct l; last done.
    rewrite <-Permutation_middle. simpl. by rewrite take_drop. }
  destruct (length data - length (d :: l) =? 1)%nat eqn:Hr.
  { apply Nat.eqb_eq in Hr. unfold data in Hr. rewrite length_app in Hr.
    destruct r; last (simpl in Hr; lia).
    assert (nth (length (d :: l)) data d = y) as ->.
    { unfold data. by rewrite app_nth2, Nat.sub_diag by lia. }
    rewrite <-Permutation_middle, take_drop. unfold data.
    by rewrite (Permutation_app_comm (d :: l) [y]). }
  match goal with
  | |- context [let '(_, _) := ?x in _] => destruct x as [start0 r0]
  end.
  set (start := bsearch _ _ _ _). set (end_ := Nat.sub _ start).
  set (m := length (d :: l)).
  assert (∀ (c : bool) l1 r1,
            (if c then symMerge_fuel fuel less l1 r1 else l1 ++ r1)
            ≡ₚ l1 ++ r1) as Hif.
  { intros [] l1 r1; [apply IH | done]. }
  rewrite !Hif. unfold data.
  rewrite <-(take_drop start (d :: l)) at 3.
  rewrite <-(take_drop (end_ - m) (y :: r)) at 3.
  generalize (take start (d :: l)) (drop start (d :: l))
             (take (end_ - m) (y :: r)) (drop (end_ - m) (y :: r)).
  intros l1 l2 r1 r2. rewrite <-!app_assoc. f_equiv. rewrite !app_assoc.
  f_equiv. apply Permutation_app_comm.
Qed.

Lemma symMerge_Permutation l r : symMerge less l r ≡ₚ l ++ r.
Proof. apply symMerge_fuel_Permutation. Qed.

Lemma merge_pass_Permutation blocks :
  concat (merge_pass less blocks) ≡ₚ concat blocks.
Proof.
  induction blocks as [[|l [|r blocks]] IH] using (induction_ltof1 _ length);
    unfold ltof in IH; try done.
  cbn [merge_pass concat]. rewrite symMerge_Permutation, IH by (simpl; lia).
  by rewrite app_assoc.
Qed.

Lemma merge_passes_Permutation fuel : ∀ blocks,
  concat (merge_passes fuel less blocks) ≡ₚ concat blocks.
Proof.
  induction fuel as [|fuel IH]; intros blocks; first done.
  destruct blocks as [|l [|r blocks]]; try done.
  cbn [merge_passes]. by rewrite IH, merge_pass_Permutation.
Qed.

Lemma sorted_blocks_Permutation fuel bs : ∀ data,
  (length data ≤ fuel)%nat → (0 < bs)%nat →
  concat (sorted_blocks fuel less bs data) ≡ₚ data.
Proof.
  induction fuel as [|fuel IH]; intros data Hfuel Hbs.
  { destruct data; [done | simpl in Hfuel; lia]. }
  destruct data as [|x data]; first done.
  cbn [sorted_blocks]. destruct (bs <=? length (x :: data))%nat eqn:Hle.
  - apply Nat.leb_le in Hle. cbn [concat].
    rewrite insertionSort_Permutation, IH; [by rewrite take_drop | | done].
    rewrite length_drop. simpl in *. lia.
  - simpl. by rewrite app_nil_r, insertionSort_Permutation.
Qed.

Lemma SliceStable_Permutation l : SliceStable less l ≡ₚ l.
Proof.
  unfold SliceStable.
  rewrite merge_passes_Permutation. apply sorted_blocks_Permutation; lia.
Qed.

Lemma SliceStable_length l : length (SliceStable less l) = length l.
Proof. by rewrite SliceStable_Permutation. Qed.
End merge_general.

Section insertion_ext.
Context {A : Type} (less less' : A → A → bool).

Lemma bubble_ext x r :
  (∀ b, b ∈ r → less x b = less' x b) → bubble less x r = bubble less' x r.
Proof.
  induction r as [|y r IH]; intros Hext; simpl; first done.
  rewrite <-(Hext y) by (apply elem_of_cons; by left).
  rewrite IH; first done.
  intros b Hb. apply Hext, elem_of_cons. by right.
Qed.

Lemma foldl_bubble_ext l acc :
  (∀ a b, a ∈ l ++ acc → b ∈ l ++ acc → less a b = less' a b) →
  foldl (λ rprefix e, bubble less e rprefix) acc l
  = foldl (λ rprefix e, bubble less' e rprefix) acc l.
Proof.
  revert acc. induction l as [|x l IH]; intros acc Hext; simpl; first done.
  rewrite <-(bubble_ext x acc).
  - apply IH. intros a b Ha Hb.
    apply Hext; simpl; rewrite Permutation_middle, <-(bubble_Permutation less x acc);
      done.
  - intros b Hb. apply Hext; simpl.
    + apply elem_of_cons. by left.
    + apply elem_of_cons. right. apply elem_of_app. by right.
Qed.

Lemma insertionSort_ext l :
  (∀ a b, a ∈ l → b ∈ l → less a b = less' a b) →
  insertionSort less l = insertionSort less' l.
Proof.
  intros Hext. unfold insertionSort. f_equal. apply foldl_bubble_ext.
  intros a b. rewrite app_nil_r. apply Hext.
Qed.
End insertion_ext.

Lemma bsearch_ext fuel (right right' : nat → bool) : ∀ i j,
  (∀ h, right h = right' h) →
  bsearch fuel right i j = bsearch fuel right' i j.
Proof.
  induction fuel as [|fuel IH]; intros i j Hext; first done.
  cbn [bsearch]. rewrite <-Hext. by rewrite !IH.
Qed.

Lemma nth_elem_of_default {A} (l : list A) (d : A) i :
  d ∈ l → nth i l d ∈ l.
Proof.
  intros Hd. destruct (decide (i < length l)%nat) as [Hi|Hi].
  - destruct (lookup_lt_is_Some_2 l i Hi) as [x Hx].
    rewrite (nth_lookup_Some _ _ d _ Hx). by eapply list_elem_of_lookup_2.
  - by rewrite nth_overflow by lia.
Qed.

Section merge_ext.
Context {A : Type} (less less' : A → A → bool).

Lemma symMerge_fuel_ext fuel : ∀ l r,
  (∀ a b, a ∈ l ++ r → b ∈ l ++ r → less a b = less' a b) →
  symMerge_fuel fuel less l r = symMerge_fuel fuel less' l r.
Proof.
  induction fuel as [|fuel IH]; intros l r Hext; first done.
  destruct l as [|d l]; first done. destruct r as [|y r]; first done.
  cbn [symMerge_fuel].
  set (data := (d :: l) ++ y :: r) in *.
  assert (∀ i, nth i data d ∈ data) as Hat.
  { intros i. apply nth_elem_of_default. unfold data. set_solver. }
  rewrite (bsearch_ext _ (λ h, less (nth h data d) (nth 0 data d))
             (λ h, less' (nth h data d) (nth 0 data d)))
    by (intros h; by apply Hext).
  rewrite (bsearch_ext _ (λ h, negb (less (nth (length (d :: l)) data d)
                                        (nth h data d)))
             (λ h, negb (less' (nth (length (d :: l)) data d) (nth h data d))))
    by (intros h; f_equal; by apply Hext).
  destruct (length (d :: l) =? 1)%nat; first done.
  destruct (length data - length (d :: l) =? 1)%nat; first done.
  match goal with
  | |- context [let '(_, _) := ?x in _] => destruct x as [start0 r0]
  end.
  rewrite (bsearch_ext _
             (λ c, negb (less (nth (Nat.div2 (length data) + length (d :: l)
                                    - 1 - c) data d) (nth c data d)))
             (λ c, negb (less' (nth (Nat.div2 (length data) + length (d :: l)
                                     - 1 - c) data d) (nth c data d))))
    by (intros h; f_equal; by apply Hext).
  set (start := bsearch _ _ _ _). set (end_ := Nat.sub _ start).
  rewrite !IH; first done.
  - intros a b Ha Hb. apply Hext; unfold data.
    + apply elem_of_app in Ha as [Ha|Ha]; apply elem_of_app;
        [left | right]; by eapply elem_of_sublist, sublist_drop.
    + apply elem_of_app in Hb as [Hb|Hb]; apply elem_of_app;
        [left | right]; by eapply elem_of_sublist, sublist_drop.
  - intros a b Ha Hb. apply Hext; unfold data.
    + apply elem_of_app in Ha as [Ha|Ha]; apply elem_of_app;
        [left | right]; by eapply elem_of_sublist, sublist_take.
    + apply elem_of_app in Hb as [Hb|Hb]; apply elem_of_app;
        [left | right]; by eapply elem_of_sublist, sublist_take.
Qed.

Lemma symMerge_ext l r :
  (∀ a b, a ∈ l ++ r → b ∈ l ++ r → less a b = less' a b) →
  symMerge less l r = symMerge less' l r.
Proof. apply symMerge_fuel_ext. Qed.

Lemma merge_pass_ext blocks :
  (∀ a b, a ∈ concat blocks → b ∈ concat blocks → less a b = less' a b) →
  merge_pass less blocks = merge_pass less' blocks.
Proof.
  induction blocks as [[|l [|r blocks]] IH] using (induction_ltof1 _ length);
    unfold ltof in IH; intros Hext; try done.
  cbn [merge_pass]. cbn [concat] in Hext. rewrite symMerge_ext, IH; first done.
  - simpl. lia.
  - intros a b Ha Hb. apply Hext; set_solver.
  - intros a b Ha Hb. apply Hext; set_solver.
Qed.

Lemma merge_passes_ext fuel : ∀ blocks,
  (∀ a b, a ∈ concat blocks → b ∈ concat blocks → less a b = less' a b) →
  merge_passes fuel less blocks = merge_passes fuel less' blocks.
Proof.
  induction fuel as [|fuel IH]; intros blocks Hext; first done.
  destruct blocks as [|l [|r blocks]]; try done.
  cbn [merge_passes]. rewrite <-merge_pass_ext by done.
  apply IH. intros a b Ha Hb. rewrite merge_pass_Permutation in Ha, Hb.
  by apply Hext.
Qed.

Lemma sorted_blocks_ext fuel bs : ∀ data,
  (∀ a b, a ∈ data → b ∈ data → less a b = less' a b) →
  sorted_blocks fuel less bs data = sorted_blocks fuel less' bs data.
Proof.
  induction fuel as [|fuel IH]; intros data Hext; first done.
  destruct data as [|x data]; first done.
  cbn [sorted_blocks]. destruct (bs <=? length (x :: data))%nat.
  - rewrite (insertionSort_ext less less'), IH; first done.
    + intros a b Ha Hb.
      apply Hext; by eapply elem_of_sublist, sublist_drop.
    + intros a b Ha Hb.
      apply Hext; by eapply elem_of_sublist, sublist_take.
  - by rewrite (insertionSort_ext less less').
Qed.

Lemma SliceStable_ext l :
  (∀ a b, a ∈ l → b ∈ l → less a b = less' a b) →
  SliceStable less l = SliceStable less' l.
Proof.
  intros Hext. unfold SliceStable.
  rewrite <-sorted_blocks_ext by done. f_equal.
  apply merge_passes_ext. intros a b Ha Hb.
  destruct (decide (length l = 0)%nat) as [Hl|Hl].
  { destruct l; [by apply elem_of_nil in Ha | done]. }
  rewrite sorted_blocks_Permutation in Ha, Hb by lia. by apply Hext.
Qed.
End merge_ext.

(** *** The binary search *)

Lemma bsearch_spec (right : nat → bool) fuel : ∀ i j,
  (i ≤ j)%nat → (j - i ≤ fuel)%nat →
  (i ≤ bsearch fuel right i j ≤ j)%nat
  ∧ ((i < bsearch fuel right i j)%nat →
     right (bsearch fuel right i j - 1)%nat = true)
  ∧ ((bsearch fuel right i j < j)%nat →
     right (bsearch fuel right i j) = false).
Proof.
  induction fuel as [|fuel IH]; intros i j Hij Hfuel.
  { cbn [bsearch]. split_and!; lia. }
  cbn [bsearch]. destruct (i <? j)%nat eqn:Hlt; last first.
  { apply Nat.ltb_ge in Hlt. split_and!; lia. }
  apply Nat.ltb_lt in Hlt.
  pose proof (Nat.div2_odd (i + j)) as Hh.
  set (h := Nat.div2 (i + j)) in *.
  assert (i ≤ h < j)%nat as Hbounds.
  { destruct (Nat.odd (i + j)); simpl in Hh; lia. }
  clear Hh. destruct (right h) eqn:Hright.
  - destruct (IH (h + 1)%nat j) as (Hk & Hlo & Hhi); [lia..|].
    split; [lia | split; [| done]].
    intros _. destruct (decide (h + 1 < bsearch fuel right (h + 1) j)%nat).
    + by apply Hlo.
    + replace (bsearch fuel right (h + 1) j - 1)%nat with h by lia. done.
  - destruct (IH i h) as (Hk & Hlo & Hhi); [lia..|].
    split; [lia | split; [done |]].
    intros _. destruct (decide (bsearch fuel right i h < h)%nat).
    + by apply Hhi.
    + replace (bsearch fuel right i h) with h by lia. done.
Qed.

(** *** The stable merge *)

Section smerge_facts.
Context {A : Type} (less : A → A → bool).

Lemma smerge_nil_l r : smerge less [] r = r.
Proof. by destruct r. Qed.

Lemma smerge_nil_r l : smerge less l [] = l.
Proof. by destruct l. Qed.

Lemma smerge_cons x l y r :
  smerge less (x :: l) (y :: r)
  = if less y x then y :: smerge less (x :: l) r
    else x :: smerge less l (y :: r).
Proof. done. Qed.

(** A merge splits where the two lists split, when the first parts stand
    before the second parts. *)
Lemma smerge_split l1 : ∀ r1 l2 r2,
  (∀ x y, x ∈ l1 → y ∈ r2 → less y x = false) →
  (∀ y x, y ∈ r1 → x ∈ l2 → less y x = true) →
  smerge less (l1 ++ l2) (r1 ++ r2) = smerge less l1 r1 ++ smerge less l2 r2.
Proof.
  induction l1 as [|x l1 IHl]; intros r1.
  - induction r1 as [|y r1 IHr]; intros l2 r2 H1 H2.
    + by rewrite smerge_nil_l.
    + rewrite smerge_nil_l. cbn [app]. destruct l2 as [|x l2].
      * by rewrite !smerge_nil_l.
      * rewrite smerge_cons, (H2 y x) by set_solver.
        f_equal. rewrite <-(smerge_nil_l r1) at 2.
        apply (IHr (x :: l2) r2); [set_solver | intros; apply H2; set_solver].
  - induction r1 as [|y r1 IHr]; intros l2 r2 H1 H2.
    + rewrite smerge_nil_r. cbn [app]. destruct r2 as [|y r2].
      * by rewrite !smerge_nil_r.
      * rewrite smerge_cons, (H1 x y) by set_solver.
        f_equal. rewrite <-(smerge_nil_r l1) at 2.
        apply (IHl [] l2 (y :: r2)); [intros; apply H1; set_solver | set_solver].
    + cbn [app]. rewrite !smerge_cons. destruct (less y x).
      * cbn [app]. f_equal.
        apply (IHr l2 r2); [done | intros; apply H2; set_solver].
      * cbn [app]. f_equal.
        apply (IHl (y :: r1) l2 r2); [intros; apply H1; set_solver | done].
Qed.
End smerge_facts.

Lemma StronglySorted_reverse {A} (R : relation A) l :
  StronglySorted (flip R) l → StronglySorted R (reverse l).
Proof.
  induction l as [|x l IH]; intros Hs; first by constructor.
  apply StronglySorted_cons in Hs as [Hx Hs].
  rewrite reverse_cons. apply StronglySorted_app. split_and!.
  - intros a b Ha ->%list_elem_of_singleton.
    rewrite elem_of_reverse in Ha. rewrite Forall_forall in Hx. by apply Hx.
  - by apply IH.
  - repeat constructor.
Qed.

Lemma StronglySorted_impl {A} (R R' : relation A) l :
  (∀ a b, a ∈ l → b ∈ l → R a b → R' a b) →
  StronglySorted R l → StronglySorted R' l.
Proof.
  induction l as [|x l IH]; intros Himpl Hs; first by constructor.
  apply StronglySorted_cons in Hs as [Hx Hs].
  apply StronglySorted_cons. split.
  - rewrite Forall_forall in Hx. apply Forall_forall. intros b Hb.
    apply Himpl; [set_solver | set_solver | by apply Hx].
  - apply IH; last done. intros a b Ha Hb. apply Himpl; set_solver.
Qed.

Section strict_weak_order.
Context {A : Type} (less : A → A → bool).
(** The elements on which [less] is known to be a strict weak order. *)
Context (P : A → Prop).
Hypothesis less_asym : ∀ a b, P a → P b → less a b = true → less b a = false.
Hypothesis less_ntrans : ∀ a b c, P a → P b → P c →
  less a b = false → less b c = false → less a c = false.

Lemma less_irrefl a : P a → less a a = false.
Proof.
  intros Pa. destruct (less a a) eqn:Haa; last done.
  by rewrite (less_asym a a) in Haa.
Qed.

Lemma less_lt_le a b c :
  P a → P b → P c → less a b = true → less c b = false → less a c = true.
Proof.
  intros Pa Pb Pc Hab Hcb. destruct (less a c) eqn:Hac; first done.
  by rewrite (less_ntrans a c b) in Hab.
Qed.

Lemma less_le_lt a b c :
  P a → P b → P c → less b a = false → less b c = true → less a c = true.
Proof.
  intros Pa Pb Pc Hba Hbc. destruct (less a c) eqn:Hac; first done.
  by rewrite (less_ntrans b a c) in Hbc.
Qed.

(** *** Ascending lists *)

Lemma ascending_lookup l i j a b :
  Forall P l → ascending less l →
  l !! i = Some a → l !! j = Some b → (i ≤ j)%nat → less b a = false.
Proof.
  intros HP Hl. revert i j.
  induction Hl as [|x l Hl IH Hx]; intros i j Hi Hj Hij; first done.
  apply Forall_cons in HP as [Px HP].
  destruct i as [|i], j as [|j]; simpl in *; try lia.
  - injection Hi as <-. injection Hj as <-. by apply less_irrefl.
  - injection Hi as <-. rewrite Forall_forall in Hx. apply Hx.
    by eapply list_elem_of_lookup_2.
  - apply (IH HP i j); [done | done | lia].
Qed.

Lemma ascending_take l n : ascending less l → ascending less (take n l).
Proof.
  intros Hl. unfold ascending in *. rewrite <-(take_drop n l) in Hl.
  by apply StronglySorted_app in Hl as (_ & ? & _).
Qed.

Lemma ascending_drop l n : ascending less l → ascending less (drop n l).
Proof.
  intros Hl. unfold ascending in *. rewrite <-(take_drop n l) in Hl.
  by apply StronglySorted_app in Hl as (_ & _ & ?).
Qed.

(** Every element before position [s] stands before the one at [s - 1]. *)
Lemma ascending_take_le l s d x :
  Forall P l → ascending less l → (0 < s ≤ length l)%nat →
  x ∈ take s l → less (nth (s - 1) l d) x = false.
Proof.
  intros HP Hl Hs (j & Hj)%list_elem_of_lookup.
  apply lookup_take_Some in Hj as [Hj Hjs].
  destruct (lookup_lt_is_Some_2 l (s - 1)) as [y Hy]; first lia.
  rewrite (nth_lookup_Some _ _ d _ Hy).
  apply (ascending_lookup l j (s - 1)); [done..| lia].
Qed.

(** Every element from position [s] on stands after the one at [s]. *)
Lemma ascending_drop_ge l s d x :
  Forall P l → ascending less l → (s < length l)%nat →
  x ∈ drop s l → less x (nth s l d) = false.
Proof.
  intros HP Hl Hs (j & Hj)%list_elem_of_lookup.
  rewrite lookup_drop in Hj.
  destruct (lookup_lt_is_Some_2 l s) as [y Hy]; first lia.
  rewrite (nth_lookup_Some _ _ d _ Hy).
  apply (ascending_lookup l s (s + j)); [done..| lia].
Qed.

(** *** Insertion sort *)

Section prior.
Context (prior : relation A).

Lemma bubble_sorted x r :
  P x → Forall P r →
  StronglySorted (flip (stably_before less prior)) r →
  Forall (λ a, prior a x) r →
  StronglySorted (flip (stably_before less prior)) (bubble less x r).
Proof.
  intros Px. induction r as [|y r IH]; intros HP Hs Hprior; simpl.
  - repeat constructor.
  - apply Forall_cons in HP as [Py HP].
    apply Forall_cons in Hprior as [Hyx Hprior].
    apply StronglySorted_cons in Hs as [Hy Hs].
    destruct (less x y) eqn:Hxy.
    + apply StronglySorted_cons. split; last by apply IH.
      rewrite bubble_Permutation. apply Forall_cons. split; last done.
      split; [by apply less_asym | by left].
    + apply StronglySorted_cons. split; last by apply StronglySorted_cons.
      apply Forall_cons. split; first (split; [done | by right]).
      rewrite Forall_forall in Hy, Hprior, HP. apply Forall_forall.
      intros e He. split; last (right; by apply Hprior).
      destruct (Hy e He) as [Hye _].
      apply (less_ntrans x y e); auto.
Qed.

Lemma foldl_bubble_sorted l : ∀ acc,
  Forall P l → Forall P acc →
  StronglySorted prior l →
  StronglySorted (flip (stably_before less prior)) acc →
  (∀ a b, a ∈ acc → b ∈ l → prior a b) →
  StronglySorted (flip (stably_before less prior))
    (foldl (λ rprefix e, bubble less e rprefix) acc l).
Proof.
  induction l as [|x l IH]; intros acc HPl HPacc Hl Hacc Hcross; simpl;
    first done.
  apply Forall_cons in HPl as [Px HPl].
  apply StronglySorted_cons in Hl as [Hx Hl].
  apply IH; try done.
  - by rewrite bubble_Permutation, Forall_cons.
  - apply bubble_sorted; try done.
    apply Forall_forall. intros a Ha. apply Hcross; [done | by left].
  - intros a b Ha Hb. rewrite bubble_Permutation in Ha.
    apply elem_of_cons in Ha as [->|Ha].
    + rewrite Forall_forall in Hx. by apply Hx.
    + apply Hcross; [done | by right].
Qed.

Lemma insertionSort_sorted l :
  Forall P l → StronglySorted prior l →
  StronglySorted (stably_before less prior) (insertionSort less l).
Proof.
  intros HP Hl. unfold insertionSort. apply StronglySorted_reverse.
  apply foldl_bubble_sorted; try done.
  - constructor.
  - intros a b Ha. by apply elem_of_nil in Ha.
Qed.
End prior.

Lemma StronglySorted_True (l : list A) : StronglySorted (λ _ _, True) l.
Proof. induction l; constructor; [done | by apply Forall_true]. Qed.

Lemma insertionSort_ascending l :
  Forall P l → ascending less (insertionSort less l).
Proof.
  intros HP. eapply StronglySorted_impl; last first.
  - apply (insertionSort_sorted (λ _ _, True)); [done |].
    apply StronglySorted_True.
  - by intros a b _ _ [? _].
Qed.

Lemma insertionSort_P l : Forall P l → Forall P (insertionSort less l).
Proof. intros HP. by rewrite insertionSort_Permutation. Qed.

(** Inserting from the right end is merging with a singleton. *)
Lemma bubble_smerge s x :
  P x → Forall P s → ascending less s →
  reverse (bubble less x (reverse s)) = smerge less s [x].
Proof.
  intros Px. induction s as [|y s IH] using rev_ind; intros HP Hs; first done.
  apply Forall_app in HP as [HP [Py _]%Forall_cons].
  rewrite reverse_app, reverse_singleton. cbn [app bubble].
  apply StronglySorted_app in Hs as (Hcross & Hs & _).
  destruct (less x y) eqn:Hxy.
  - rewrite reverse_cons, IH by done.
    pose proof (smerge_split less s [x] [y] []) as Hsplit.
    rewrite smerge_nil_r in Hsplit. cbn [app] in Hsplit.
    rewrite Hsplit; first done.
    + intros ? ? _ ?%elem_of_nil. done.
    + intros ? ? ->%list_elem_of_singleton ->%list_elem_of_singleton. done.
  - rewrite !reverse_cons, reverse_involutive.
    pose proof (smerge_split less (s ++ [y]) [] [] [x]) as Hsplit.
    rewrite smerge_nil_r, smerge_nil_l, app_nil_r in Hsplit.
    cbn [app] in Hsplit. rewrite Hsplit; first done.
    + intros a ? Ha ->%list_elem_of_singleton.
      apply elem_of_app in Ha as [Ha| ->%list_elem_of_singleton]; last done.
      apply (less_ntrans x y a); try done.
      * rewrite Forall_forall in HP. by apply HP.
      * apply Hcross; [done | by apply list_elem_of_singleton].
    + intros ? ? ?%elem_of_nil. done.
Qed.

Lemma insertionSort_snoc l x :
  P x → Forall P l →
  insertionSort less (l ++ [x]) = smerge less (insertionSort less l) [x].
Proof.
  intros Px HP. rewrite <-bubble_smerge.
  - unfold insertionSort. by rewrite foldl_app, reverse_involutive.
  - done.
  - by apply insertionSort_P.
  - by apply insertionSort_ascending.
Qed.

(** Merging with a singleton on the right moves inside a merge. *)
Lemma smerge_assoc_singleton x l : ∀ r,
  P x → Forall P l → Forall P r →
  smerge less (smerge less l r) [x] = smerge less l (smerge less r [x]).
Proof.
  intros r Px. revert r.
  induction l as [|a l IHl]; intros r HPl HPr.
  { by rewrite !smerge_nil_l. }
  apply Forall_cons in HPl as [Pa HPl].
  induction r as [|b r IHr].
  { by rewrite smerge_nil_l, smerge_nil_r. }
  apply Forall_cons in HPr as [Pb HPr].
  rewrite (smerge_cons less a l b r).
  destruct (less b a) eqn:Hba.
  - rewrite (smerge_cons less b _ x []). rewrite (smerge_cons less b r x []).
    destruct (less x b) eqn:Hxb.
    + rewrite !smerge_nil_r.
      rewrite (smerge_cons less a l x (b :: r)).
      assert (less x a = true) as ->.
      { apply (less_lt_le x b a); try done. by apply less_asym. }
      by rewrite (smerge_cons less a l b r), Hba.
    + rewrite IHr by done.
      by rewrite (smerge_cons less a l b (smerge less r [x])), Hba.
  - rewrite (smerge_cons less a _ x []).
    destruct (less x a) eqn:Hxa.
    + rewrite smerge_nil_r.
      rewrite (smerge_cons less b r x []).
      assert (less x b = true) as ->.
      { by apply (less_lt_le x a b). }
      rewrite smerge_nil_r.
      rewrite (smerge_cons less a l x (b :: r)), Hxa.
      by rewrite (smerge_cons less a l b r), Hba.
    + rewrite (IHl (b :: r)) by (by rewrite ?Forall_cons).
      rewrite (smerge_cons less b r x []).
      destruct (less x b) eqn:Hxb.
      * rewrite smerge_nil_r.
        by rewrite (smerge_cons less a l x (b :: r)), Hxa.
      * by rewrite (smerge_cons less a l b _), Hba.
Qed.

Lemma insertionSort_app l r :
  Forall P l → Forall P r →
  insertionSort less (l ++ r)
  = smerge less (insertionSort less l) (insertionSort less r).
Proof.
  intros HPl. induction r as [|x r IH] using rev_ind; intros HPr.
  { rewrite app_nil_r. change (insertionSort less []) with (@nil A).
    by rewrite smerge_nil_r. }
  apply Forall_app in HPr as [HPr [Px _]%Forall_cons].
  rewrite app_assoc, !insertionSort_snoc, IH; try done.
  - apply smerge_assoc_singleton; by try apply insertionSort_P.
  - by apply Forall_app.
Qed.
(** *** [symMerge] on ascending blocks *)

Lemma nth_P l i d : Forall P l → (i < length l)%nat → P (nth i l d).
Proof.
  intros HP Hi. destruct (lookup_lt_is_Some_2 l i Hi) as [x Hx].
  rewrite (nth_lookup_Some _ _ d _ Hx).
  rewrite Forall_forall in HP. apply HP. by eapply list_elem_of_lookup_2.
Qed.

(** A merge may be cut at positions [s] of the left and [e] of the right
    list when the element before [s] is not above the one at [e], and the
    one before [e] is below the one at [s]. *)
Lemma smerge_cut l r s e d :
  Forall P l → Forall P r → ascending less l → ascending less r →
  (s ≤ length l)%nat → (e ≤ length r)%nat →
  ((0 < s)%nat → (e < length r)%nat →
   less (nth e r d) (nth (s - 1) l d) = false) →
  ((0 < e)%nat → (s < length l)%nat →
   less (nth (e - 1) r d) (nth s l d) = true) →
  smerge less l r
  = smerge less (take s l) (take e r) ++ smerge less (drop s l) (drop e r).
Proof.
  intros HPl HPr Hl Hr Hs He Hlow Hhigh.
  rewrite <-(take_drop s l) at 1. rewrite <-(take_drop e r) at 1.
  assert (∀ x, x ∈ l → P x) as Pl by (by apply Forall_forall).
  assert (∀ x, x ∈ r → P x) as Pr by (by apply Forall_forall).
  apply smerge_split.
  - intros x y Hx Hy.
    assert (0 < s)%nat as Hs0.
    { destruct s; [by apply elem_of_nil in Hx | lia]. }
    assert (e < length r)%nat as He1.
    { destruct (decide (e < length r)%nat); first done.
      rewrite drop_ge in Hy by lia. by apply elem_of_nil in Hy. }
    assert (P x) by (by eapply Pl, elem_of_sublist, sublist_take).
    assert (P y) by (by eapply Pr, elem_of_sublist, sublist_drop).
    assert (P (nth e r d)) by (by apply nth_P).
    assert (P (nth (s - 1) l d)) by (apply nth_P; [done | lia]).
    apply (less_ntrans y (nth (s - 1) l d) x); try done.
    + apply (less_ntrans y (nth e r d) (nth (s - 1) l d)); try done.
      * by apply ascending_drop_ge.
      * by apply Hlow.
    + apply ascending_take_le; [done | done | lia | done].
  - intros y x Hy Hx.
    assert (0 < e)%nat as He0.
    { destruct e; [by apply elem_of_nil in Hy | lia]. }
    assert (s < length l)%nat as Hs1.
    { destruct (decide (s < length l)%nat); first done.
      rewrite drop_ge in Hx by lia. by apply elem_of_nil in Hx. }
    assert (P x) by (by eapply Pl, elem_of_sublist, sublist_drop).
    assert (P y) by (by eapply Pr, elem_of_sublist, sublist_take).
    assert (P (nth (e - 1) r d)) by (apply nth_P; [done | lia]).
    assert (P (nth s l d)) by (by apply nth_P).
    apply (less_lt_le y (nth s l d) x); try done.
    + apply (less_le_lt y (nth (e - 1) r d) (nth s l d)); try done.
      * apply ascending_take_le; [done | done | lia | done].
      * by apply Hhigh.
    + by apply ascending_drop_ge.
Qed.

Lemma drop_nth_head {B} (l : list B) i d z rest :
  drop i l = z :: rest → (i < length l)%nat ∧ nth i l d = z.
Proof.
  intros Hdrop.
  assert (l !! i = Some z) as Hz.
  { rewrite <-(Nat.add_0_r i), <-lookup_drop, Hdrop. done. }
  split; [by eapply lookup_lt_Some | by apply nth_lookup_Some].
Qed.

Lemma symMerge_fuel_smerge fuel : ∀ l r,
  (length l + length r ≤ fuel)%nat → Forall P l → Forall P r →
  ascending less l → ascending less r →
  symMerge_fuel fuel less l r = smerge less l r.
Proof.
  induction fuel as [|fuel IH]; intros l r Hfuel HPl HPr Hl Hr.
  { destruct l, r; simpl in *; try lia. done. }
  destruct l as [|d l0]; first by rewrite smerge_nil_l.
  destruct r as [|y r0].
  { cbn [symMerge_fuel]. by rewrite app_nil_r, smerge_nil_r. }
  cbn [symMerge_fuel].
  set (l := d :: l0) in *. set (r := y :: r0) in *. set (data := l ++ r).
  assert (length data = length l + length r)%nat as Hb
    by apply length_app.
  assert (∀ i, (i < length l)%nat → nth i data d = nth i l d) as Hnl.
  { intros i Hi. by apply app_nth1. }
  assert (∀ i, (length l ≤ i)%nat → nth i data d = nth (i - length l) r d)
    as Hnr.
  { intros i Hi. apply app_nth2. lia. }
  assert (1 ≤ length l)%nat as Hl1 by (unfold l; simpl; lia).
  assert (1 ≤ length r)%nat as Hr1 by (unfold r; simpl; lia).
  destruct (length l =? 1)%nat eqn:Hm1.
  { (* the left block is one element *)
    apply Nat.eqb_eq in Hm1.
    assert (l = [d]) as Hld by (unfold l in *; by destruct l0).
    destruct (bsearch_spec (λ h, less (nth h data d) (nth 0 data d))
                (length data) 1 (length data)) as (Hi & Hlow & Hhigh);
      [lia | lia |].
    rewrite Hm1.
    set (i := bsearch _ _ _ _) in *.
    rewrite (smerge_cut l r 0 (i - 1) d); try done; try lia.
    - rewrite take_0, smerge_nil_l, drop_0. f_equal. rewrite Hld.
      destruct (drop (i - 1) r) as [|z rest] eqn:Hdrop; first done.
      apply (drop_nth_head _ _ d) in Hdrop as [Hlt Hz].
      rewrite smerge_cons. rewrite <-Hz.
      rewrite Hnr, (Hnl 0%nat) in Hhigh by lia.
      rewrite Hm1, Hld in Hhigh. cbn [nth] in Hhigh.
      rewrite Hhigh by lia. by rewrite smerge_nil_l.
    - intros Hi0 _. rewrite Hnr, (Hnl 0%nat) in Hlow by lia.
      rewrite Hm1 in Hlow. apply Hlow. lia. }
  apply Nat.eqb_neq in Hm1.
  destruct (length data - length l =? 1)%nat eqn:Hr1'.
  { (* the right block is one element *)
    apply Nat.eqb_eq in Hr1'.
    assert (r = [y]) as Hry.
    { unfold r in *. destruct r0; [done | simpl in *; lia]. }
    assert (nth (length l) data d = y) as Hy.
    { rewrite Hnr, Nat.sub_diag, Hry by lia. done. }
    rewrite Hy.
    destruct (bsearch_spec (λ h, negb (less y (nth h data d)))
                (length data) 0 (length l)) as (Hi & Hlow & Hhigh);
      [lia | lia |].
    set (i := bsearch _ _ _ _) in *.
    rewrite (smerge_cut l r i 0 d); try done; try lia.
    - rewrite take_0, smerge_nil_r, drop_0. f_equal. rewrite Hry.
      destruct (drop i l) as [|z rest] eqn:Hdrop; first done.
      apply (drop_nth_head _ _ d) in Hdrop as [Hlt Hz].
      rewrite smerge_cons. rewrite <-Hz.
      rewrite (Hnl i) in Hhigh by lia.
      apply negb_false_iff in Hhigh; last lia.
      by rewrite Hhigh, smerge_nil_r.
    - intros Hi0 _. rewrite Hry. cbn [nth].
      rewrite (Hnl (i - 1)%nat) in Hlow by lia.
      apply negb_true_iff, Hlow. lia. }
  apply Nat.eqb_neq in Hr1'.
  (* both blocks have two elements or more *)
  pose proof (Nat.div2_odd (length data)) as Hmid.
  set (mid := Nat.div2 (length data)) in *.
  assert (2 * mid ≤ length data ≤ 2 * mid + 1)%nat as Hmid'.
  { destruct (Nat.odd (length data)); cbn [Nat.b2n] in Hmid; lia. }
  clear Hmid.
  set (m := length l) in *.
  assert (∃ lo hi,
            (if (mid <? m)%nat then ((mid + m - length data)%nat, mid)
             else (0%nat, m)) = (lo, hi)
            ∧ (lo ≤ hi)%nat ∧ (hi ≤ mid)%nat ∧ (hi ≤ m)%nat
            ∧ (mid + m - length data ≤ lo)%nat
            ∧ (lo = 0%nat ∨ lo = mid + m - length data)%nat
            ∧ (hi = mid ∨ hi = m))
    as (lo & hi & -> & Hlohi & Hhimid & Hhim & Hs0 & Hs0' & Hhi').
  { destruct (mid <? m)%nat eqn:Hlt.
    - apply Nat.ltb_lt in Hlt. eexists _, _. split; first done. lia.
    - apply Nat.ltb_ge in Hlt. eexists _, _. split; first done. lia. }
  destruct (bsearch_spec
              (λ c, negb (less (nth (mid + m - 1 - c) data d) (nth c data d)))
              (length data) lo hi) as (Hstart & Hlow & Hhigh);
    [lia | lia |].
  set (start := bsearch _ _ _ _) in *.
  set (end_ := (mid + m - start)%nat).
  assert (end_ - m = mid - start)%nat as He by (unfold end_; lia).
  rewrite He.
  assert (take start l ++ take (mid - start) r = smerge less (take start l) (take (mid - start) r)
          ∨ ((0 <? start)%nat && (start <? mid)%nat = true)) as Hleft.
  { destruct (0 <? start)%nat eqn:H1; last first.
    { apply Nat.ltb_ge in H1. left.
      replace start with 0%nat by lia. by rewrite take_0, smerge_nil_l. }
    destruct (start <? mid)%nat eqn:H2; last first.
    { apply Nat.ltb_ge in H2. left.
      replace (mid - start)%nat with 0%nat by lia.
      by rewrite take_0, app_nil_r, smerge_nil_r. }
    by right. }
  assert ((if (0 <? start)%nat && (start <? mid)%nat
           then symMerge_fuel fuel less (take start l) (take (mid - start) r)
           else take start l ++ take (mid - start) r)
          = smerge less (take start l) (take (mid - start) r)) as ->.
  { destruct ((0 <? start)%nat && (start <? mid)%nat) eqn:Hguard.
    - apply IH.
      + rewrite !length_take. lia.
      + by apply Forall_take.
      + by apply Forall_take.
      + by apply ascending_take.
      + by apply ascending_take.
    - by destruct Hleft. }
  assert ((if (mid <? end_)%nat && (end_ <? length data)%nat
           then symMerge_fuel fuel less (drop start l) (drop (mid - start) r)
           else drop start l ++ drop (mid - start) r)
          = smerge less (drop start l) (drop (mid - start) r)) as ->.
  { destruct (mid <? end_)%nat eqn:H1; last first.
    { apply Nat.ltb_ge in H1. cbn [andb].
      rewrite (drop_ge l) by (unfold end_ in H1; lia).
      by rewrite smerge_nil_l. }
    destruct (end_ <? length data)%nat eqn:H2; last first.
    { apply Nat.ltb_ge in H2. cbn [andb].
      rewrite (drop_ge r) by (unfold end_ in H2; lia).
      by rewrite app_nil_r, smerge_nil_r. }
    cbn [andb]. apply IH.
    + rewrite !length_drop. apply Nat.ltb_lt in H1, H2. unfold end_ in *. lia.
    + by apply Forall_drop.
    + by apply Forall_drop.
    + by apply ascending_drop.
    + by apply ascending_drop. }
  symmetry. apply (smerge_cut l r start (mid - start) d); try done; try lia.
  - intros Hs Hlt.
    assert (lo < start)%nat as Hgt by lia.
    specialize (Hlow Hgt). apply negb_true_iff in Hlow.
    rewrite Hnr, Hnl in Hlow by lia.
    replace (mid + m - 1 - (start - 1) - m)%nat with (mid - start)%nat
      in Hlow by lia.
    done.
  - intros He0 Hlt.
    assert (start < hi)%nat as Hgt by lia.
    specialize (Hhigh Hgt). apply negb_false_iff in Hhigh.
    rewrite Hnr, Hnl in Hhigh by lia.
    replace (mid + m - 1 - start - m)%nat with (mid - start - 1)%nat
      in Hhigh by lia.
    done.
Qed.

Lemma symMerge_smerge l r :
  Forall P l → Forall P r → ascending less l → ascending less r →
  symMerge less l r = smerge less l r.
Proof. intros. by apply symMerge_fuel_smerge. Qed.

(** *** The blocks and the rounds of merging *)

Lemma merge_pass_insertionSort segs :
  Forall P (concat segs) →
  ∃ segs',
    merge_pass less (insertionSort less <$> segs) = insertionSort less <$> segs'
    ∧ concat segs' = concat segs
    ∧ (length segs' ≤ length segs)%nat
    ∧ ((2 ≤ length segs)%nat → (length segs' < length segs)%nat).
Proof.
  induction segs as [[|s1 [|s2 segs]] IH] using (induction_ltof1 _ length);
    unfold ltof in IH; intros HP.
  - exists []. split_and!; [done | done | done | simpl; lia].
  - exists [s1]. split_and!; [done | done | done | simpl; lia].
  - cbn [concat] in HP.
    apply Forall_app in HP as [HP1 [HP2 HP]%Forall_app].
    destruct (IH segs) as (segs' & Hpass & Hconcat & Hlen & _);
      [simpl; lia | done |].
    exists ((s1 ++ s2) :: segs'). cbn [fmap list_fmap merge_pass].
    split_and!.
    + fold (@fmap list _ _ _ (insertionSort less) segs).
      rewrite Hpass. f_equal.
      rewrite symMerge_smerge, insertionSort_app;
        auto using insertionSort_P, insertionSort_ascending.
    + cbn [concat]. by rewrite Hconcat, app_assoc.
    + simpl. lia.
    + simpl. lia.
Qed.

Lemma merge_passes_insertionSort fuel : ∀ segs,
  (length segs ≤ S fuel)%nat → Forall P (concat segs) →
  concat (merge_passes fuel less (insertionSort less <$> segs))
  = insertionSort less (concat segs).
Proof.
  induction fuel as [|fuel IH]; intros segs Hlen HP.
  { destruct segs as [|s1 [|s2 segs]]; simpl in Hlen; try lia; first done.
    simpl. by rewrite !app_nil_r. }
  destruct segs as [|s1 [|s2 segs]]; first done.
  { simpl. by rewrite !app_nil_r. }
  destruct (merge_pass_insertionSort (s1 :: s2 :: segs) HP)
    as (segs' & Hpass & Hconcat & _ & Hless).
  change (merge_passes (S fuel) less (insertionSort less <$> s1 :: s2 :: segs))
    with (merge_passes fuel less
            (merge_pass less (insertionSort less <$> s1 :: s2 :: segs))).
  rewrite Hpass, IH, Hconcat; first done.
  - specialize (Hless ltac:(simpl; lia)). lia.
  - by rewrite Hconcat.
Qed.
End strict_weak_order.

Lemma sorted_blocks_insertionSort {A} (less : A → A → bool) bs fuel :
  ∀ data,
  (length data ≤ fuel)%nat → (0 < bs)%nat →
  ∃ segs,
    sorted_blocks fuel less bs data = insertionSort less <$> segs
    ∧ concat segs = data
    ∧ (length segs ≤ length data)%nat.
Proof.
  induction fuel as [|fuel IH]; intros data Hfuel Hbs.
  { exists []. destruct data; [done | simpl in Hfuel; lia]. }
  destruct data as [|x data]; first by exists [].
  cbn [sorted_blocks]. destruct (bs <=? length (x :: data))%nat eqn:Hle.
  - apply Nat.leb_le in Hle.
    destruct (IH (drop bs (x :: data))) as (segs & -> & Hconcat & Hlen);
      [rewrite length_drop; simpl in *; lia | done |].
    exists (take bs (x :: data) :: segs). split_and!; first done.
    + cbn [concat]. by rewrite Hconcat, take_drop.
    + rewrite length_drop in Hlen. simpl in *. lia.
  - exists [x :: data]. split_and!; [done | | simpl; lia].
    simpl. by rewrite app_nil_r.
Qed.

(** On a strict weak order Go's stable sort returns what its insertion sort
    alone returns. *)
Lemma SliceStable_insertionSort {A} (less : A → A → bool) (P : A → Prop) l :
  (∀ a b, P a → P b → less a b = true → less b a = false) →
  (∀ a b c, P a → P b → P c →
     less a b = false → less b c = false → less a c = false) →
  Forall P l → SliceStable less l = insertionSort less l.
Proof.
  intros Hasym Hntrans HP. unfold SliceStable.
  destruct (sorted_blocks_insertionSort less 20 (length l) l)
    as (segs & -> & Hconcat & Hlen); [lia | lia |].
  rewrite (merge_passes_insertionSort less P Hasym Hntrans).
  - by rewrite Hconcat.
  - lia.
  - by rewrite Hconcat.
Qed.

(** A slice of at most 20 elements is one block: the insertion sort is all
    that runs, whatever the comparison. *)
Lemma SliceStable_short {A} (less : A → A → bool) l :
  (length l ≤ 20)%nat → SliceStable less l = insertionSort less l.
Proof.
  intros Hlen. unfold SliceStable.
  destruct l as [|x l]; first done.
  cbn [sorted_blocks length].
  destruct (20 <=? S (length l))%nat eqn:Hle.
  - apply Nat.leb_le in Hle.
    assert (length (x :: l) = 20%nat) as H20 by (simpl in *; lia).
    rewrite take_ge, drop_ge by lia.
    destruct (length l); cbn; by rewrite app_nil_r.
  - cbn. by rewrite app_nil_r.
Qed.

Section sort_facts.
Context {A : Type} (less : A → A → bool).

Lemma foldl_bubble_never l acc :
  (∀ a b, a ∈ l → less a b = false) →
  foldl (λ rprefix e, bubble less e rprefix) acc l = reverse l ++ acc.
Proof.
  revert acc. induction l as [|x l IH]; intros acc Hless; simpl; first done.
  rewrite IH by (intros; apply Hless; set_solver).
  rewrite reverse_cons, <-app_assoc. f_equal.
  destruct acc as [|y acc]; simpl; first done.
  rewrite Hless; [done | set_solver].
Qed.

Lemma insertionSort_never l :
  (∀ a b, a ∈ l → less a b = false) → insertionSort less l = l.
Proof.
  intros Hless. unfold insertionSort.
  by rewrite foldl_bubble_never, app_nil_r, reverse_involutive.
Qed.

(** A comparison that is never true leaves the slice as it is. *)
Lemma SliceStable_never l :
  (∀ a b, a ∈ l → less a b = false) → SliceStable less l = l.
Proof.
  intros Hless.
  rewrite (SliceStable_insertionSort less (λ a, a ∈ l)).
  - by apply insertionSort_never.
  - intros a b Ha _ Hab. by rewrite Hless in Hab.
  - intros a b c Ha _ _ _ _. by apply Hless.
  - by apply Forall_forall.
Qed.

Context (prior : relation A) (P : A → Prop).
Hypothesis less_asym : ∀ a b, P a → P b → less a b = true → less b a = false.
Hypothesis less_ntrans : ∀ a b c, P a → P b → P c →
  less a b = false → less b c = false → less a c = false.

(** A stable sort puts the slice in the order of [less] and keeps the
    prior order among the elements that [less] does not tell apart. *)
Lemma SliceStable_sorted l :
  Forall P l → StronglySorted prior l →
  StronglySorted (stably_before less prior) (SliceStable less l).
Proof.
  intros HP Hl. rewrite (SliceStable_insertionSort less P) by done.
  by apply (insertionSort_sorted less P).
Qed.
End sort_facts.

(** *** The rounds allowed are enough *)

Section fuel.
Context {A : Type} (less : A → A → bool).

Lemma symMerge_fuel_enough fuel : ∀ fuel' l r,
  (length l + length r ≤ fuel)%nat → (length l + length r ≤ fuel')%nat →
  symMerge_fuel fuel less l r = symMerge_fuel fuel' less l r.
Proof.
  induction fuel as [|fuel IH]; intros fuel' l r Hfuel Hfuel'.
  { destruct l, r; simpl in *; try lia. by destruct fuel'. }
  destruct l as [|d l0]; first by destruct fuel'.
  destruct r as [|y r0]; first by destruct fuel'.
  destruct fuel' as [|fuel']; first (simpl in *; lia).
  cbn [symMerge_fuel].
  set (l := d :: l0) in *. set (r := y :: r0) in *. set (data := l ++ r).
  assert (length data = length l + length r)%nat as Hb by apply length_app.
  destruct (length l =? 1)%nat eqn:Hm1; first done.
  destruct (length data - length l =? 1)%nat eqn:Hr1; first done.
  apply Nat.eqb_neq in Hm1, Hr1.
  assert (1 ≤ length l)%nat by (unfold l; simpl; lia).
  assert (1 ≤ length r)%nat by (unfold r; simpl; lia).
  pose proof (Nat.div2_odd (length data)) as Hmid.
  set (mid := Nat.div2 (length data)) in *.
  assert (2 * mid ≤ length data ≤ 2 * mid + 1)%nat as Hmid'.
  { destruct (Nat.odd (length data)); cbn [Nat.b2n] in Hmid; lia. }
  clear Hmid. set (m := length l) in *.
  assert (∃ lo hi,
            (if (mid <? m)%nat then ((mid + m - length data)%nat, mid)
             else (0%nat, m)) = (lo, hi)
            ∧ (lo ≤ hi)%nat ∧ (hi ≤ mid)%nat ∧ (hi ≤ m)%nat)
    as (lo & hi & -> & Hlohi & Hhimid & Hhim).
  { destruct (mid <? m)%nat eqn:Hlt.
    - apply Nat.ltb_lt in Hlt. eexists _, _. split; first done. lia.
    - apply Nat.ltb_ge in Hlt. eexists _, _. split; first done. lia. }
  destruct (bsearch_spec
              (λ c, negb (less (nth (mid + m - 1 - c) data d) (nth c data d)))
              (length data) lo hi) as (Hstart & _); [lia | lia |].
  set (start := bsearch _ _ _ _) in *.
  rewrite (IH fuel' (take start l)), (IH fuel' (drop start l)); first done.
  all: rewrite ?length_take, ?length_drop; lia.
Qed.

Lemma merge_pass_length blocks :
  (length (merge_pass less blocks) ≤ length blocks)%nat
  ∧ ((2 ≤ length blocks)%nat →
     (length (merge_pass less blocks) < length blocks)%nat).
Proof.
  induction blocks as [[|l [|r blocks]] IH] using (induction_ltof1 _ length);
    unfold ltof in IH; [simpl; lia..|].
  destruct (IH blocks) as [Hle _]; first (simpl; lia).
  cbn [merge_pass length]. lia.
Qed.

(** The rounds of merging end with one block. *)
Lemma merge_passes_length fuel : ∀ blocks,
  (length blocks ≤ S fuel)%nat →
  (length (merge_passes fuel less blocks) ≤ 1)%nat.
Proof.
  induction fuel as [|fuel IH]; intros blocks Hlen.
  { destruct blocks as [|l [|r blocks]]; simpl in *; lia. }
  destruct blocks as [|l [|r blocks]]; [simpl; lia..|].
  change (merge_passes (S fuel) less (l :: r :: blocks))
    with (merge_passes fuel less (merge_pass less (l :: r :: blocks))).
  apply IH.
  destruct (merge_pass_length (l :: r :: blocks)) as [_ Hlt].
  specialize (Hlt ltac:(simpl; lia)). lia.
Qed.
End fuel.

Local Open Scope Z_scope.

(** ** The duplicate filter *)

Section duplicate_filter.
Context {A : Type} (id : A → list byte).

Lemma filter_added_app added l nlist :
  filter_added id added l nlist = nlist ++ filter_added id added l [].
Proof.
  revert added nlist. induction l as [|v l IH]; intros added nlist; simpl.
  - by rewrite app_nil_r.
  - destruct (negb _); last by apply IH.
    rewrite (IH _ (nlist ++ [v])), (IH _ [v]). by rewrite <-app_assoc.
Qed.

(** The map [added] holds exactly the keys of the positions passed. *)
Lemma filter_added_first_occurrences added earlier l :
  (∀ k, default false (added !! k) = true ↔ k ∈ id <$> earlier) →
  filter_added id added l [] = first_occurrences_from id earlier l.
Proof.
  revert added earlier. induction l as [|v l IH]; intros added earlier Hadded;
    simpl; first done.
  destruct (decide (id v ∈ id <$> earlier)) as [Hin|Hin].
  - pose proof Hin as Hin'. apply Hadded in Hin' as ->. simpl.
    apply IH. intros k. rewrite Hadded, fmap_app, elem_of_app. simpl.
    rewrite list_elem_of_singleton. intuition congruence.
  - destruct (default false (added !! id v)) eqn:Hv.
    { by apply Hadded in Hv. }
    simpl. rewrite filter_added_app. simpl. f_equal.
    apply IH. intros k. rewrite fmap_app, elem_of_app. simpl.
    rewrite list_elem_of_singleton.
    destruct (decide (k = id v)) as [->|Hne].
    + rewrite lookup_insert_eq. naive_solver.
    + rewrite lookup_insert_ne by done. rewrite Hadded. intuition congruence.
Qed.

Lemma first_occurrences_from_sublist earlier l :
  first_occurrences_from id earlier l `sublist_of` l.
Proof.
  revert earlier. induction l as [|v l IH]; intros earlier; simpl; first done.
  destruct (decide _); [by apply sublist_cons | by apply sublist_skip].
Qed.

Lemma first_occurrences_from_fresh earlier l x :
  x ∈ first_occurrences_from id earlier l → id x ∉ id <$> earlier.
Proof.
  revert earlier. induction l as [|v l IH]; intros earlier; simpl.
  - by intros ?%elem_of_nil.
  - destruct (decide _) as [Hin|Hin].
    + intros Hx%IH. rewrite fmap_app in Hx. set_solver.
    + intros [->|Hx%IH]%elem_of_cons; first done.
      rewrite fmap_app in Hx. set_solver.
Qed.

Lemma first_occurrences_from_NoDup earlier l :
  NoDup (id <$> first_occurrences_from id earlier l).
Proof.
  revert earlier. induction l as [|v l IH]; intros earlier; simpl.
  - constructor.
  - destruct (decide _) as [Hin|Hin]; first by apply IH.
    rewrite fmap_cons. constructor; last by apply IH.
    intros (x & Hid & Hx)%list_elem_of_fmap.
    apply first_occurrences_from_fresh in Hx.
    rewrite fmap_app in Hx. set_solver.
Qed.

Lemma first_occurrences_from_covers earlier l x :
  x ∈ l →
  id x ∈ id <$> earlier ∨ id x ∈ id <$> first_occurrences_from id earlier l.
Proof.
  revert earlier. induction l as [|v l IH]; intros earlier; simpl.
  - by intros ?%elem_of_nil.
  - intros [->|Hx]%elem_of_cons.
    + destruct (decide _); [by left | right].
      rewrite fmap_cons. apply elem_of_cons. by left.
    + destruct (IH (earlier ++ [v]) Hx) as [Hin|Hin].
      * rewrite fmap_app, elem_of_app in Hin. simpl in Hin.
        rewrite list_elem_of_singleton in Hin.
        destruct (decide (id v ∈ id <$> earlier)) as [Hv|Hv].
        -- left. by destruct Hin as [?| ->].
        -- destruct Hin as [?|Heq]; [by left | right].
           rewrite fmap_cons, Heq. apply elem_of_cons. by left.
      * destruct (decide _); [by right | right].
        rewrite fmap_cons. apply elem_of_cons. by right.
Qed.

Lemma first_occurrences_from_id earlier l :
  NoDup (id <$> l) → (∀ x, x ∈ l → id x ∉ id <$> earlier) →
  first_occurrences_from id earlier l = l.
Proof.
  revert earlier. induction l as [|v l IH]; intros earlier Hnd Hfresh;
    simpl; first done.
  rewrite fmap_cons in Hnd. apply NoDup_cons in Hnd as [Hv Hnd].
  destruct (decide _) as [Hin|Hin].
  { exfalso. eapply Hfresh; [|done]. set_solver. }
  f_equal. apply IH; first done.
  intros x Hx. rewrite fmap_app, elem_of_app. intros [Hin'|Hin'].
  - eapply Hfresh; [|done]. set_solver.
  - assert (id x = id v) as Heq by set_solver.
    apply Hv. rewrite <-Heq. by apply list_elem_of_fmap_2.
Qed.

Lemma filter_added_spec l :
  filter_added id ∅ l [] = first_occurrences id l.
Proof.
  apply filter_added_first_occurrences. intros k.
  rewrite lookup_empty. simpl. set_solver.
Qed.


Lemma first_occurrences_NoDup_id l :
  NoDup (id <$> l) → first_occurrences id l = l.
Proof. intros Hnd. apply first_occurrences_from_id; [done | set_solver]. Qed.
End duplicate_filter.

(** ** The store *)

Section store_facts.
Import Opr.

Lemma update_eq σ p f : update σ p f p = f (σ p).
Proof. unfold update. by rewrite decide_True. Qed.

Lemma update_ne σ p f q : q ≠ p → update σ p f q = σ q.
Proof. intros Hne. unfold update. by rewrite decide_False. Qed.

Lemma same_submission_refl r : same_submission r r.
Proof. by repeat split. Qed.

Lemma same_submission_trans r1 r2 r3 :
  same_submission r1 r2 → same_submission r2 r3 → same_submission r1 r3.
Proof. unfold same_submission. intuition congruence. Qed.

Lemma same_submission_sym r1 r2 : same_submission r1 r2 → same_submission r2 r1.
Proof. unfold same_submission. intuition congruence. Qed.

Lemma same_submission_set_Difficulty d r : same_submission r (set_Difficulty d r).
Proof. by repeat split. Qed.

Lemma same_submission_set_Grade g r : same_submission r (set_Grade g r).
Proof. by repeat split. Qed.

Lemma same_submission_update_Grade σ p g q :
  same_submission (σ q) (update σ p (set_Grade g) q).
Proof.
  destruct (decide (q = p)) as [->|Hne].
  - rewrite update_eq. apply same_submission_set_Grade.
  - rewrite update_ne by done. apply same_submission_refl.
Qed.

Lemma same_submission_update_Difficulty σ p d q :
  same_submission (σ q) (update σ p (set_Difficulty d) q).
Proof.
  destruct (decide (q = p)) as [->|Hne].
  - rewrite update_eq. apply same_submission_set_Difficulty.
  - rewrite update_ne by done. apply same_submission_refl.
Qed.

Lemma same_submission_honest H r r' σ σ' p :
  r = σ p → r' = σ' p → same_submission r r' → honest H σ p = honest H σ' p.
Proof.
  intros -> -> (HN & HO & HS & _). unfold honest, ComputeDifficulty.
  by rewrite HN, HO, HS.
Qed.

Lemma same_submission_checkable H σ σ' p :
  same_submission (σ p) (σ' p) → checkable H σ p → checkable H σ' p.
Proof.
  intros (HN & HO & HS & _). unfold checkable. by rewrite HN, HO, HS.
Qed.

Lemma agree_on_refl ps σ : agree_on ps σ σ.
Proof. by intros p _. Qed.

Lemma agree_on_mono ps qs σ σ' : qs ⊆ ps → agree_on ps σ σ' → agree_on qs σ σ'.
Proof. intros Hsub Hag p Hp. apply Hag, Hsub, Hp. Qed.

Lemma agree_on_update ps σ σ' p f :
  agree_on ps σ σ' → p ∈ ps → agree_on ps (update σ p f) (update σ' p f).
Proof.
  intros Hag Hp q Hq. destruct (decide (q = p)) as [->|Hne].
  - by rewrite !update_eq, (Hag p Hp).
  - rewrite !update_ne by done. by apply Hag.
Qed.
End store_facts.

(** ** Averages and grades: which indices are read *)

Section averages.
Import Opr.
Variable LXRHash : list byte → list byte.
Variable AllAssets : list string.

Lemma Avg_tokens_returns avg tokens i :
  (i + length tokens ≤ length avg)%nat →
  ∃ avg', Avg_tokens avg tokens i = Returns avg' ∧ length avg' = length avg.
Proof.
  revert avg i. induction tokens as [|t tokens IH]; intros avg i Hlen; simpl.
  - by exists avg.
  - simpl in Hlen. destruct (lookup_lt_is_Some_2 avg i) as [a Ha]; first lia.
    rewrite Ha.
    edestruct (IH (<[i:=if (0 <=? value t)%float then (a + value t)%float
                        else (a - value t)%float]> avg) (S i))
      as (avg' & Heq & Hl).
    { rewrite length_insert. lia. }
    exists avg'. split; first done. by rewrite Hl, length_insert.
Qed.

Lemma Avg_tokens_panics avg tokens i :
  (length avg < i + length tokens)%nat → tokens ≠ [] →
  Avg_tokens avg tokens i = Panics "index out of range".
Proof.
  revert avg i. induction tokens as [|t tokens IH]; intros avg i Hlen Hne;
    simpl; first done.
  simpl in Hlen. destruct (avg !! i) as [a|] eqn:Ha; last done.
  apply lookup_lt_Some in Ha.
  apply IH; first (rewrite length_insert; lia).
  intros ->. simpl in Hlen. lia.
Qed.

Lemma Avg_sum_returns σ avg l :
  length avg = length AllAssets → Forall (fits AllAssets σ) l →
  ∃ avg', Avg_sum σ avg l = Returns avg' ∧ length avg' = length AllAssets.
Proof.
  revert avg. induction l as [|p l IH]; intros avg Hlen Hfit; simpl.
  - by exists avg.
  - apply Forall_cons in Hfit as [Hp Hfit].
    destruct (Avg_tokens_returns avg (GetTokens σ p) 0) as (avg1 & -> & Hl1).
    { unfold fits, GetTokens in *. lia. }
    simpl. apply IH; [congruence | done].
Qed.

Lemma Avg_sum_panics σ avg l :
  length avg = length AllAssets → ¬ Forall (fits AllAssets σ) l →
  Avg_sum σ avg l = Panics "index out of range".
Proof.
  revert avg. induction l as [|p l IH]; intros avg Hlen Hfit; simpl.
  - by destruct Hfit.
  - destruct (decide (fits AllAssets σ p)) as [Hp|Hp].
    + destruct (Avg_tokens_returns avg (GetTokens σ p) 0) as (avg1 & -> & Hl1).
      { unfold fits, GetTokens in *. lia. }
      simpl. apply IH; first congruence.
      intros Hl. apply Hfit. by constructor.
    + rewrite Avg_tokens_panics; first done.
      * unfold fits, GetTokens in *. lia.
      * unfold fits, GetTokens in *. intros Heq. rewrite Heq in Hp.
        simpl in Hp. lia.
Qed.

Lemma Avg_returns σ l :
  Forall (fits AllAssets σ) l →
  ∃ avg, Avg AllAssets σ l = Returns avg ∧ length avg = length AllAssets.
Proof.
  intros Hfit. unfold Avg.
  destruct (Avg_sum_returns σ (replicate (length AllAssets) 0%float) l)
    as (avg & -> & Hl); [by rewrite length_replicate | done |].
  simpl. eexists. split; first done. by rewrite length_fmap.
Qed.

Lemma Avg_panics σ l :
  ¬ Forall (fits AllAssets σ) l →
  Avg AllAssets σ l = Panics "index out of range".
Proof.
  intros Hfit. unfold Avg.
  rewrite Avg_sum_panics; [done | by rewrite length_replicate | done].
Qed.

Lemma grade_tokens_returns avg tokens i g :
  (i + length tokens ≤ length avg)%nat →
  returns (grade_tokens avg tokens i g).
Proof.
  revert i g. induction tokens as [|t tokens IH]; intros i g Hlen; simpl.
  - apply returns_Returns.
  - simpl in Hlen. destruct (lookup_lt_is_Some_2 avg i) as [a Ha]; first lia.
    rewrite Ha. destruct (0 <? a)%float; apply IH; lia.
Qed.

Lemma grade_tokens_panics avg tokens i g :
  (length avg < i + length tokens)%nat → tokens ≠ [] →
  grade_tokens avg tokens i g = Panics "index out of range".
Proof.
  revert i g. induction tokens as [|t tokens IH]; intros i g Hlen Hne;
    simpl; first done.
  simpl in Hlen. destruct (avg !! i) as [a|] eqn:Ha; last done.
  apply lookup_lt_Some in Ha.
  assert (tokens ≠ []) by (intros ->; simpl in Hlen; lia).
  destruct (0 <? a)%float; apply IH; (lia || done).
Qed.

Lemma CalculateGrade_returns avg σ p :
  returns (CalculateGrade avg σ p) ↔ (length (Tokens (σ p)) ≤ length avg)%nat.
Proof.
  unfold CalculateGrade, GetTokens. split.
  - intros Hret. destruct (decide (length (Tokens (σ p)) ≤ length avg)%nat)
      as [|Hgt]; first done.
    rewrite grade_tokens_panics in Hret.
    + by apply not_returns_Panics in Hret.
    + lia.
    + intros Heq. rewrite Heq in Hgt. simpl in Hgt. lia.
  - intros Hlen.
    destruct (grade_tokens_returns avg (Tokens (σ p)) 0 0%float) as [g ->];
      first lia.
    simpl. apply returns_Returns.
Qed.

(** What [CalculateGrade] does to the store. *)
Lemma CalculateGrade_store avg σ p σ' g :
  CalculateGrade avg σ p = Returns (σ', g) →
  grade_tokens avg (Tokens (σ p)) 0 0%float = Returns g
  ∧ σ' = update σ p (set_Grade g).
Proof.
  unfold CalculateGrade, GetTokens.
  intros (g' & Hg & [= <- <-])%bind_Returns. by split.
Qed.
End averages.

(** ** The narrowing loop *)

Section narrowing.
Import Opr.
Variable AllAssets : list string.

Lemma Avg_sum_ext σ σ' avg l :
  agree_on l σ σ' → Avg_sum σ avg l = Avg_sum σ' avg l.
Proof.
  revert avg. induction l as [|p l IH]; intros avg Hag; simpl; first done.
  unfold GetTokens. rewrite <-(Hag p) by (apply elem_of_cons; by left).
  destruct (Avg_tokens _ _ _) as [avg'|]; simpl; last done.
  apply IH. eapply agree_on_mono; [|done]. set_solver.
Qed.

Lemma Avg_ext σ σ' l :
  agree_on l σ σ' → Avg AllAssets σ l = Avg AllAssets σ' l.
Proof. intros Hag. unfold Avg. by rewrite (Avg_sum_ext σ σ'). Qed.

Lemma rerank_Permutation σ prefix : rerank σ prefix ≡ₚ prefix.
Proof. unfold rerank. by rewrite !SliceStable_Permutation. Qed.

Lemma rerank_ext σ σ' prefix :
  agree_on prefix σ σ' → rerank σ prefix = rerank σ' prefix.
Proof.
  intros Hag. unfold rerank.
  rewrite (SliceStable_ext (λ a b, Difficulty (σ b) <? Difficulty (σ a))
             (λ a b, Difficulty (σ' b) <? Difficulty (σ' a)) prefix).
  - apply SliceStable_ext. intros a b Ha Hb.
    rewrite SliceStable_Permutation in Ha, Hb.
    by rewrite (Hag a Ha), (Hag b Hb).
  - intros a b Ha Hb. by rewrite (Hag a Ha), (Hag b Hb).
Qed.

(** Grading a prefix writes [Grade] at the pointers of the prefix and
    nothing else; two stores that agree on a set holding the prefix are
    taken to stores that agree on it. *)
Lemma grade_all_agree avg σa σb prefix ps :
  agree_on ps σa σb → prefix ⊆ ps →
  (∀ p, p ∈ prefix → (length (Tokens (σa p)) ≤ length avg)%nat) →
  ∃ σa' σb',
    grade_all avg σa prefix = Returns σa'
    ∧ grade_all avg σb prefix = Returns σb'
    ∧ agree_on ps σa' σb'
    ∧ (∀ q, same_submission (σa q) (σa' q)
            ∧ Difficulty (σa' q) = Difficulty (σa q))
    ∧ (∀ q, q ∉ prefix → σa' q = σa q).
Proof.
  revert σa σb. induction prefix as [|p prefix IH]; intros σa σb Hag Hsub Hfit;
    simpl.
  - exists σa, σb. repeat split; auto using same_submission_refl.
  - assert (p ∈ ps) as Hp by (apply Hsub, elem_of_cons; by left).
    destruct (proj2 (CalculateGrade_returns avg σa p)) as [[σ1 g] Hcg].
    { apply Hfit, elem_of_cons. by left. }
    pose proof Hcg as Hcg'.
    apply CalculateGrade_store in Hcg' as [Hg ->].
    rewrite Hcg. unfold CalculateGrade, GetTokens.
    rewrite <-(Hag p Hp), Hg. simpl.
    destruct (IH (update σa p (set_Grade g)) (update σb p (set_Grade g)))
      as (σa' & σb' & -> & -> & Hag' & Hsame & Hout).
    { by apply agree_on_update. }
    { intros q Hq. apply Hsub, elem_of_cons. by right. }
    { intros q Hq.
      destruct (same_submission_update_Grade σa p g q) as (_ & _ & _ & <- & _).
      apply Hfit, elem_of_cons. by right. }
    exists σa', σb'. split_and!; try done.
    + intros q. split.
      * eapply same_submission_trans; [|apply Hsame].
        apply same_submission_update_Grade.
      * destruct (Hsame q) as [_ ->]. destruct (decide (q = p)) as [->|Hne].
        -- by rewrite update_eq.
        -- by rewrite update_ne.
    + intros q Hq. rewrite not_elem_of_cons in Hq. destruct Hq as [Hne Hq].
      rewrite (Hout q Hq). by rewrite update_ne.
Qed.

Lemma grade_pass_agree i σa σb top :
  agree_on top σa σb → Forall (fits AllAssets σa) top →
  ∃ σa' σb' top',
    grade_pass AllAssets i σa top = Returns (σa', top')
    ∧ grade_pass AllAssets i σb top = Returns (σb', top')
    ∧ top' ≡ₚ top
    ∧ agree_on top σa' σb'
    ∧ (∀ q, same_submission (σa q) (σa' q)
            ∧ Difficulty (σa' q) = Difficulty (σa q))
    ∧ (∀ q, q ∉ top → σa' q = σa q).
Proof.
  intros Hag Hfit. unfold grade_pass.
  assert (take i top ⊆ top) as Hsub.
  { intros q Hq. rewrite <-(take_drop i top). apply elem_of_app. by left. }
  rewrite <-(Avg_ext σa σb) by (eapply agree_on_mono; done).
  destruct (Avg_returns AllAssets σa (take i top)) as (avg & -> & Hlen).
  { apply Forall_forall. intros q Hq. rewrite Forall_forall in Hfit.
    by apply Hfit, Hsub. }
  simpl.
  destruct (grade_all_agree avg σa σb (take i top) top)
    as (σa' & σb' & -> & -> & Hag' & Hsame & Hout); try done.
  { intros q Hq. rewrite Hlen. rewrite Forall_forall in Hfit.
    by apply Hfit, Hsub. }
  simpl. exists σa', σb', (rerank σa' (take i top) ++ drop i top).
  split_and!.
  - done.
  - by rewrite (rerank_ext σa' σb') by (eapply agree_on_mono; done).
  - by rewrite rerank_Permutation, take_drop.
  - done.
  - done.
  - intros q Hq. apply Hout. intros Hin. by apply Hq, Hsub.
Qed.

Lemma narrow_agree i σa σb top :
  agree_on top σa σb → Forall (fits AllAssets σa) top →
  ∃ σa' σb' top',
    narrow AllAssets i σa top = Returns (σa', top')
    ∧ narrow AllAssets i σb top = Returns (σb', top')
    ∧ top' ≡ₚ top
    ∧ agree_on top σa' σb'
    ∧ (∀ q, same_submission (σa q) (σa' q)
            ∧ Difficulty (σa' q) = Difficulty (σa q))
    ∧ (∀ q, q ∉ top → σa' q = σa q).
Proof.
  revert σa σb top. induction i as [|i IH]; intros σa σb top Hag Hfit.
  - exists σa, σb, top. repeat split; auto using same_submission_refl.
  - cbn [narrow]. destruct (decide (10 ≤ S i)%nat) as [Hi|Hi].
    + destruct (grade_pass_agree (S i) σa σb top Hag Hfit)
        as (σ1 & σ2 & top1 & -> & -> & Hperm & Hag1 & Hsame1 & Hout1).
      cbn [bind].
      destruct (IH σ1 σ2 top1) as (σa' & σb' & top' & -> & -> & Hperm' & Hag' & Hsame' & Hout').
      { intros q Hq. apply Hag1. by rewrite <-Hperm. }
      { rewrite Hperm. eapply Forall_impl; first done.
        intros q Hq. unfold fits in *.
        destruct (Hsame1 q) as [(_ & _ & _ & <- & _) _]. done. }
      exists σa', σb', top'. split_and!.
      * done.
      * done.
      * by rewrite Hperm'.
      * intros q Hq. apply Hag'. by rewrite Hperm.
      * intros q. split.
        -- eapply same_submission_trans; [apply Hsame1 | apply Hsame'].
        -- destruct (Hsame' q) as [_ ->]. apply Hsame1.
      * intros q Hq. rewrite Hout' by (by rewrite Hperm). by apply Hout1.
    + exists σa, σb, top. repeat split; auto using same_submission_refl.
Qed.
End narrowing.

(** ** The verifier loops *)

Section verifier.
Import Opr.
Variable LXRHash : list byte → list byte.

Lemma honest_checkable σ p :
  checkable LXRHash σ p →
  ∃ d f, ComputeDifficulty LXRHash (σ p) (Nonce (σ p)) = Returns d
         ∧ BigEndian_Uint64 (SelfReportedDifficulty (σ p)) = Returns f
         ∧ honest LXRHash σ p = (f =? d).
Proof.
  intros [Hh Hs]. unfold honest, ComputeDifficulty.
  apply BigEndian_Uint64_returns in Hh as [d ->].
  apply BigEndian_Uint64_returns in Hs as [f ->].
  by exists d, f.
Qed.

Lemma honest_verified σ p :
  honest LXRHash σ p = true → verified LXRHash σ p →
  BigEndian_Uint64 (SelfReportedDifficulty (σ p)) = Returns (Difficulty (σ p)).
Proof.
  unfold honest, verified. intros Hh Hv. rewrite Hv in Hh.
  destruct (BigEndian_Uint64 _) as [f|]; last done.
  apply Z.eqb_eq in Hh. by subst.
Qed.

Lemma verified_update σ p q d :
  ComputeDifficulty LXRHash (σ p) (Nonce (σ p)) = Returns d →
  verified LXRHash σ q → verified LXRHash (update σ p (set_Difficulty d)) q.
Proof.
  intros Hd Hq. unfold verified. destruct (decide (q = p)) as [->|Hne].
  - by rewrite update_eq.
  - by rewrite update_ne.
Qed.

Lemma find_top50_spec σ0 l : ∀ σ top n,
  (∀ p, same_submission (σ0 p) (σ p)) →
  (1 ≤ n)%nat → (length top + n = 50)%nat →
  Forall (checkable LXRHash σ0) (scanned (honest LXRHash σ0) n l) →
  ∃ σ',
    find_top50 LXRHash σ l top
    = Returns (σ', top ++ take n (filter (λ p, honest LXRHash σ0 p) l))
    ∧ (∀ p, same_submission (σ0 p) (σ' p) ∧ Grade (σ' p) = Grade (σ p))
    ∧ (∀ p, verified LXRHash σ p → verified LXRHash σ' p)
    ∧ (∀ p, p ∈ scanned (honest LXRHash σ0) n l → verified LXRHash σ' p)
    ∧ (∀ p, p ∉ scanned (honest LXRHash σ0) n l → σ' p = σ p).
Proof.
  induction l as [|opr l IH]; intros σ top n Hsame Hn Hlen Hchk.
  - exists σ. rewrite filter_nil, take_nil, app_nil_r. simpl.
    split_and!; try done.
    intros p Hp. by apply elem_of_nil in Hp.
  - assert (checkable LXRHash σ0 opr) as Hopr.
    { simpl in Hchk. destruct (honest LXRHash σ0 opr); [destruct n as [|[|n']]|];
        by apply Forall_cons in Hchk as [? _]. }
    pose proof (same_submission_checkable LXRHash σ0 σ opr (Hsame opr) Hopr) as Hopr'.
    destruct (honest_checkable σ opr Hopr') as (d & f & Hd & Hf & Hhon).
    rewrite <-(same_submission_honest LXRHash _ _ σ0 σ opr eq_refl eq_refl (Hsame opr))
      in Hhon.
    cbn [find_top50]. rewrite Hd. cbn [bind].
    rewrite update_eq. cbn [set_Difficulty SelfReportedDifficulty Difficulty].
    rewrite Hf. cbn [bind].
    set (σ1 := update σ opr (set_Difficulty d)).
    assert (∀ p, same_submission (σ0 p) (σ1 p)) as Hsame1.
    { intros p. eapply same_submission_trans; first apply Hsame.
      apply same_submission_update_Difficulty. }
    assert (∀ p, Grade (σ1 p) = Grade (σ p)) as Hgrade1.
    { intros p. unfold σ1. destruct (decide (p = opr)) as [->|Hne].
      - by rewrite update_eq.
      - by rewrite update_ne. }
    assert (verified LXRHash σ1 opr) as Hv1.
    { unfold verified, σ1. rewrite update_eq. exact Hd. }
    assert (∀ p, verified LXRHash σ p → verified LXRHash σ1 p) as Hpres1.
    { intros p. by apply verified_update. }
    simpl in Hchk. rewrite filter_cons. simpl. rewrite Hhon in *.
    destruct (f =? d) eqn:Hfd; simpl.
    + (* honest *)
      destruct (decide (length (top ++ [opr]) = 50%nat)) as [H50|H50].
      * rewrite length_app in H50. simpl in H50.
        assert (n = 1%nat) as -> by lia.
        exists σ1. simpl. rewrite take_0. split_and!; try done.
        -- intros p Hp. apply list_elem_of_singleton in Hp as ->. done.
        -- intros p Hp. apply not_elem_of_cons in Hp as [Hne _].
           unfold σ1. by rewrite update_ne.
      * rewrite length_app in H50. simpl in H50.
        destruct n as [|[|n']]; [lia | lia |].
        apply Forall_cons in Hchk as [_ Hchk].
        destruct (IH σ1 (top ++ [opr]) (S n')) as (σ' & -> & Hs' & Hp' & Hsc' & Hout');
          [done | lia | rewrite length_app; simpl; lia | done |].
        exists σ'. split_and!.
        -- simpl. by rewrite <-app_assoc.
        -- intros p. destruct (Hs' p) as [? ->]. done.
        -- intros p Hp. by apply Hp', Hpres1.
        -- intros p [->|Hp]%elem_of_cons; [by apply Hp' | by apply Hsc'].
        -- intros p [Hne Hp]%not_elem_of_cons. rewrite (Hout' p Hp).
           unfold σ1. by rewrite update_ne.
    + (* the claim does not match *)
      apply Forall_cons in Hchk as [_ Hchk].
      destruct (IH σ1 top n) as (σ' & -> & Hs' & Hp' & Hsc' & Hout'); try done.
      exists σ'. split_and!.
      * done.
      * intros p. destruct (Hs' p) as [? ->]. done.
      * intros p Hp. by apply Hp', Hpres1.
      * intros p [->|Hp]%elem_of_cons; [by apply Hp' | by apply Hsc'].
      * intros p [Hne Hp]%not_elem_of_cons. rewrite (Hout' p Hp).
        unfold σ1. by rewrite update_ne.
Qed.
End verifier.

Section grader_verifier.
Import Grader.
Variable Hash : list byte → list byte.

Lemma less_never oi oj : less oi oj = false.
Proof. unfold less. rewrite Z.gtb_ltb. apply Z.ltb_irrefl. Qed.

Lemma sortByDifficulty_sort l : SliceStable less l = l.
Proof. apply SliceStable_never. intros a b _. apply less_never. Qed.

Lemma find_topX_spec limit l : ∀ topX,
  Forall (checkableG Hash)
    (scanned (honestG Hash) (remaining limit (length topX)) l) →
  find_topX Hash limit l topX
  = Returns (topX ++ take (remaining limit (length topX))
                       (filter (λ o, honestG Hash o) l)).
Proof.
  induction l as [|o l IH]; intros topX Hchk.
  - by rewrite filter_nil, take_nil, app_nil_r.
  - assert (checkableG Hash o) as Ho.
    { simpl in Hchk.
      destruct (honestG Hash o); [destruct (remaining _ _) as [|[|n']]|];
        by apply Forall_cons in Hchk as [? _]. }
    apply BigEndian_Uint64_returns in Ho as [diff Hdiff].
    assert (honestG Hash o = (diff =? SelfReportedDifficulty o)) as Hhon.
    { unfold honestG. by rewrite Hdiff. }
    cbn [find_topX]. rewrite Hdiff. cbn [bind].
    simpl in Hchk. rewrite filter_cons. rewrite Hhon in *.
    destruct (diff =? SelfReportedDifficulty o) eqn:Hd; simpl.
    + destruct (decide (limit ≤ Z.of_nat (length (topX ++ [o])))) as [Hl|Hl];
        rewrite length_app in Hl; simpl in Hl.
      * assert (remaining limit (length topX) = 1%nat) as ->.
        { unfold remaining. lia. }
        done.
      * assert (remaining limit (length topX)
                = S (remaining limit (length (topX ++ [o])))) as Hrem.
        { unfold remaining. rewrite length_app. simpl. lia. }
        assert (1 ≤ remaining limit (length (topX ++ [o])))%nat as Hpos.
        { unfold remaining. lia. }
        rewrite Hrem in *.
        destruct (remaining limit (length (topX ++ [o]))) as [|n'] eqn:Hn';
          first lia.
        apply Forall_cons in Hchk as [_ Hchk].
        rewrite IH by (by rewrite Hn').
        by rewrite Hn', <-app_assoc.
    + apply Forall_cons in Hchk as [_ Hchk]. by apply IH.
Qed.

(** The sort of [sortByDifficulty] changes nothing: the records are
    examined in the order they are held. *)
Lemma sortByDifficulty_unsorted limit bg :
  sortByDifficulty Hash limit bg
  = (topX <- find_topX Hash limit (oprs bg) []; Returns (set_oprs topX bg)).
Proof. unfold sortByDifficulty. by rewrite sortByDifficulty_sort. Qed.
End grader_verifier.

(** ** The order of [float64] comparisons *)

Lemma SFeqb_irrefl_nan s : SFeqb s s = false → s = S754_nan.
Proof.
  destruct s as [b|b| |b m e]; unfold SFeqb; simpl; try congruence.
  - destruct b; congruence.
  - destruct b; rewrite Z.compare_refl;
      change (Pos.compare_cont Eq m m) with (Pos.compare m m);
      rewrite Pos.compare_refl; simpl; congruence.
Qed.

Ltac compare_cases :=
  repeat match goal with
  | |- context [Z.compare ?a ?b] => destruct (Z.compare_spec a b)
  | |- context [Pos.compare ?a ?b] => destruct (Pos.compare_spec a b)
  | H : context [Z.compare ?a ?b] |- _ => destruct (Z.compare_spec a b)
  | H : context [Pos.compare ?a ?b] |- _ => destruct (Pos.compare_spec a b)
  end.

Lemma SFltb_asym a b : SFltb a b = true → SFltb b a = false.
Proof.
  unfold SFltb.
  destruct a as [sa|sa| |sa ma ea], b as [sb|sb| |sb mb eb]; simpl;
    repeat match goal with s : bool |- _ => destruct s end; simpl;
    try congruence;
    change (Pos.compare_cont Eq ?x ?y) with (Pos.compare x y);
    intros H; compare_cases; simpl in *; subst; try congruence; try lia.
Qed.

Lemma SFltb_ntrans a b c :
  a ≠ S754_nan → b ≠ S754_nan → c ≠ S754_nan →
  SFltb a b = false → SFltb b c = false → SFltb a c = false.
Proof.
  unfold SFltb.
  destruct a as [sa|sa| |sa ma ea], b as [sb|sb| |sb mb eb],
           c as [sc|sc| |sc mc ec];
    simpl; try congruence;
    repeat match goal with s : bool |- _ => destruct s end; simpl;
    try congruence;
    change (Pos.compare_cont Eq ?x ?y) with (Pos.compare x y);
    intros _ _ _ H1 H2; compare_cases; simpl in *; subst; try congruence;
    try lia.
Qed.

Lemma is_nan_Prim2SF x : is_nan x = true ↔ Prim2SF x = S754_nan.
Proof.
  unfold is_nan. rewrite FloatAxioms.eqb_spec. split.
  - intros H. apply SFeqb_irrefl_nan. by destruct (SFeqb _ _).
  - by intros ->.
Qed.

Lemma ltb_asym (x y : float) : (x <? y)%float = true → (y <? x)%float = false.
Proof. rewrite !FloatAxioms.ltb_spec. apply SFltb_asym. Qed.

Lemma ltb_ntrans (x y z : float) :
  is_nan x = false → is_nan y = false → is_nan z = false →
  (x <? y)%float = false → (y <? z)%float = false → (x <? z)%float = false.
Proof.
  intros Hx Hy Hz. rewrite !FloatAxioms.ltb_spec.
  apply SFltb_ntrans; intros Hn%is_nan_Prim2SF; congruence.
Qed.

Lemma ltb_nan_l (x y : float) : is_nan x = true → (x <? y)%float = false.
Proof. intros Hx%is_nan_Prim2SF. by rewrite FloatAxioms.ltb_spec, Hx. Qed.

(** ** The two sorts of a pass *)

Section reranking.
Import Opr.

Lemma rerank_sorted σ prefix :
  comparable_grades σ prefix →
  StronglySorted (ranked_before σ) (rerank σ prefix).
Proof.
  intros Hcmp. unfold rerank.
  set (byDifficulty := SliceStable (λ a b, Difficulty (σ b) <? Difficulty (σ a)) prefix).
  assert (StronglySorted (λ a b, Difficulty (σ b) ≤ Difficulty (σ a)) byDifficulty)
    as Hfirst.
  { eapply StronglySorted_impl; last first.
    - apply (SliceStable_sorted _ (λ _ _, True) (λ _, True)).
      + intros a b _ _ Hab. apply Z.ltb_lt in Hab. apply Z.ltb_ge. lia.
      + intros a b c _ _ _ Hab Hbc. apply Z.ltb_ge in Hab, Hbc.
        apply Z.ltb_ge. lia.
      + by apply Forall_forall.
      + apply StronglySorted_True.
    - intros a b _ _ [Hba _]. simpl in Hba. by apply Z.ltb_ge in Hba. }
  assert (byDifficulty ≡ₚ prefix) as Hperm by apply SliceStable_Permutation.
  destruct Hcmp as [Hnum|Hnan]; rewrite <-Hperm in *.
  - eapply StronglySorted_impl; last first.
    + apply (SliceStable_sorted _ (λ a b, Difficulty (σ b) ≤ Difficulty (σ a))
               (λ p, is_nan (Grade (σ p)) = false)); try done.
      * intros a b _ _. apply ltb_asym.
      * intros a b c Ha Hb Hc. by apply ltb_ntrans.
    + by intros a b _ _ H.
  - rewrite SliceStable_never.
    + eapply StronglySorted_impl; last done.
      intros a b Ha Hb Hab. rewrite Forall_forall in Hnan. split.
      * apply ltb_nan_l. by apply Hnan.
      * by right.
    + intros a b Ha. rewrite Forall_forall in Hnan.
      apply ltb_nan_l. by apply Hnan.
Qed.
End reranking.

(** ** Winner references *)

Section winner_references.
Import Opr.

Lemma VerifyWinners_from_nil σ refs i :
  VerifyWinners_from σ refs i None
  = Returns (bool_decide (Forall (λ w, w = ""%string) refs)).
Proof.
  revert i. induction refs as [|w refs IH]; intros i; cbn [VerifyWinners_from].
  - by rewrite bool_decide_eq_true_2.
  - rewrite bool_decide_eq_true_2 by done.
    destruct (String.eqb_spec w "") as [->|Hne]; cbn [negb andb].
    + rewrite bool_decide_eq_false_2 by (simpl; lia).
      rewrite IH. f_equal. apply bool_decide_ext.
      rewrite Forall_cons. tauto.
    + rewrite bool_decide_eq_false_2; first done.
      intros [? _]%Forall_cons. done.
Qed.

Lemma VerifyWinners_from_some σ ws : ∀ refs i,
  ws ≠ [] → (i + length refs ≤ length ws)%nat →
  Forall (λ w, 8 ≤ length (EntryHash (σ w)))%nat
    (take (length refs) (drop i ws)) →
  VerifyWinners_from σ refs i (Some ws)
  = Returns (bool_decide
               (refs = short_hash σ <$> take (length refs) (drop i ws))).
Proof.
  induction refs as [|w refs IH]; intros i Hne Hlen Hhash;
    cbn [VerifyWinners_from].
  - by rewrite bool_decide_eq_true_2.
  - rewrite bool_decide_eq_false_2 by done.
    cbn [andb]. rewrite bool_decide_eq_true_2
      by (destruct ws; simpl; [done | lia]).
    simpl in Hlen. destruct (lookup_lt_is_Some_2 ws i) as [wi Hwi]; first lia.
    change (elems (Some ws)) with ws. rewrite Hwi.
    rewrite (drop_S _ _ _ Hwi) in *. cbn [length take] in *.
    apply Forall_cons in Hhash as [Hwi8 Hhash].
    unfold slice_to. rewrite decide_False by lia. cbn [bind].
    fold (short_hash σ wi).
    destruct (String.eqb_spec w (short_hash σ wi)) as [->|Hw]; cbn [negb].
    + rewrite IH; [|done|lia|done]. f_equal. apply bool_decide_ext.
      rewrite fmap_cons. split; [by intros <- | by intros [= <-]].
    + rewrite bool_decide_eq_false_2; first done.
      rewrite fmap_cons. by intros [= ? _].
Qed.
End winner_references.

(** ** [GradeMinimum] as a whole *)

Section grade_minimum.
Import Opr.
Variable LXRHash : list byte → list byte.
Variable AllAssets : list string.

Lemma first_occurrences_keys {A} (id : A → list byte) l k :
  k ∈ id <$> first_occurrences id l ↔ k ∈ id <$> l.
Proof.
  split.
  - intros (x & -> & Hx)%list_elem_of_fmap. apply list_elem_of_fmap_2.
    eapply elem_of_sublist; [done | apply first_occurrences_from_sublist].
  - intros (x & -> & Hx)%list_elem_of_fmap.
    destruct (first_occurrences_from_covers id [] l x Hx) as [Hin|Hin];
      last done.
    by apply elem_of_nil in Hin.
Qed.

Lemma first_occurrences_length_Permutation {A} (id : A → list byte) l l' :
  l ≡ₚ l' →
  length (first_occurrences id l) = length (first_occurrences id l').
Proof.
  intros Hperm.
  rewrite <-(length_fmap id (first_occurrences id l)),
          <-(length_fmap id (first_occurrences id l')).
  apply Permutation_length, NoDup_Permutation.
  - apply first_occurrences_from_NoDup.
  - apply first_occurrences_from_NoDup.
  - intros k. rewrite !first_occurrences_keys. by rewrite Hperm.
Qed.

Lemma RemoveDuplicateSubmissions_spec σ l :
  RemoveDuplicateSubmissions σ l = first_occurrences (identity σ) l.
Proof. apply filter_added_spec. Qed.

Lemma record_eq r r' :
  same_submission r r' → Difficulty r = Difficulty r' → Grade r = Grade r' →
  r = r'.
Proof.
  destruct r, r'. unfold same_submission. simpl.
  intros (-> & -> & -> & -> & -> & ->) -> ->. done.
Qed.

Lemma verified_same σ σ' p :
  same_submission (σ p) (σ' p) → Difficulty (σ' p) = Difficulty (σ p) →
  verified LXRHash σ p → verified LXRHash σ' p.
Proof.
  intros (HN & HO & _) HD. unfold verified, ComputeDifficulty.
  by rewrite HN, HO, HD.
Qed.

Lemma verified_Difficulty σ σ' p :
  same_submission (σ p) (σ' p) →
  verified LXRHash σ p → verified LXRHash σ' p →
  Difficulty (σ p) = Difficulty (σ' p).
Proof.
  intros (HN & HO & _). unfold verified, ComputeDifficulty.
  rewrite HN, HO. intros -> [=]. done.
Qed.

Lemma scanned_subseteq {A} (h : A → bool) n l : scanned h n l ⊆ l.
Proof.
  revert n. induction l as [|x l IH]; intros n; simpl; first done.
  destruct (h x); [destruct n as [|[|n']]|].
  - set_solver.
  - set_solver.
  - specialize (IH (S n')). set_solver.
  - specialize (IH n). set_solver.
Qed.

Lemma take_filter_scanned {A} (h : A → bool) n l x :
  x ∈ take n (filter (λ y, h y) l) → x ∈ scanned h n l.
Proof.
  revert n. induction l as [|y l IH]; intros n Hx.
  - rewrite filter_nil, take_nil in Hx. by apply elem_of_nil in Hx.
  - rewrite filter_cons in Hx. simpl. destruct (h y) eqn:Hy.
    + rewrite decide_True in Hx by done.
      destruct n as [|[|n']].
      * by apply elem_of_nil in Hx.
      * simpl in Hx. by rewrite take_0 in Hx.
      * simpl in Hx. apply elem_of_cons in Hx as [->|Hx]; first by left.
        right. by apply IH.
    + rewrite decide_False in Hx by (by intros []).
      right. by apply IH.
Qed.

(** When at least 10 distinct identity keys are submitted, the records
    examined can be checked and the honest ones fit the registry,
    [GradeMinimum] returns the first 50 honest entries, reordered. *)
Lemma GradeMinimum_runs σ l :
  (10 ≤ length (RemoveDuplicateSubmissions σ l))%nat →
  Forall (checkable LXRHash σ) (scanned (honest LXRHash σ) 50 l) →
  Forall (fits AllAssets σ) (take 50 (filter (λ p, honest LXRHash σ p) l)) →
  ∃ σ' graded,
    GradeMinimum LXRHash AllAssets σ l = Returns (σ', Some graded)
    ∧ graded ≡ₚ take 50 (filter (λ p, honest LXRHash σ p) l)
    ∧ (∀ p, same_submission (σ p) (σ' p))
    ∧ (∀ p, p ∈ graded → verified LXRHash σ' p).
Proof.
  intros Hten Hchk Hfit. unfold GradeMinimum.
  rewrite decide_False by lia.
  destruct (find_top50_spec LXRHash σ l σ [] 50)
    as (σ1 & -> & Hsame1 & _ & Hver1 & _);
    [auto using same_submission_refl | lia | done | done |].
  cbn [bind app].
  set (top := take 50 (filter (λ p, honest LXRHash σ p) l)) in *.
  destruct (narrow_agree AllAssets (length top) σ1 σ1 top)
    as (σ' & _ & graded & -> & _ & Hperm & _ & Hsame' & _).
  { apply agree_on_refl. }
  { eapply Forall_impl; first done. intros p Hp. unfold fits in *.
    destruct (Hsame1 p) as [(_ & _ & _ & <- & _) _]. done. }
  cbn [bind]. exists σ', graded. split_and!; try done.
  - intros p. eapply same_submission_trans; [apply Hsame1 | apply Hsame'].
  - intros p Hp. rewrite Hperm in Hp.
    destruct (Hsame' p) as [Hs Hd]. apply (verified_same σ1); try done.
    apply Hver1. by apply take_filter_scanned.
Qed.
End grade_minimum.

(** * The claims *)

(** ** Deduplication *)


(** ** Construction of a grader *)

(** C8, as the specification states it, fails: for a version other than 1
    and 2 [NewGrader] has no failure value to return and panics. *)
Lemma NewGrader_unknown_version_panics :
  ¬ (∀ version height previousWinners,
       version ≠ 1 → version ≠ 2 →
       returns (Grader.NewGrader version height previousWinners)).
Proof.
  intros Hclaim. destruct (Hclaim 3 7 []) as [b Hb]; [done | done |].
  vm_compute in Hb. discriminate.
Qed.

(** C8 (amended).  For version 1 or 2 [NewGrader] returns a grader that
    holds no record and carries exactly the given height and list of
    previous winners; for every other version it panics with
    "invalid grader version" at construction. *)
Theorem NewGrader_versions (version height : Z) (previousWinners : list string) :
  (version = 1 ∨ version = 2 →
     ∃ b, Grader.NewGrader version height previousWinners = Returns b
          ∧ Grader.Height (Grader.base b) = height
          ∧ Grader.GetPreviousWinners (Grader.base b) = previousWinners
          ∧ Grader.Count (Grader.base b) = 0%nat)
  ∧ (version ≠ 1 → version ≠ 2 →
       Grader.NewGrader version height previousWinners
       = Panics "invalid grader version").
Proof.
  unfold Grader.NewGrader. split.
  - intros [-> | ->]; simpl; eexists; by split_and!.
  - intros H1 H2. by rewrite !decide_False.
Qed.

Lemma NewGrader_versions_witness :
  (∃ b, Grader.NewGrader 2 7 ["a1"%string] = Returns b
        ∧ Grader.Height (Grader.base b) = 7
        ∧ Grader.GetPreviousWinners (Grader.base b) = ["a1"%string]
        ∧ Grader.Count (Grader.base b) = 0%nat)
  ∧ Grader.NewGrader 3 7 ["a1"%string] = Panics "invalid grader version".
Proof.
  split.
  - apply (NewGrader_versions 2 7 ["a1"%string]). by right.
  - by apply (NewGrader_versions 3 7 ["a1"%string]).
Defined.

(** ** The sort before verification *)

(** C6.  The comparison that [sortByDifficulty] hands to the sort reads the
    same record on both sides, so the sort moves nothing: two honest
    records held in ascending order of claimed difficulty stay in that
    order, and with [limit = 1] the one claiming less is the one kept. *)
Theorem sortByDifficulty_keeps_held_order :
  Grader.SelfReportedDifficulty (Samples.gopr 1)
  < Grader.SelfReportedDifficulty (Samples.gopr 2)
  ∧ SliceStable Grader.less [Samples.gopr 1; Samples.gopr 2]
    = [Samples.gopr 1; Samples.gopr 2]
  ∧ Grader.sortByDifficulty Samples.toyHash 1
      (Samples.grader_with [Samples.gopr 1; Samples.gopr 2])
    = Returns (Samples.grader_with [Samples.gopr 1]).
Proof. split_and!; by vm_compute. Qed.

(** ** Winner references *)

(** C7, as the specification states it, fails on three counts: a candidate
    with more references than there are winners makes [VerifyWinners]
    panic; a candidate with fewer references, all matching, passes; and
    with a winners slice that is empty but not nil any references pass. *)
Lemma VerifyWinners_length_mismatch :
  Opr.VerifyWinners Samples.winners_store 32%N (Some [20; 21; 22]%N)
  = Panics "index out of range"
  ∧ Opr.VerifyWinners Samples.winners_store 31%N (Some [20; 21; 22]%N)
    = Returns true
  ∧ Opr.VerifyWinners Samples.winners_store 30%N (Some []) = Returns true.
Proof. split_and!; by vm_compute. Qed.

(** C7 (amended).  With a nil winners slice [VerifyWinners] returns true iff
    every reference is the empty string.  With a non-empty winners slice, a
    candidate with no more references than there are winners, and entry
    hashes of at least 8 bytes, it returns true iff every reference equals
    the short hash of the winner at its position; winners beyond the last
    reference are not looked at. *)
Theorem VerifyWinners_contract (σ : Opr.store) (opr : Opr.ptr)
    (winners : slice Opr.ptr) :
  (winners = None →
     Opr.VerifyWinners σ opr winners
     = Returns (bool_decide
                  (Forall (λ w, w = ""%string) (Opr.WinPreviousOPR (σ opr)))))
  ∧ (∀ ws, winners = Some ws → ws ≠ [] →
       (length (Opr.WinPreviousOPR (σ opr)) ≤ length ws)%nat →
       Forall (λ w, 8 ≤ length (Opr.EntryHash (σ w)))%nat
         (take (length (Opr.WinPreviousOPR (σ opr))) ws) →
       Opr.VerifyWinners σ opr winners
       = Returns (bool_decide
                    (Opr.WinPreviousOPR (σ opr)
                     = short_hash σ
                         <$> take (length (Opr.WinPreviousOPR (σ opr))) ws))).
Proof.
  unfold Opr.VerifyWinners. split.
  - intros ->. apply VerifyWinners_from_nil.
  - intros ws -> Hne Hlen Hhash.
    by rewrite VerifyWinners_from_some.
Qed.

Lemma VerifyWinners_contract_witness :
  Opr.VerifyWinners Samples.winners_store 33%N None = Returns true
  ∧ Opr.VerifyWinners Samples.winners_store 30%N None = Returns false
  ∧ Opr.VerifyWinners Samples.winners_store 30%N (Some [20; 21; 22]%N)
    = Returns true
  ∧ Opr.VerifyWinners Samples.winners_store 34%N (Some [20; 21; 22]%N)
    = Returns false.
Proof.
  split_and!.
  - by rewrite (proj1 (VerifyWinners_contract Samples.winners_store 33%N None)).
  - by rewrite (proj1 (VerifyWinners_contract Samples.winners_store 30%N None)).
  - rewrite (proj2 (VerifyWinners_contract Samples.winners_store 30%N
                      (Some [20; 21; 22]%N)) [20; 21; 22]%N);
      [done | done | done | simpl; lia | repeat constructor; simpl; lia].
  - rewrite (proj2 (VerifyWinners_contract Samples.winners_store 34%N
                      (Some [20; 21; 22]%N)) [20; 21; 22]%N);
      [done | done | done | simpl; lia | repeat constructor; simpl; lia].
Defined.

(** ** Price vectors and the asset registry *)

(** C9, as the specification states it, fails: nothing excludes a record for
    the length of its price vector.  With one asset registered and one
    record of ten carrying two prices, [GradeMinimum] panics on the index;
    with two assets registered and one record carrying a single price, that
    record is graded on the slot it has and is ranked first. *)
Lemma GradeMinimum_mismatched_prices :
  ranking (Opr.GradeMinimum Samples.toyHash Samples.one_asset Samples.one_long
             (Samples.ptrs 0 10))
  = Panics "index out of range"
  ∧ ranking (Opr.GradeMinimum Samples.toyHash Samples.two_assets
               Samples.one_short (Samples.ptrs 0 10))
    = Returns (Some [3; 9; 8; 7; 6; 5; 4; 2; 1; 0]%N).
Proof. split; by vm_compute. Qed.

(** C9 (amended).  [Avg] and [CalculateGrade] index the average array at
    every slot of every price vector they are given: [Avg] returns exactly
    when no record of the set has more prices than there are registered
    assets, [CalculateGrade] exactly when the record has no more prices than
    the average array has entries, and they panic otherwise.  No record is
    left out for the length of its price vector: when the records can be
    checked and none has more prices than the registry, [GradeMinimum]
    returns the first 50 honest entries, reordered. *)
Theorem grading_reads_every_price (LXRHash : list byte → list byte)
    (AllAssets : list string) (σ : Opr.store) (l : list Opr.ptr) :
  (returns (Opr.Avg AllAssets σ l) ↔ Forall (fits AllAssets σ) l)
  ∧ (∀ avg p, returns (Opr.CalculateGrade avg σ p)
              ↔ (length (Opr.Tokens (σ p)) ≤ length avg)%nat)
  ∧ ((10 ≤ length (Opr.RemoveDuplicateSubmissions σ l))%nat →
     Forall (checkable LXRHash σ) l → Forall (fits AllAssets σ) l →
     ∃ σ' graded,
       Opr.GradeMinimum LXRHash AllAssets σ l = Returns (σ', Some graded)
       ∧ graded ≡ₚ take 50 (filter (λ p, honest LXRHash σ p) l)).
Proof.
  split_and!.
  - split.
    + intros Hret. destruct (decide (Forall (fits AllAssets σ) l)) as [|Hno];
        first done.
      rewrite Avg_panics in Hret by done. by apply not_returns_Panics in Hret.
    + intros Hfit. destruct (Avg_returns AllAssets σ l Hfit) as (avg & -> & _).
      apply returns_Returns.
  - intros avg p. apply CalculateGrade_returns.
  - intros Hten Hchk Hfit.
    destruct (GradeMinimum_runs LXRHash AllAssets σ l) as (σ' & graded & ? & ? & _).
    + done.
    + eapply Forall_forall. intros p Hp%scanned_subseteq.
      rewrite Forall_forall in Hchk. by apply Hchk.
    + eapply Forall_forall. intros p Hp.
      rewrite Forall_forall in Hfit. apply Hfit.
      apply (list_elem_of_filter (λ p, honest LXRHash σ p) l p).
      rewrite <-(take_drop 50 (filter _ l)). apply elem_of_app. by left.
    + by exists σ', graded.
Qed.

Lemma grading_reads_every_price_witness :
  returns (Opr.Avg Samples.two_assets Samples.one_short (Samples.ptrs 0 10))
  ∧ ¬ returns (Opr.Avg Samples.one_asset Samples.one_long (Samples.ptrs 0 10))
  ∧ ∃ σ' graded,
      Opr.GradeMinimum Samples.toyHash Samples.two_assets Samples.one_short
        (Samples.ptrs 0 10) = Returns (σ', Some graded)
      ∧ graded ≡ₚ take 50 (filter (λ p, honest Samples.toyHash Samples.one_short p)
                             (Samples.ptrs 0 10)).
Proof.
  pose proof (grading_reads_every_price Samples.toyHash Samples.two_assets
                Samples.one_short (Samples.ptrs 0 10)) as (Havg & _ & Hrun).
  pose proof (grading_reads_every_price Samples.toyHash Samples.one_asset
                Samples.one_long (Samples.ptrs 0 10)) as (Havg' & _ & _).
  split_and!.
  - apply Havg. apply (bool_decide_unpack _). by vm_compute.
  - intros Hfit%Havg'. revert Hfit. apply (bool_decide_unpack _). by vm_compute.
  - apply Hrun.
    + vm_compute. lia.
    + apply (bool_decide_unpack _). by vm_compute.
    + apply (bool_decide_unpack _). by vm_compute.
Defined.

(** ** The difficulty verifier *)

(** C4.  For a limit of at least 1, [sortByDifficulty] recomputes, for each
    record it examines, the first 8 bytes of the hash of
    [record_hash ++ nonce] as a big-endian unsigned 64-bit integer, compares
    it with the claimed difficulty, and keeps exactly the first [limit]
    records for which the two are equal (all of them when there are fewer),
    in the order it meets them; it stops at the [limit]-th, so a record past
    it is not examined and only the examined ones need a hash of 8 bytes.
    The loop of [GradeMinimum] does the same with the limit 50, and sets
    [Difficulty] of every record it examines, and of no other, to the
    recomputed value. *)
Theorem verifier_contract (Hash : list byte → list byte) (limit : Z)
    (bg : Grader.baseGrader) (σ : Opr.store) (l : list Opr.ptr) :
  (1 ≤ limit →
   Forall (checkableG Hash)
     (scanned (honestG Hash) (Z.to_nat limit) (Grader.oprs bg)) →
   Grader.sortByDifficulty Hash limit bg
   = Returns (Grader.set_oprs
                (take (Z.to_nat limit)
                   (filter (λ o, honestG Hash o) (Grader.oprs bg))) bg))
  ∧ (Forall (checkable Hash σ) (scanned (honest Hash σ) 50 l) →
     ∃ σ',
       Opr.find_top50 Hash σ l []
       = Returns (σ', take 50 (filter (λ p, honest Hash σ p) l))
       ∧ (∀ p, p ∈ scanned (honest Hash σ) 50 l → verified Hash σ' p)
       ∧ (∀ p, p ∉ scanned (honest Hash σ) 50 l → σ' p = σ p)
       ∧ (∀ p, same_submission (σ p) (σ' p)
               ∧ Opr.Grade (σ' p) = Opr.Grade (σ p))).
Proof.
  split.
  - intros Hlimit Hchk. rewrite sortByDifficulty_unsorted.
    assert (remaining limit (length (@nil Grader.GradingOPR))
            = Z.to_nat limit) as Hrem.
    { unfold remaining. simpl. f_equal. lia. }
    rewrite find_topX_spec by (by rewrite Hrem). by rewrite Hrem.
  - intros Hchk.
    destruct (find_top50_spec Hash σ l σ [] 50)
      as (σ' & Hrun & Hsame & _ & Hver & Hout);
      [auto using same_submission_refl | lia | done | done |].
    by exists σ'.
Qed.

Lemma verifier_contract_witness :
  Grader.sortByDifficulty Samples.toyHash 2
    (Samples.grader_with [Samples.gopr 1; Samples.gopr 2; Samples.gopr 3])
  = Returns (Samples.grader_with [Samples.gopr 1; Samples.gopr 2])
  ∧ ∃ σ',
      Opr.find_top50 Samples.toyHash Samples.one_cheater (Samples.ptrs 0 11) []
      = Returns (σ', [0; 1; 2; 3; 4; 5; 6; 7; 8; 10]%N)
      ∧ verified Samples.toyHash σ' 9%N.
Proof.
  split.
  - rewrite (proj1 (verifier_contract Samples.toyHash 2
                      (Samples.grader_with
                         [Samples.gopr 1; Samples.gopr 2; Samples.gopr 3])
                      Samples.one_cheater [])).
    + by vm_compute.
    + lia.
    + apply (bool_decide_unpack _). by vm_compute.
  - destruct (proj2 (verifier_contract Samples.toyHash 2
                       (Samples.grader_with []) Samples.one_cheater (Samples.ptrs 0 11)))
      as (σ' & Hrun & Hver & _).
    { apply (bool_decide_unpack _). by vm_compute. }
    exists σ'. split.
    + rewrite Hrun.
      match goal with
      | |- Returns (_, ?x) = _ =>
          assert (x = [0; 1; 2; 3; 4; 5; 6; 7; 8; 10]%N) as ->
            by (vm_compute; reflexivity)
      end.
      done.
    + apply Hver.
      match goal with
      | |- _ ∈ ?x => assert (x = Samples.ptrs 0 11) as -> by (vm_compute; reflexivity)
      end.
      apply (bool_decide_unpack _). by vm_compute.
Defined.

(** ** The quorum *)

(** C2, as the specification states it, fails: of ten distinct submissions,
    given in descending order of claimed difficulty, the first overclaims,
    so nine honest records remain, and [GradeMinimum] returns those nine,
    ungraded and in input order, not an empty result. *)
Lemma GradeMinimum_nine_honest :
  ranking (Opr.GradeMinimum Samples.toyHash Samples.one_asset
             Samples.one_cheater (reverse (Samples.ptrs 0 10)))
  = Returns (Some [8; 7; 6; 5; 4; 3; 2; 1; 0]%N).
Proof. by vm_compute. Qed.

(** C2 (amended).  With fewer than 10 distinct identity keys in its input
    [GradeMinimum] returns nil and leaves the store as it was.  On an input
    of 10 or more records without duplicate keys, each with a hash and a
    claimed difficulty of at least 8 bytes: when fewer than 10 records are
    honest it returns a non-nil list holding exactly the honest records, in
    input order and fewer than 10, and every record keeps the grade it came
    with; when at least 10 are honest and no record has more prices than the
    registry has assets, it returns the first 50 honest records, reordered,
    so exactly 10 honest records give exactly 10 winners. *)
Theorem GradeMinimum_quorum (LXRHash : list byte → list byte)
    (AllAssets : list string) (σ : Opr.store) (l : list Opr.ptr) :
  ((length (Opr.RemoveDuplicateSubmissions σ l) < 10)%nat →
     Opr.GradeMinimum LXRHash AllAssets σ l = Returns (σ, None))
  ∧ (NoDup (Opr.identity σ <$> l) → (10 ≤ length l)%nat →
     Forall (checkable LXRHash σ) l →
     ((length (filter (λ p, honest LXRHash σ p) l) < 10)%nat →
      ∃ σ',
        Opr.GradeMinimum LXRHash AllAssets σ l
        = Returns (σ', Some (filter (λ p, honest LXRHash σ p) l))
        ∧ ∀ p, Opr.Grade (σ' p) = Opr.Grade (σ p))
     ∧ ((10 ≤ length (filter (λ p, honest LXRHash σ p) l))%nat →
        Forall (fits AllAssets σ) l →
        ∃ σ' graded,
          Opr.GradeMinimum LXRHash AllAssets σ l = Returns (σ', Some graded)
          ∧ graded ≡ₚ take 50 (filter (λ p, honest LXRHash σ p) l)
          ∧ length graded
            = (50 `min` length (filter (λ p, honest LXRHash σ p) l))%nat)).
Proof.
  split.
  - intros Hlt. unfold Opr.GradeMinimum. by rewrite decide_True.
  - intros Hnd Hge Hchk.
    assert (Opr.RemoveDuplicateSubmissions σ l = l) as Hdedup.
    { rewrite RemoveDuplicateSubmissions_spec.
      by apply first_occurrences_NoDup_id. }
    assert (Forall (checkable LXRHash σ) (scanned (honest LXRHash σ) 50 l))
      as Hscan.
    { eapply Forall_forall. intros p Hp%scanned_subseteq.
      rewrite Forall_forall in Hchk. by apply Hchk. }
    split.
    + intros Hfew.
      destruct (find_top50_spec LXRHash σ l σ [] 50)
        as (σ1 & Hfind & Hsame & _);
        [auto using same_submission_refl | lia | done | done |].
      cbn [app] in Hfind. rewrite take_ge in Hfind by lia.
      exists σ1. split; last (intros p; apply Hsame).
      unfold Opr.GradeMinimum. rewrite Hdedup, decide_False by lia.
      rewrite Hfind. cbn [bind].
      destruct (length (filter (λ p, honest LXRHash σ p) l)) as [|n] eqn:Hn;
        first done.
      cbn [Opr.narrow]. by rewrite decide_False by lia.
    + intros Hmany Hfit.
      destruct (GradeMinimum_runs LXRHash AllAssets σ l)
        as (σ' & graded & Hrun & Hperm & _).
      * by rewrite Hdedup.
      * done.
      * eapply Forall_forall. intros p Hp.
        rewrite Forall_forall in Hfit. apply Hfit.
        apply (list_elem_of_filter (λ p, honest LXRHash σ p) l p).
        rewrite <-(take_drop 50 (filter _ l)). apply elem_of_app. by left.
      * exists σ', graded. split_and!; try done.
        by rewrite Hperm, length_take.
Qed.

Lemma GradeMinimum_quorum_witness :
  Opr.GradeMinimum Samples.toyHash Samples.one_asset Samples.one_duplicate
    ([10; 8; 7; 6; 5; 4; 3; 2; 1; 0]%N)
  = Returns (Samples.one_duplicate, None)
  ∧ (∃ σ',
       Opr.GradeMinimum Samples.toyHash Samples.one_asset Samples.one_cheater
         (reverse (Samples.ptrs 0 10))
       = Returns (σ', Some [8; 7; 6; 5; 4; 3; 2; 1; 0]%N)
       ∧ ∀ p, Opr.Grade (σ' p) = Opr.Grade (Samples.one_cheater p))
  ∧ ∃ σ' graded,
      Opr.GradeMinimum Samples.toyHash Samples.one_asset Samples.all_honest
        (reverse (Samples.ptrs 0 10)) = Returns (σ', Some graded)
      ∧ length graded = 10%nat.
Proof.
  split_and!.
  - apply (GradeMinimum_quorum Samples.toyHash Samples.one_asset
             Samples.one_duplicate ([10; 8; 7; 6; 5; 4; 3; 2; 1; 0]%N)).
    vm_compute. lia.
  - destruct (GradeMinimum_quorum Samples.toyHash Samples.one_asset
                Samples.one_cheater (reverse (Samples.ptrs 0 10)))
      as [_ Hkeys].
    destruct Hkeys as [Hfew _].
    + apply (bool_decide_unpack _). by vm_compute.
    + vm_compute. lia.
    + apply (bool_decide_unpack _). by vm_compute.
    + destruct Hfew as (σ' & Hrun & Hgrade); first (vm_compute; lia).
      exists σ'. split; last exact Hgrade.
      etrans; first exact Hrun.
      match goal with
      | |- Returns (_, Some ?x) = _ =>
          assert (x = [8; 7; 6; 5; 4; 3; 2; 1; 0]%N) as ->
            by (vm_compute; reflexivity)
      end.
      done.
  - destruct (GradeMinimum_quorum Samples.toyHash Samples.one_asset
                Samples.all_honest (reverse (Samples.ptrs 0 10)))
      as [_ Hkeys].
    destruct Hkeys as [_ Hmany].
    + apply (bool_decide_unpack _). by vm_compute.
    + vm_compute. lia.
    + apply (bool_decide_unpack _). by vm_compute.
    + destruct Hmany as (σ' & graded & Hrun & _ & Hlen).
      * vm_compute. lia.
      * apply (bool_decide_unpack _). by vm_compute.
      * exists σ', graded. split; first exact Hrun.
        rewrite Hlen.
        match goal with
        | |- (_ `min` length ?x)%nat = _ =>
            assert (x = reverse (Samples.ptrs 0 10)) as ->
              by (vm_compute; reflexivity)
        end.
        by vm_compute.
Defined.

(** ** Well-formedness of the graded list *)

(** C3.  Pointer 10 repeats the nonce and record hash of pointer 0, so the
    input of eleven entries holds ten distinct identity keys; the length
    test passes on the deduplicated list, the honest entries are then
    collected from the input as given, and the returned list holds both
    pointer 0 and pointer 10. *)
Theorem GradeMinimum_keeps_duplicate :
  Opr.identity Samples.one_duplicate 0%N
  = Opr.identity Samples.one_duplicate 10%N
  ∧ Opr.RemoveDuplicateSubmissions Samples.one_duplicate (Samples.ptrs 0 11) = Samples.ptrs 0 10
  ∧ ranking (Opr.GradeMinimum Samples.toyHash Samples.one_asset
               Samples.one_duplicate (Samples.ptrs 0 11))
    = Returns (Some [9; 8; 7; 6; 5; 4; 3; 2; 1; 0; 10]%N).
Proof. split_and!; by vm_compute. Qed.

(** ** The ranking of a pass *)

(** C5, as the specification states it, fails.  Ten honest records come in
    descending order of difficulty; two of them carry one price, the others
    two, and one second price is infinite.  The pass grades the two short
    records with numbers and the others with NaN, and the two sorts leave
    the records as they stood: the record ranked first has a higher grade
    than the record ranked third. *)
Lemma rerank_mixed_grades :
  ranking (Opr.GradeMinimum Samples.toyHash Samples.two_assets
             Samples.mixed_lengths (reverse (Samples.ptrs 0 10)))
  = Returns (Some [9; 8; 7; 6; 5; 4; 3; 2; 1; 0]%N)
  ∧ ∃ g9 g7,
      grades (Opr.GradeMinimum Samples.toyHash Samples.two_assets
                Samples.mixed_lengths (reverse (Samples.ptrs 0 10)))
      = Returns [g9; nan; g7; nan; nan; nan; nan; nan; nan; nan]
      ∧ (g7 <? g9)%float = true.
Proof.
  split; first by vm_compute.
  eexists _, _. split; [vm_compute; reflexivity | by vm_compute].
Qed.

(** C5 (amended).  The two stable sorts that every pass of the narrowing
    loop applies to the surviving records, by verified difficulty descending
    and then by grade ascending, leave them in ascending order of grade,
    records of equal grade in descending order of verified difficulty, and
    keep the same records, whenever the grades sorted are all numbers or all
    NaN (on float64, [<] orders no mixture of the two). *)
Theorem rerank_order (σ : Opr.store) (prefix : list Opr.ptr) :
  comparable_grades σ prefix →
  StronglySorted (ranked_before σ) (Opr.rerank σ prefix)
  ∧ Opr.rerank σ prefix ≡ₚ prefix.
Proof.
  intros Hcmp. split; [by apply rerank_sorted | apply rerank_Permutation].
Qed.

Lemma rerank_order_witness :
  Opr.rerank Samples.graded_store [0; 1; 2; 3]%N = [1; 3; 2; 0]%N
  ∧ StronglySorted (ranked_before Samples.graded_store)
      (Opr.rerank Samples.graded_store [0; 1; 2; 3]%N)
  ∧ Opr.rerank Samples.graded_store [0; 1; 2; 3]%N ≡ₚ [0; 1; 2; 3]%N.
Proof.
  split; first by vm_compute.
  apply (rerank_order Samples.graded_store [0; 1; 2; 3]%N).
  left. repeat constructor.
Defined.

(** ** Dependence on the order of the input *)

(** C1.  The sort that is to normalise the order of the records moves
    nothing (its comparison reads one record on both sides), so the grader
    passes on what it holds in the order it holds it.  Of 51 honest records
    with distinct claimed difficulties and the limit 50: held in descending
    order of claim the grader keeps the 50 highest, held in ascending order
    it keeps the 50 lowest and drops the highest. *)
Theorem sortByDifficulty_depends_on_order :
  reverse (Samples.gopr <$> Samples.ptrs 0 51)
  ≡ₚ Samples.gopr <$> Samples.ptrs 0 51
  ∧ StronglySorted Z.lt
      (Grader.SelfReportedDifficulty <$> (Samples.gopr <$> Samples.ptrs 0 51))
  ∧ Forall (λ o, honestG Samples.toyHash o = true)
      (Samples.gopr <$> Samples.ptrs 0 51)
  ∧ Grader.sortByDifficulty Samples.toyHash 50
      (Grader.filterDuplicates
         (Samples.grader_with (reverse (Samples.gopr <$> Samples.ptrs 0 51))))
    = Returns (Samples.grader_with
                 (reverse (Samples.gopr <$> Samples.ptrs 1 50)))
  ∧ Grader.sortByDifficulty Samples.toyHash 50
      (Grader.filterDuplicates
         (Samples.grader_with (Samples.gopr <$> Samples.ptrs 0 51)))
    = Returns (Samples.grader_with (Samples.gopr <$> Samples.ptrs 0 50)).
Proof.
  split_and!.
  - apply reverse_Permutation.
  - apply (bool_decide_unpack _). by vm_compute.
  - apply (bool_decide_unpack _). by vm_compute.
  - by vm_compute.
  - by vm_compute.
Qed.

(** ** [GradeMinimum] and the order of its input *)

(** X18.  [GradeMinimum] reads its input in the order given, and its result
    is a function of the order in which the honest records stand: for two
    orderings of one record set in which the honest records stand in the
    same order, every record having a hash and a claim of at least 8 bytes
    and no more prices than the registry has assets, the two runs return the
    identical list, and every record of that list ends with the identical
    fields, grade and verified difficulty included. *)
Theorem GradeMinimum_honest_order (LXRHash : list byte → list byte)
    (AllAssets : list string) (σ : Opr.store) (l l' : list Opr.ptr) :
  l ≡ₚ l' →
  filter (λ p, honest LXRHash σ p) l = filter (λ p, honest LXRHash σ p) l' →
  Forall (checkable LXRHash σ) l → Forall (fits AllAssets σ) l →
  ∃ σa σb graded,
    Opr.GradeMinimum LXRHash AllAssets σ l = Returns (σa, graded)
    ∧ Opr.GradeMinimum LXRHash AllAssets σ l' = Returns (σb, graded)
    ∧ agree_on (elems graded) σa σb.
Proof.
  intros Hperm Hhon Hchk Hfit. unfold Opr.GradeMinimum.
  rewrite !RemoveDuplicateSubmissions_spec.
  rewrite <-(first_occurrences_length_Permutation (Opr.identity σ) l l' Hperm).
  destruct (decide (length (first_occurrences (Opr.identity σ) l) < 10)%nat).
  { exists σ, σ, None. split_and!; try done; apply agree_on_refl. }
  destruct (find_top50_spec LXRHash σ l σ [] 50)
    as (σ1 & -> & Hsame1 & _ & Hver1 & _);
    [auto using same_submission_refl | lia | done | |].
  { eapply Forall_forall. intros p Hp%scanned_subseteq.
    rewrite Forall_forall in Hchk. by apply Hchk. }
  destruct (find_top50_spec LXRHash σ l' σ [] 50)
    as (σ2 & -> & Hsame2 & _ & Hver2 & _);
    [auto using same_submission_refl | lia | done | |].
  { eapply Forall_forall. intros p Hp%scanned_subseteq.
    rewrite Forall_forall in Hchk. apply Hchk. by rewrite Hperm. }
  rewrite <-Hhon. cbn [bind app].
  set (top := take 50 (filter (λ p, honest LXRHash σ p) l)).
  assert (agree_on top σ1 σ2) as Hag.
  { intros p Hp.
    destruct (Hsame1 p) as [Hs1 Hg1]. destruct (Hsame2 p) as [Hs2 Hg2].
    assert (same_submission (σ1 p) (σ2 p)) as Hs12.
    { apply (same_submission_trans _ (σ p)); [by apply same_submission_sym | done]. }
    apply record_eq; first done.
    - apply (verified_Difficulty LXRHash); first done.
      + by apply Hver1, take_filter_scanned.
      + apply Hver2, take_filter_scanned. by rewrite <-Hhon.
    - congruence. }
  destruct (narrow_agree AllAssets (length top) σ1 σ2 top Hag)
    as (σa & σb & graded & -> & -> & Hgraded & Hag' & _).
  { apply Forall_forall. intros p Hp. unfold fits.
    destruct (Hsame1 p) as [(_ & _ & _ & <- & _) _].
    rewrite Forall_forall in Hfit. apply Hfit.
    apply (list_elem_of_filter (λ p, honest LXRHash σ p) l p).
    rewrite <-(take_drop 50 (filter _ l)). apply elem_of_app. by left. }
  cbn [bind]. exists σa, σb, (Some graded). split_and!; try done.
  intros p Hp. apply Hag'. simpl in Hp. by rewrite <-Hgraded.
Qed.

Lemma GradeMinimum_honest_order_witness :
  ∃ σa σb graded,
    Opr.GradeMinimum Samples.toyHash Samples.one_asset Samples.one_cheater
      ([9; 10; 8; 7; 6; 5; 4; 3; 2; 1; 0]%N) = Returns (σa, graded)
    ∧ Opr.GradeMinimum Samples.toyHash Samples.one_asset Samples.one_cheater
        ([10; 9; 8; 7; 6; 5; 4; 3; 2; 1; 0]%N) = Returns (σb, graded)
    ∧ agree_on (elems graded) σa σb.
Proof.
  apply (GradeMinimum_honest_order Samples.toyHash Samples.one_asset
           Samples.one_cheater ([9; 10; 8; 7; 6; 5; 4; 3; 2; 1; 0]%N)
           ([10; 9; 8; 7; 6; 5; 4; 3; 2; 1; 0]%N)).
  - apply (bool_decide_unpack _). by vm_compute.
  - by vm_compute.
  - apply (bool_decide_unpack _). by vm_compute.
  - apply (bool_decide_unpack _). by vm_compute.
Defined.

(** ** Further properties *)

(** X1.  The reward of a place: 800, 600 and 450 units of 10^8 for place 0,
    place 1 and places 2 to 9, nothing from place 10 on; a negative place
    falls to the default case and gets 450 units. *)
Theorem GetRewardFromPlace_table (place : Z) :
  (place = 0 → Opr.GetRewardFromPlace place = 80000000000)
  ∧ (place = 1 → Opr.GetRewardFromPlace place = 60000000000)
  ∧ (2 ≤ place ≤ 9 → Opr.GetRewardFromPlace place = 45000000000)
  ∧ (10 ≤ place → Opr.GetRewardFromPlace place = 0)
  ∧ (place < 0 → Opr.GetRewardFromPlace place = 45000000000).
Proof.
  unfold Opr.GetRewardFromPlace.
  split_and!; intros Hplace; repeat case_decide; try lia; reflexivity.
Qed.

Lemma GetRewardFromPlace_table_witness :
  Opr.GetRewardFromPlace 0 = 80000000000
  ∧ Opr.GetRewardFromPlace 1 = 60000000000
  ∧ Opr.GetRewardFromPlace 5 = 45000000000
  ∧ Opr.GetRewardFromPlace 10 = 0.
Proof.
  split_and!.
  - by apply (GetRewardFromPlace_table 0).
  - by apply (GetRewardFromPlace_table 1).
  - destruct (GetRewardFromPlace_table 5) as (_ & _ & Hmid & _).
    apply Hmid. lia.
  - destruct (GetRewardFromPlace_table 10) as (_ & _ & _ & Hout & _).
    apply Hout. lia.
Defined.

(** X2.  Every record of the list that [GradeMinimum] returns is honest:
    its [Difficulty] holds the recomputed difficulty, and that is the
    difficulty it reported. *)
Theorem GradeMinimum_returns_honest (LXRHash : list byte → list byte)
    (AllAssets : list string) (σ : Opr.store) (l : list Opr.ptr) :
  (10 ≤ length (Opr.RemoveDuplicateSubmissions σ l))%nat →
  Forall (checkable LXRHash σ) l → Forall (fits AllAssets σ) l →
  ∃ σ' graded,
    Opr.GradeMinimum LXRHash AllAssets σ l = Returns (σ', Some graded)
    ∧ ∀ p, p ∈ graded →
        honest LXRHash σ' p = true
        ∧ verified LXRHash σ' p
        ∧ BigEndian_Uint64 (Opr.SelfReportedDifficulty (σ' p))
          = Returns (Opr.Difficulty (σ' p)).
Proof.
  intros Hten Hchk Hfit.
  destruct (GradeMinimum_runs LXRHash AllAssets σ l)
    as (σ' & graded & Hrun & Hperm & Hsame & Hver).
  - done.
  - eapply Forall_forall. intros p Hp%scanned_subseteq.
    rewrite Forall_forall in Hchk. by apply Hchk.
  - eapply Forall_forall. intros p Hp.
    rewrite Forall_forall in Hfit. apply Hfit.
    apply (list_elem_of_filter (λ p, honest LXRHash σ p) l p).
    rewrite <-(take_drop 50 (filter _ l)). apply elem_of_app. by left.
  - exists σ', graded. split; first done. intros p Hp.
    assert (honest LXRHash σ' p = true) as Hhon.
    { rewrite <-(same_submission_honest LXRHash _ _ σ σ' p eq_refl eq_refl (Hsame p)).
      rewrite Hperm in Hp.
      assert (p ∈ filter (λ p, honest LXRHash σ p) l) as Hin.
      { rewrite <-(take_drop 50 (filter _ l)). apply elem_of_app. by left. }
      apply list_elem_of_filter in Hin as [Hin _].
      by apply Is_true_true. }
    split_and!; [done | by apply Hver |].
    apply (honest_verified LXRHash); [done | by apply Hver].
Qed.

Lemma GradeMinimum_returns_honest_witness :
  ∃ σ' graded,
    Opr.GradeMinimum Samples.toyHash Samples.one_asset Samples.one_cheater
      (Samples.ptrs 0 11) = Returns (σ', Some graded)
    ∧ ∀ p, p ∈ graded →
        honest Samples.toyHash σ' p = true
        ∧ verified Samples.toyHash σ' p
        ∧ BigEndian_Uint64 (Opr.SelfReportedDifficulty (σ' p))
          = Returns (Opr.Difficulty (σ' p)).
Proof.
  apply (GradeMinimum_returns_honest Samples.toyHash Samples.one_asset
           Samples.one_cheater (Samples.ptrs 0 11)).
  - vm_compute. lia.
  - apply (bool_decide_unpack _). by vm_compute.
  - apply (bool_decide_unpack _). by vm_compute.
Defined.

(** ** Averages take prices by magnitude *)

Lemma binary_round_aux_sign sx mx ex lx :
  match SpecFloat.binary_round_aux prec emax sx mx ex lx with
  | S754_nan => True
  | S754_zero b | S754_infinity b | S754_finite b _ _ => b = sx
  end.
Proof.
  unfold SpecFloat.binary_round_aux.
  repeat match goal with
         | |- context [let '(_, _) := ?x in _] => destruct x
         end.
  destruct (shr_m _); try done. by destruct (Z.leb _ _).
Qed.

Lemma binary_round_false_unsigned mx ex :
  unsigned (SpecFloat.binary_round prec emax false mx ex).
Proof.
  unfold SpecFloat.binary_round.
  destruct (shl_align _ _ _) as [mz ez].
  pose proof (binary_round_aux_sign false (Zpos mz) ez loc_Exact) as Hs.
  by destruct (SpecFloat.binary_round_aux _ _ _ _ _ _).
Qed.

Lemma SF64add_unsigned a v : unsigned a → unsigned v → unsigned (SF64add a v).
Proof.
  destruct a as [sa|sa| |sa ma ea], v as [sv|sv| |sv mv ev]; simpl;
    intros Ha Hv; try subst sa; try subst sv; try done.
  simpl. apply binary_round_false_unsigned.
Qed.

Lemma SFabs_unsigned v : unsigned (SFabs v).
Proof. by destruct v. Qed.

Lemma SF64_step_magnitude a v :
  unsigned a →
  (if SFleb (S754_zero false) v then SF64add a v else SF64sub a v)
  = SF64add a (SFabs v).
Proof.
  destruct a as [sa|sa| |sa ma ea], v as [sv|sv| |sv mv ev]; simpl;
    intros Ha; try subst sa; try done;
    repeat match goal with s : bool |- _ => destruct s end; try done.
Qed.

Lemma step_magnitude (a v : float) :
  unsigned (Prim2SF a) →
  (if (0 <=? v)%float then (a + v)%float else (a - v)%float)
  = (a + abs v)%float.
Proof.
  intros Ha. apply Prim2SF_inj.
  rewrite FloatAxioms.add_spec, FloatAxioms.abs_spec, <-(SF64_step_magnitude _ _ Ha).
  rewrite FloatAxioms.leb_spec. change (Prim2SF 0) with (S754_zero false).
  destruct (SFleb _ _); [apply FloatAxioms.add_spec | apply FloatAxioms.sub_spec].
Qed.

Lemma add_abs_unsigned (a v : float) :
  unsigned (Prim2SF a) → unsigned (Prim2SF (a + abs v)).
Proof.
  intros Ha. rewrite FloatAxioms.add_spec, FloatAxioms.abs_spec.
  apply SF64add_unsigned; [done | apply SFabs_unsigned].
Qed.

Lemma abs_abs (v : float) : abs (abs v) = abs v.
Proof. apply Prim2SF_inj. rewrite !FloatAxioms.abs_spec. by destruct (Prim2SF v). Qed.

Section magnitudes.
Import Opr.
Variable AllAssets : list string.

Lemma Avg_tokens_magnitude tokens : ∀ avg i,
  Forall (λ a, unsigned (Prim2SF a)) avg →
  Avg_tokens avg tokens i = Avg_tokens_abs avg tokens i
  ∧ ∀ avg', Avg_tokens_abs avg tokens i = Returns avg' →
            Forall (λ a, unsigned (Prim2SF a)) avg'.
Proof.
induction tokens as [|t tokens IH]; intros avg i Hun; simpl.
- split; first done. by intros avg' [= <-].
- destruct (avg !! i) as [a|] eqn:Ha; last done.
  assert (unsigned (Prim2SF a)) as Hua.
  { rewrite Forall_forall in Hun. apply Hun. by eapply list_elem_of_lookup_2. }
  rewrite step_magnitude by done.
  apply IH. apply Forall_insert; first done. by apply add_abs_unsigned.
Qed.

Lemma Avg_sum_magnitude σ l : ∀ avg,
  Forall (λ a, unsigned (Prim2SF a)) avg →
  Avg_sum σ avg l = Avg_sum_abs σ avg l.
Proof.
induction l as [|p l IH]; intros avg Hun; simpl; first done.
destruct (Avg_tokens_magnitude (GetTokens σ p) avg 0 Hun) as [-> Hun'].
destruct (Avg_tokens_abs _ _ _) as [avg'|] eqn:Heq; simpl; last done.
apply IH. by apply Hun'.
Qed.

Lemma Avg_tokens_abs_ext tokens tokens' : ∀ avg i,
  Forall2 (λ t t', abs (value t) = abs (value t')) tokens tokens' →
  Avg_tokens_abs avg tokens i = Avg_tokens_abs avg tokens' i.
Proof.
intros avg i Hall. revert avg i.
induction Hall as [|t t' tokens tokens' Ht _ IH]; intros avg i; simpl;
  first done.
destruct (avg !! i) as [a|]; last done. rewrite Ht. apply IH.
Qed.

Lemma Avg_sum_abs_ext σ σ' l : ∀ avg,
  (∀ p, p ∈ l →
     Forall2 (λ t t', abs (value t) = abs (value t'))
       (Tokens (σ p)) (Tokens (σ' p))) →
  Avg_sum_abs σ avg l = Avg_sum_abs σ' avg l.
Proof.
induction l as [|p l IH]; intros avg Hall; simpl; first done.
unfold GetTokens.
rewrite (Avg_tokens_abs_ext _ (Tokens (σ' p))) by (apply Hall; by left).
destruct (Avg_tokens_abs _ _ _); simpl; last done.
apply IH. intros q Hq. apply Hall. by right.
Qed.

Lemma Avg_magnitude σ l : Avg AllAssets σ l = Avg_abs AllAssets σ l.
Proof.
unfold Avg, Avg_abs. rewrite Avg_sum_magnitude; first done.
apply Forall_replicate. done.
Qed.
End magnitudes.

(** ** The shape of a pass and of the loop *)

Lemma take_drop_rebuild {A} (n : nat) (l r : list A) :
  length r = length (take n l) →
  take n (r ++ drop n l) = r ∧ drop n (r ++ drop n l) = drop n l.
Proof.
  rewrite length_take. intros Hlen.
  destruct (decide (n ≤ length l)%nat) as [Hn|Hn].
  - assert (length r = n) as Hr by lia.
    by rewrite take_app_length', drop_app_length'.
  - rewrite (drop_ge l n) by lia. rewrite app_nil_r.
    by rewrite take_ge, drop_ge by lia.
Qed.

Section loop_shape.
Import Opr.
Variable AllAssets : list string.

Lemma grade_pass_inv i σ top σ' top' :
  grade_pass AllAssets i σ top = Returns (σ', top') →
  top' = rerank σ' (take i top) ++ drop i top
  ∧ ∃ avg, Avg AllAssets σ (take i top) = Returns avg
           ∧ grade_all avg σ (take i top) = Returns σ'.
Proof.
  unfold grade_pass.
  intros (avg & Havg & (σ1 & Hg & [= <- <-])%bind_Returns)%bind_Returns.
  split; first done. by exists avg.
Qed.

Lemma grade_pass_shape i σ top σ' top' :
  grade_pass AllAssets i σ top = Returns (σ', top') →
  take i top' = rerank σ' (take i top) ∧ drop i top' = drop i top
  ∧ length top' = length top.
Proof.
  intros [-> _]%grade_pass_inv.
  destruct (take_drop_rebuild i top (rerank σ' (take i top))) as [Ht Hd].
  { by rewrite rerank_Permutation. }
  split_and!; try done.
  by rewrite length_app, rerank_Permutation, <-length_app, take_drop.
Qed.

Lemma narrow_small i σ top :
  (i < 10)%nat → narrow AllAssets i σ top = Returns (σ, top).
Proof.
  intros Hi. destruct i as [|i]; first done.
  cbn [narrow]. by rewrite decide_False by lia.
Qed.

Lemma narrow_step i σ top :
  (10 ≤ S i)%nat →
  narrow AllAssets (S i) σ top
  = bind (grade_pass AllAssets (S i) σ top)
         (λ x, narrow AllAssets i x.1 x.2).
Proof.
  intros Hi. cbn [narrow]. rewrite decide_True by done.
  destruct (grade_pass _ _ _ _) as [[σ1 top1]|]; done.
Qed.

(** The passes from size [i] down reorder the first [i] records among
    themselves and leave the others where they are. *)
Lemma narrow_shape i : ∀ σ top σ' top',
  narrow AllAssets i σ top = Returns (σ', top') →
  drop i top' = drop i top ∧ take i top' ≡ₚ take i top
  ∧ length top' = length top.
Proof.
  induction i as [|i IH]; intros σ top σ' top' Hrun.
  - injection Hrun as <- <-. by rewrite !take_0.
  - destruct (decide (10 ≤ S i)%nat) as [Hi|Hi].
    + rewrite narrow_step in Hrun by done.
      apply bind_Returns in Hrun as ([σ1 top1] & Hpass & Hrest).
      simpl in Hrest.
      apply grade_pass_shape in Hpass as (Ht1 & Hd1 & Hl1).
      apply IH in Hrest as (Hd & Ht & Hl).
      assert (drop (S i) top' = drop (S i) top) as Hdrop.
      { rewrite <-Hd1. replace (S i) with (i + 1)%nat by lia.
        rewrite <-!drop_drop. by rewrite Hd. }
      split_and!; [done | | congruence].
      apply (Permutation_app_inv_r (drop (S i) top)).
      rewrite <-Hdrop at 1. rewrite !take_drop.
      rewrite <-(take_drop i top'), Hd, Ht, take_drop.
      rewrite <-(take_drop (S i) top1), Ht1, Hd1, rerank_Permutation.
      by rewrite take_drop.
    + rewrite narrow_small in Hrun by lia. by injection Hrun as <- <-.
Qed.

(** The loop ends with the pass of size 10, which leaves the first ten
    records as its two sorts put them. *)
Lemma narrow_last i : ∀ σ top σ' top',
  (10 ≤ i ≤ length top)%nat →
  narrow AllAssets i σ top = Returns (σ', top') →
  ∃ prefix, prefix ≡ₚ take 10 top' ∧ take 10 top' = rerank σ' prefix.
Proof.
  induction i as [|i IH]; intros σ top σ' top' Hi Hrun; first lia.
  rewrite narrow_step in Hrun by lia.
  apply bind_Returns in Hrun as ([σ1 top1] & Hpass & Hrest).
  simpl in Hrest.
  destruct (decide (10 ≤ i)%nat) as [Hi'|Hi'].
  - apply grade_pass_shape in Hpass as (_ & _ & Hl1).
    apply (IH σ1 top1); [lia | done].
  - assert (i = 9%nat) as -> by lia.
    rewrite narrow_small in Hrest by lia. injection Hrest as <- <-.
    apply grade_pass_shape in Hpass as (Ht1 & _ & _).
    exists (take 10 top). split; last done.
    by rewrite Ht1, rerank_Permutation.
Qed.

Lemma narrow_panics σ top :
  (10 ≤ length top)%nat → ¬ Forall (fits AllAssets σ) top →
  narrow AllAssets (length top) σ top = Panics "index out of range".
Proof.
  intros Hlen Hfit. destruct (length top) as [|i] eqn:Hi; first lia.
  rewrite narrow_step by lia. unfold grade_pass.
  rewrite take_ge by lia. by rewrite Avg_panics.
Qed.

Lemma Avg_sum_tokens_ext σ σ' l : ∀ avg,
  (∀ p, p ∈ l → Tokens (σ p) = Tokens (σ' p)) →
  Avg_sum σ avg l = Avg_sum σ' avg l.
Proof.
  induction l as [|p l IH]; intros avg Htok; simpl; first done.
  unfold GetTokens. rewrite <-(Htok p) by by left.
  destruct (Avg_tokens _ _ _); simpl; last done.
  apply IH. intros q Hq. apply Htok. by right.
Qed.

Lemma alike_set_Grade g r r' : alike r r' → set_Grade g r = set_Grade g r'.
Proof.
  intros [Hs Hd]. apply record_eq; [|done..].
  destruct Hs as (? & ? & ? & ? & ? & ?). by repeat split.
Qed.

(** Grading a prefix of records that differ at most in their grade makes
    them equal. *)
Lemma grade_all_alike avg ps prefix : ∀ σa σb,
  (∀ p, p ∈ ps → alike (σa p) (σb p)) → prefix ⊆ ps →
  (∀ p, p ∈ prefix → (length (Tokens (σa p)) ≤ length avg)%nat) →
  ∃ σa' σb',
    grade_all avg σa prefix = Returns σa'
    ∧ grade_all avg σb prefix = Returns σb'
    ∧ (∀ p, p ∈ ps → alike (σa' p) (σb' p))
    ∧ (∀ p, p ∈ prefix → σa' p = σb' p)
    ∧ (∀ q, same_submission (σa q) (σa' q))
    ∧ (∀ q, q ∉ prefix → σa' q = σa q)
    ∧ (∀ q, q ∉ prefix → σb' q = σb q).
Proof.
  induction prefix as [|p prefix IH]; intros σa σb Hal Hsub Hfit; simpl.
  - exists σa, σb.
    split_and!;
      first [ done
            | intros q; apply same_submission_refl
            | intros p Hp; by apply elem_of_nil in Hp ].
  - assert (p ∈ ps) as Hp by (apply Hsub; by left).
    destruct (proj2 (CalculateGrade_returns avg σa p)) as [[σ1 g] Hcg].
    { apply Hfit. by left. }
    pose proof Hcg as Hcg'. apply CalculateGrade_store in Hcg' as [Hg ->].
    rewrite Hcg. unfold CalculateGrade, GetTokens.
    destruct (Hal p Hp) as [(_ & _ & _ & Htok & _) _].
    rewrite <-Htok, Hg. simpl.
    set (σa1 := update σa p (set_Grade g)).
    set (σb1 := update σb p (set_Grade g)).
    assert (σa1 p = σb1 p) as Hpp.
    { unfold σa1, σb1. rewrite !update_eq. by apply alike_set_Grade, Hal. }
    destruct (IH σa1 σb1) as (σa' & σb' & -> & -> & Hal' & Heq' & Hsame' & Houta & Houtb).
    { intros q Hq. unfold σa1, σb1. destruct (decide (q = p)) as [->|Hne].
      - rewrite !update_eq.
        rewrite (alike_set_Grade g _ _ (Hal p Hp)).
        split; [apply same_submission_refl | done].
      - rewrite !update_ne by done. by apply Hal. }
    { intros q Hq. apply Hsub. by right. }
    { intros q Hq. unfold σa1.
      destruct (same_submission_update_Grade σa p g q) as (_ & _ & _ & <- & _).
      apply Hfit. by right. }
    exists σa', σb'. split_and!; try done.
    + intros q [->|Hq]%elem_of_cons; last by apply Heq'.
      destruct (decide (p ∈ prefix)) as [Hin|Hin]; first by apply Heq'.
      by rewrite Houta, Houtb.
    + intros q. eapply same_submission_trans; [|apply Hsame'].
      apply same_submission_update_Grade.
    + intros q [Hne Hq]%not_elem_of_cons. rewrite Houta by done.
      unfold σa1. by rewrite update_ne.
    + intros q [Hne Hq]%not_elem_of_cons. rewrite Houtb by done.
      unfold σb1. by rewrite update_ne.
Qed.

(** When the loop runs at all, its first pass grades every record, so the
    grades the records came with play no part. *)
Lemma narrow_fresh σa σb top :
  (10 ≤ length top)%nat →
  (∀ p, p ∈ top → alike (σa p) (σb p)) →
  Forall (fits AllAssets σa) top →
  ∃ σa' σb' top',
    narrow AllAssets (length top) σa top = Returns (σa', top')
    ∧ narrow AllAssets (length top) σb top = Returns (σb', top')
    ∧ top' ≡ₚ top
    ∧ agree_on top σa' σb'.
Proof.
  intros Hlen Hal Hfit. destruct (length top) as [|i] eqn:Hi; first lia.
  rewrite !narrow_step by lia. unfold grade_pass.
  rewrite take_ge, drop_ge by lia.
  assert (Avg AllAssets σb top = Avg AllAssets σa top) as ->.
  { unfold Avg. rewrite (Avg_sum_tokens_ext σb σa); first done.
    intros p Hp. by destruct (Hal p Hp) as [(_ & _ & _ & <- & _) _]. }
  destruct (Avg_returns AllAssets σa top Hfit) as (avg & -> & Havg).
  cbn [bind].
  destruct (grade_all_alike avg top top σa σb)
    as (σa1 & σb1 & -> & -> & _ & Heq & Hsame & _); try done.
  { intros p Hp. rewrite Havg. rewrite Forall_forall in Hfit. by apply Hfit. }
  cbn [bind fst snd]. rewrite !app_nil_r.
  rewrite <-(rerank_ext σa1 σb1 top) by done.
  destruct (narrow_agree AllAssets i σa1 σb1 (rerank σa1 top))
    as (σa' & σb' & top' & -> & -> & Hperm & Hag & _).
  { intros p Hp. apply Heq. by rewrite rerank_Permutation in Hp. }
  { rewrite rerank_Permutation. eapply Forall_impl; first done.
    intros p Hp. unfold fits in *.
    by destruct (Hsame p) as (_ & _ & _ & <- & _). }
  exists σa', σb', top'. split_and!; try done.
  - by rewrite Hperm, rerank_Permutation.
  - intros p Hp. apply Hag. by rewrite rerank_Permutation.
Qed.
End loop_shape.

(** ** When the verifier loop panics *)

Section verifier_panics.
Import Opr.
Variable LXRHash : list byte → list byte.

Lemma find_top50_unchecked σ opr rest top :
  ¬ checkable LXRHash σ opr →
  find_top50 LXRHash σ (opr :: rest) top = Panics "index out of range".
Proof.
  intros Hno. cbn [find_top50]. unfold ComputeDifficulty at 1.
  unfold BigEndian_Uint64 at 1.
  destruct (decide (length (LXRHash (OPRHash (σ opr) ++ Nonce (σ opr))) < 8)%nat)
    as [|Hhash]; first done.
  cbn [bind]. rewrite update_eq.
  cbn [set_Difficulty SelfReportedDifficulty]. unfold BigEndian_Uint64.
  rewrite decide_True; first done.
  unfold checkable in Hno. lia.
Qed.

Lemma find_top50_panics σ0 l : ∀ σ top n,
  (∀ p, same_submission (σ0 p) (σ p)) →
  (1 ≤ n)%nat → (length top + n = 50)%nat →
  ¬ Forall (checkable LXRHash σ0) (scanned (honest LXRHash σ0) n l) →
  find_top50 LXRHash σ l top = Panics "index out of range".
Proof.
  induction l as [|opr l IH]; intros σ top n Hsame Hn Hlen Hchk.
  - destruct Hchk. constructor.
  - destruct (decide (checkable LXRHash σ0 opr)) as [Hopr|Hopr]; last first.
    { apply find_top50_unchecked. intros Hc. apply Hopr.
      eapply same_submission_checkable; last done.
      by apply same_submission_sym. }
    pose proof (same_submission_checkable LXRHash σ0 σ opr (Hsame opr) Hopr) as Hopr'.
    destruct (honest_checkable LXRHash σ opr Hopr') as (d & f & Hd & Hf & Hhon).
    rewrite <-(same_submission_honest LXRHash _ _ σ0 σ opr eq_refl eq_refl (Hsame opr))
      in Hhon.
    cbn [find_top50]. rewrite Hd. cbn [bind].
    rewrite update_eq. cbn [set_Difficulty SelfReportedDifficulty Difficulty].
    rewrite Hf. cbn [bind].
    assert (∀ p, same_submission (σ0 p) (update σ opr (set_Difficulty d) p))
      as Hsame1.
    { intros p. eapply same_submission_trans; first apply Hsame.
      apply same_submission_update_Difficulty. }
    simpl in Hchk. rewrite Hhon in *.
    destruct (f =? d) eqn:Hfd; simpl.
    + destruct (decide (length (top ++ [opr]) = 50%nat)) as [H50|H50];
        rewrite length_app in H50; simpl in H50.
      * assert (n = 1%nat) as -> by lia.
        exfalso. apply Hchk. constructor; [done | constructor].
      * destruct n as [|[|n']]; [lia | lia |].
        apply (IH _ _ (S n')); [done | lia | rewrite length_app; simpl; lia |].
        intros Hrest. apply Hchk. by constructor.
    + apply (IH _ _ n); try done.
      intros Hrest. apply Hchk. by constructor.
Qed.
End verifier_panics.

(** ** Sorting by difficulty; references in general *)

Lemma SliceStable_Difficulty_sorted (σ : Opr.store) (l : list Opr.ptr) :
  StronglySorted (λ a b, Opr.Difficulty (σ b) ≤ Opr.Difficulty (σ a))
    (SliceStable (λ a b, Opr.Difficulty (σ b) <? Opr.Difficulty (σ a)) l).
Proof.
  eapply StronglySorted_impl; last first.
  - apply (SliceStable_sorted _ (λ _ _, True) (λ _, True)).
    + intros a b _ _ Hab. apply Z.ltb_lt in Hab. apply Z.ltb_ge. lia.
    + intros a b c _ _ _ Hab Hbc. apply Z.ltb_ge in Hab, Hbc.
      apply Z.ltb_ge. lia.
    + by apply Forall_forall.
    + apply StronglySorted_True.
  - intros a b _ _ [Hba _]. simpl in Hba. by apply Z.ltb_ge in Hba.
Qed.

Lemma filter_all {A} (P : A → Prop) `{!∀ x, Decision (P x)} (l : list A) :
  Forall P l → filter P l = l.
Proof.
  induction 1 as [|x l Hx _ IH]; first done.
  by rewrite filter_cons, decide_True, IH.
Qed.

Lemma identity_same_submission σ σ' p :
  same_submission (σ p) (σ' p) → Opr.identity σ p = Opr.identity σ' p.
Proof. intros (HN & HO & _). unfold Opr.identity. by rewrite HN, HO. Qed.

Section references.
Import Opr.

Lemma VerifyWinners_from_cases σ ws : ∀ refs i,
  ws ≠ [] → Forall (λ w, 8 ≤ length (EntryHash (σ w)))%nat ws →
  VerifyWinners_from σ refs i (Some ws)
  = if bool_decide (refs_match σ refs (drop i ws))
    then if decide (length refs ≤ length (drop i ws))%nat
         then Returns true else Panics "index out of range"
    else Returns false.
Proof.
  induction refs as [|w refs IH]; intros i Hne Hhash; cbn [VerifyWinners_from].
  - rewrite bool_decide_eq_true_2.
    + rewrite decide_True; [done | simpl; lia].
    + unfold refs_match. by rewrite take_nil.
  - rewrite bool_decide_eq_false_2 by done. cbn [andb].
    rewrite bool_decide_eq_true_2 by (destruct ws; simpl; [done | lia]).
    change (elems (Some ws)) with ws.
    destruct (ws !! i) as [wi|] eqn:Hwi.
    + rewrite (drop_S _ _ _ Hwi).
      assert (8 ≤ length (EntryHash (σ wi)))%nat as Hwi8.
      { rewrite Forall_forall in Hhash. apply Hhash.
        by eapply list_elem_of_lookup_2. }
      unfold slice_to. rewrite decide_False by lia. cbn [bind].
      fold (short_hash σ wi).
      destruct (String.eqb_spec w (short_hash σ wi)) as [->|Hw]; cbn [negb].
      * rewrite IH by done.
        rewrite (bool_decide_ext (refs_match σ (short_hash σ wi :: refs)
                                    (wi :: drop (S i) ws))
                   (refs_match σ refs (drop (S i) ws))).
        -- destruct (bool_decide _); last done.
           apply decide_ext. simpl. lia.
        -- unfold refs_match. simpl. split; [by intros [= ?] | by intros ->].
      * rewrite bool_decide_eq_false_2; first done.
        unfold refs_match. simpl. by intros [= ? _].
    + apply lookup_ge_None in Hwi. rewrite drop_ge by done.
      rewrite bool_decide_eq_true_2 by (unfold refs_match; by rewrite take_0).
      rewrite decide_False; [done | simpl; lia].
Qed.

Lemma VerifyWinners_from_empty σ refs i :
  VerifyWinners_from σ refs i (Some []) = Returns true.
Proof.
  revert i. induction refs as [|w refs IH]; intros i; cbn [VerifyWinners_from];
    first done.
  rewrite bool_decide_eq_false_2 by done. cbn [andb].
  rewrite bool_decide_eq_false_2 by (simpl; lia). apply IH.
Qed.
End references.

(** ** Runs read backwards *)

Section runs.
Import Opr.
Variable LXRHash : list byte → list byte.
Variable AllAssets : list string.

Lemma first_occurrences_from_ext {A} (id id' : A → list byte) l : ∀ earlier,
  (∀ x, id x = id' x) →
  first_occurrences_from id earlier l = first_occurrences_from id' earlier l.
Proof.
  induction l as [|v l IH]; intros earlier Hext; simpl; first done.
  rewrite (IH _ Hext), <-(Hext v).
  assert (id <$> earlier = id' <$> earlier) as <-; last done.
  apply list_fmap_ext. intros _ x _. apply Hext.
Qed.

(** A run of the verifier loop that returns has examined checkable records
    only. *)
Lemma find_top50_inv σ l σ1 top :
  find_top50 LXRHash σ l [] = Returns (σ1, top) →
  top = take 50 (filter (λ p, honest LXRHash σ p) l)
  ∧ (∀ p, same_submission (σ p) (σ1 p) ∧ Grade (σ1 p) = Grade (σ p))
  ∧ (∀ p, p ∈ scanned (honest LXRHash σ) 50 l → verified LXRHash σ1 p)
  ∧ (∀ p, p ∉ scanned (honest LXRHash σ) 50 l → σ1 p = σ p).
Proof.
  intros Hrun.
  destruct (decide (Forall (checkable LXRHash σ)
                      (scanned (honest LXRHash σ) 50 l))) as [Hchk|Hchk].
  - destruct (find_top50_spec LXRHash σ l σ [] 50)
      as (σ' & Hrun' & Hsame & _ & Hver & Hout);
      [auto using same_submission_refl | lia | done | done |].
    rewrite Hrun in Hrun'. injection Hrun' as <- <-. by split_and!.
  - rewrite (find_top50_panics LXRHash σ l σ [] 50) in Hrun;
      [done | auto using same_submission_refl | lia | done | done].
Qed.

(** A run of the narrowing loop over the whole list that returns. *)
Lemma narrow_inv σ top σ' top' :
  narrow AllAssets (length top) σ top = Returns (σ', top') →
  top' ≡ₚ top
  ∧ (∀ q, same_submission (σ q) (σ' q) ∧ Difficulty (σ' q) = Difficulty (σ q))
  ∧ (∀ q, q ∉ top → σ' q = σ q).
Proof.
  intros Hrun.
  destruct (decide (length top < 10)%nat) as [Hlen|Hlen].
  { rewrite narrow_small in Hrun by done. injection Hrun as <- <-.
    split_and!; [done | | done].
    intros q. split; [apply same_submission_refl | done]. }
  destruct (decide (Forall (fits AllAssets σ) top)) as [Hfit|Hfit].
  - destruct (narrow_agree AllAssets (length top) σ σ top)
      as (σa & _ & top1 & Hrun' & _ & Hperm & _ & Hsame & Hout);
      [apply agree_on_refl | done |].
    rewrite Hrun in Hrun'. injection Hrun' as <- <-. by split_and!.
  - rewrite narrow_panics in Hrun; [done | lia | done].
Qed.

Lemma GradeMinimum_inv σ l σ' graded :
  GradeMinimum LXRHash AllAssets σ l = Returns (σ', Some graded) →
  (10 ≤ length (RemoveDuplicateSubmissions σ l))%nat
  ∧ ∃ σ1 top,
      find_top50 LXRHash σ l [] = Returns (σ1, top)
      ∧ narrow AllAssets (length top) σ1 top = Returns (σ', graded).
Proof.
  unfold GradeMinimum.
  destruct (decide (length (RemoveDuplicateSubmissions σ l) < 10)%nat);
    first done.
  intros ([σ1 top] & Hfind & ([σ2 top2] & Hnarrow & [= <- <-])%bind_Returns)%bind_Returns.
  split; first lia. by exists σ1, top.
Qed.

Lemma GradeBlock_runs σ l :
  (10 ≤ length (RemoveDuplicateSubmissions σ l))%nat →
  Forall (fits AllAssets σ) l →
  ∃ σ' graded sorted,
    GradeBlock AllAssets σ l = Returns (σ', Some graded, Some sorted)
    ∧ sorted
      = SliceStable (λ a b, Difficulty (σ b) <? Difficulty (σ a))
          (RemoveDuplicateSubmissions σ l)
    ∧ graded ≡ₚ take 50 sorted
    ∧ (∀ q, same_submission (σ q) (σ' q)
            ∧ Difficulty (σ' q) = Difficulty (σ q))
    ∧ (∀ q, q ∉ graded → σ' q = σ q).
Proof.
  intros Hten Hfit. unfold GradeBlock. rewrite decide_False by lia.
  set (sorted := SliceStable _ (RemoveDuplicateSubmissions σ l)).
  destruct (narrow_agree AllAssets (length (take 50 sorted)) σ σ (take 50 sorted))
    as (σ' & _ & graded & -> & _ & Hperm & _ & Hsame & Hout).
  { apply agree_on_refl. }
  { apply Forall_forall. intros p Hp. rewrite Forall_forall in Hfit.
    apply Hfit.
    assert (p ∈ sorted) as Hin.
    { rewrite <-(take_drop 50 sorted). apply elem_of_app. by left. }
    unfold sorted in Hin.
    rewrite SliceStable_Permutation, RemoveDuplicateSubmissions_spec in Hin.
    eapply elem_of_sublist; [done | apply first_occurrences_from_sublist]. }
  cbn [bind]. exists σ', graded, sorted. split_and!; try done.
  intros q Hq. apply Hout. by rewrite <-Hperm.
Qed.
End runs.

(** ** [GradeBlock] *)

(** X3.  [GradeBlock] answers a block with fewer than 10 distinct identity
    keys with two nil slices and an untouched store.  Otherwise, when no
    record has more prices than the registry, it returns two slices: the
    second holds the deduplicated records ordered by the [Difficulty] they
    came with, largest first; the first holds the 50 leading records of the
    second, reordered.  Neither holds an identity key twice. *)
Theorem GradeBlock_contract (AllAssets : list string) (σ : Opr.store)
    (l : list Opr.ptr) :
  ((length (Opr.RemoveDuplicateSubmissions σ l) < 10)%nat →
     Opr.GradeBlock AllAssets σ l = Returns (σ, None, None))
  ∧ ((10 ≤ length (Opr.RemoveDuplicateSubmissions σ l))%nat →
     Forall (fits AllAssets σ) l →
     ∃ σ' graded sorted,
       Opr.GradeBlock AllAssets σ l = Returns (σ', Some graded, Some sorted)
       ∧ sorted ≡ₚ Opr.RemoveDuplicateSubmissions σ l
       ∧ StronglySorted
           (λ a b, Opr.Difficulty (σ' b) ≤ Opr.Difficulty (σ' a)) sorted
       ∧ graded ≡ₚ take 50 sorted
       ∧ NoDup (Opr.identity σ' <$> sorted)
       ∧ NoDup (Opr.identity σ' <$> graded)).
Proof.
  split.
  - intros Hlt. unfold Opr.GradeBlock. by rewrite decide_True.
  - intros Hten Hfit.
    destruct (GradeBlock_runs AllAssets σ l Hten Hfit)
      as (σ' & graded & sorted & Hrun & Hsorted & Hperm & Hsame & _).
    exists σ', graded, sorted.
    assert (sorted ≡ₚ Opr.RemoveDuplicateSubmissions σ l) as Hall.
    { rewrite Hsorted. apply SliceStable_Permutation. }
    assert (NoDup (Opr.identity σ' <$> sorted)) as Hnd.
    { assert (Opr.identity σ' <$> sorted = Opr.identity σ <$> sorted) as ->.
      { apply list_fmap_ext. intros _ q _. symmetry.
        apply identity_same_submission, Hsame. }
      rewrite Hall, RemoveDuplicateSubmissions_spec.
      apply first_occurrences_from_NoDup. }
    split_and!; try done.
    + eapply StronglySorted_impl; last first.
      * rewrite Hsorted. apply SliceStable_Difficulty_sorted.
      * intros a b _ _ Hab. cbn beta in *.
        destruct (Hsame a) as [_ ->]. by destruct (Hsame b) as [_ ->].
    + rewrite Hperm. eapply sublist_NoDup; first exact Hnd.
      apply fmap_sublist, sublist_take.
Qed.

Lemma GradeBlock_contract_witness :
  Opr.GradeBlock Samples.one_asset Samples.one_duplicate
    (Samples.ptrs 0 9 ++ [10%N]) = Returns (Samples.one_duplicate, None, None)
  ∧ ∃ σ' graded sorted,
      Opr.GradeBlock Samples.one_asset Samples.one_duplicate
        (Samples.ptrs 0 11) = Returns (σ', Some graded, Some sorted)
      ∧ sorted ≡ₚ Opr.RemoveDuplicateSubmissions Samples.one_duplicate
                    (Samples.ptrs 0 11)
      ∧ StronglySorted
          (λ a b, Opr.Difficulty (σ' b) ≤ Opr.Difficulty (σ' a)) sorted
      ∧ graded ≡ₚ take 50 sorted
      ∧ NoDup (Opr.identity σ' <$> sorted)
      ∧ NoDup (Opr.identity σ' <$> graded).
Proof.
  split.
  - destruct (GradeBlock_contract Samples.one_asset Samples.one_duplicate
                (Samples.ptrs 0 9 ++ [10%N])) as [Hfew _].
    apply Hfew. vm_compute. lia.
  - destruct (GradeBlock_contract Samples.one_asset Samples.one_duplicate
                (Samples.ptrs 0 11)) as [_ Hmany].
    apply Hmany.
    + vm_compute. lia.
    + apply (bool_decide_unpack _). by vm_compute.
Defined.

(** X4.  Whatever [GradeBlock] returns, the only field it has written is
    [Grade], and only in records of the graded slice: every record keeps its
    submission and its [Difficulty], and a record outside the graded slice is
    as it was.  In particular [GradeBlock] never recomputes a difficulty. *)
Theorem GradeBlock_writes_grades_only (AllAssets : list string)
    (σ σ' : Opr.store) (l : list Opr.ptr) (graded sorted : slice Opr.ptr) :
  Opr.GradeBlock AllAssets σ l = Returns (σ', graded, sorted) →
  ∀ p, same_submission (σ p) (σ' p)
       ∧ Opr.Difficulty (σ' p) = Opr.Difficulty (σ p)
       ∧ (p ∉ elems graded → σ' p = σ p).
Proof.
  unfold Opr.GradeBlock.
  destruct (decide (length (Opr.RemoveDuplicateSubmissions σ l) < 10)%nat).
  { intros [= <- <- <-] p. split_and!; [apply same_submission_refl | done..]. }
  intros ([σ1 top] & Hnarrow & [= <- <- <-])%bind_Returns p.
  apply narrow_inv in Hnarrow as (Hperm & Hsame & Hout).
  destruct (Hsame p) as [Hs Hd]. split_and!; [done..|].
  cbn [elems default]. intros Hp. apply Hout. by rewrite <-Hperm.
Qed.

Lemma GradeBlock_writes_grades_only_witness :
  ∃ σ' graded sorted,
    Opr.GradeBlock Samples.one_asset Samples.all_honest (Samples.ptrs 0 10)
    = Returns (σ', Some graded, Some sorted)
    ∧ ∀ p, same_submission (Samples.all_honest p) (σ' p)
           ∧ Opr.Difficulty (σ' p) = Opr.Difficulty (Samples.all_honest p)
           ∧ (p ∉ graded → σ' p = Samples.all_honest p).
Proof.
  destruct (GradeBlock_runs Samples.one_asset Samples.all_honest
              (Samples.ptrs 0 10)) as (σ' & graded & sorted & Hrun & _).
  - vm_compute. lia.
  - apply (bool_decide_unpack _). by vm_compute.
  - exists σ', graded, sorted. split; first exact Hrun.
    exact (GradeBlock_writes_grades_only Samples.one_asset Samples.all_honest
             σ' (Samples.ptrs 0 10) (Some graded) (Some sorted) Hrun).
Defined.

(** ** [GradeMinimum]: what it writes *)

(** X5.  Whatever [GradeMinimum] returns, no record has lost its
    submission; a record the verifier loop did not examine (one outside the
    input, or past the fiftieth honest record) is as it was; and a record
    outside the returned slice keeps the [Grade] it came with. *)
Theorem GradeMinimum_writes (LXRHash : list byte → list byte)
    (AllAssets : list string) (σ σ' : Opr.store) (l : list Opr.ptr)
    (graded : slice Opr.ptr) :
  Opr.GradeMinimum LXRHash AllAssets σ l = Returns (σ', graded) →
  ∀ p, same_submission (σ p) (σ' p)
       ∧ (p ∉ scanned (honest LXRHash σ) 50 l → σ' p = σ p)
       ∧ (p ∉ l → σ' p = σ p)
       ∧ (p ∉ elems graded → Opr.Grade (σ' p) = Opr.Grade (σ p)).
Proof.
  intros Hrun p.
  assert (same_submission (σ p) (σ' p)
          ∧ (p ∉ scanned (honest LXRHash σ) 50 l → σ' p = σ p)
          ∧ (p ∉ elems graded → Opr.Grade (σ' p) = Opr.Grade (σ p)))
    as (Hs & Hscan & Hgrade); last first.
  { split_and!; try done. intros Hp. apply Hscan.
    intros Hin%scanned_subseteq. by apply Hp. }
  destruct graded as [graded|].
  - apply GradeMinimum_inv in Hrun as (_ & σ1 & top & Hfind & Hnarrow).
    apply find_top50_inv in Hfind as (-> & Hsame1 & _ & Hout1).
    apply narrow_inv in Hnarrow as (Hperm & Hsame2 & Hout2).
    split_and!.
    + eapply same_submission_trans; [apply Hsame1 | apply Hsame2].
    + intros Hp. rewrite Hout2; first by apply Hout1.
      intros Hin. by apply Hp, take_filter_scanned.
    + cbn [elems default]. intros Hp. rewrite Hout2; first by apply Hsame1.
      by rewrite <-Hperm.
  - unfold Opr.GradeMinimum in Hrun.
    destruct (decide (length (Opr.RemoveDuplicateSubmissions σ l) < 10)%nat).
    + injection Hrun as <-. split_and!; [apply same_submission_refl | done..].
    + apply bind_Returns in Hrun as ([σ1 top] & _ & Hrun).
      apply bind_Returns in Hrun as ([σ2 top2] & _ & Hrun). done.
Qed.

Lemma GradeMinimum_writes_witness :
  ∃ σ' graded,
    Opr.GradeMinimum Samples.toyHash Samples.one_asset Samples.one_cheater
      (Samples.ptrs 0 11) = Returns (σ', Some graded)
    ∧ ∀ p, same_submission (Samples.one_cheater p) (σ' p)
           ∧ (p ∉ scanned (honest Samples.toyHash Samples.one_cheater) 50
                    (Samples.ptrs 0 11) → σ' p = Samples.one_cheater p)
           ∧ (p ∉ Samples.ptrs 0 11 → σ' p = Samples.one_cheater p)
           ∧ (p ∉ graded
              → Opr.Grade (σ' p) = Opr.Grade (Samples.one_cheater p)).
Proof.
  destruct (GradeMinimum_runs Samples.toyHash Samples.one_asset
              Samples.one_cheater (Samples.ptrs 0 11))
    as (σ' & graded & Hrun & _).
  - vm_compute. lia.
  - apply (bool_decide_unpack _). by vm_compute.
  - apply (bool_decide_unpack _). by vm_compute.
  - exists σ', graded. split; first exact Hrun.
    exact (GradeMinimum_writes Samples.toyHash Samples.one_asset
             Samples.one_cheater σ' (Samples.ptrs 0 11) (Some graded) Hrun).
Defined.

(** ** The narrowing loop *)

(** X6.  A run of the narrowing loop that is at size [i] never again
    touches the records it has already dropped: the slice keeps its length,
    its positions from [i] on stay as they are, and its first [i] positions
    hold the records they held, reordered. *)
Theorem narrowing_keeps_dropped (AllAssets : list string) (i : nat)
    (σ σ' : Opr.store) (top top' : list Opr.ptr) :
  Opr.narrow AllAssets i σ top = Returns (σ', top') →
  drop i top' = drop i top ∧ take i top' ≡ₚ take i top
  ∧ length top' = length top.
Proof. apply narrow_shape. Qed.

Lemma narrowing_keeps_dropped_witness :
  ∃ σ' top',
    Opr.narrow Samples.one_asset 11 Samples.all_honest (Samples.ptrs 0 13)
    = Returns (σ', top')
    ∧ drop 11 top' = [11; 12]%N
    ∧ take 11 top' ≡ₚ Samples.ptrs 0 11
    ∧ length top' = 13%nat.
Proof.
  destruct (narrow_agree Samples.one_asset 11 Samples.all_honest
              Samples.all_honest (Samples.ptrs 0 13))
    as (σ' & _ & top' & Hrun & _).
  - apply agree_on_refl.
  - apply (bool_decide_unpack _). by vm_compute.
  - exists σ', top'. split; first exact Hrun.
    exact (narrowing_keeps_dropped Samples.one_asset 11 Samples.all_honest σ'
             (Samples.ptrs 0 13) top' Hrun).
Defined.

(** X7.  With at least 10 honest records among those examined,
    [GradeMinimum] returns at least 10 records, and its first 10 are in the
    order of the last pass: provided their grades can be compared (none is
    NaN, or all are), the grades ascend, and records that the grade does not
    tell apart stand by descending verified difficulty. *)
Theorem GradeMinimum_winners_ranked (LXRHash : list byte → list byte)
    (AllAssets : list string) (σ : Opr.store) (l : list Opr.ptr) :
  (10 ≤ length (Opr.RemoveDuplicateSubmissions σ l))%nat →
  Forall (checkable LXRHash σ) l → Forall (fits AllAssets σ) l →
  (10 ≤ length (filter (λ p, honest LXRHash σ p) l))%nat →
  ∃ σ' graded,
    Opr.GradeMinimum LXRHash AllAssets σ l = Returns (σ', Some graded)
    ∧ (10 ≤ length graded)%nat
    ∧ (comparable_grades σ' (take 10 graded) →
       StronglySorted (ranked_before σ') (take 10 graded)).
Proof.
  intros Hten Hchk Hfit Hhon.
  destruct (GradeMinimum_runs LXRHash AllAssets σ l)
    as (σ' & graded & Hrun & Hperm & _).
  - done.
  - eapply Forall_forall. intros p Hp%scanned_subseteq.
    rewrite Forall_forall in Hchk. by apply Hchk.
  - eapply Forall_forall. intros p Hp.
    rewrite Forall_forall in Hfit. apply Hfit.
    apply (list_elem_of_filter (λ p, honest LXRHash σ p) l p).
    rewrite <-(take_drop 50 (filter _ l)). apply elem_of_app. by left.
  - exists σ', graded. split; first exact Hrun.
    assert (10 ≤ length graded)%nat as Hlen.
    { rewrite Hperm, length_take. lia. }
    split; first done. intros Hcmp.
    apply GradeMinimum_inv in Hrun as (_ & σ1 & top & Hfind & Hnarrow).
    assert (length top = length graded) as Htop.
    { apply narrow_inv in Hnarrow as (Hp & _). by rewrite Hp. }
    destruct (narrow_last AllAssets (length top) σ1 top σ' graded)
      as (prefix & Hprefix & ->); [lia | done |].
    apply rerank_sorted.
    destruct Hcmp as [Hcmp|Hcmp]; [left | right]; by rewrite Hprefix.
Qed.

Lemma GradeMinimum_winners_ranked_witness :
  ∃ σ',
    Opr.GradeMinimum Samples.toyHash Samples.one_asset Samples.varied
      (reverse (Samples.ptrs 0 11))
    = Returns (σ', Some [9; 6; 0; 3; 4; 8; 10; 2; 1; 7; 5]%N)
    ∧ StronglySorted (ranked_before σ') [9; 6; 0; 3; 4; 8; 10; 2; 1; 7]%N
    ∧ (Opr.Grade (σ' 9%N) <? Opr.Grade (σ' 7%N))%float = true.
Proof.
  destruct (GradeMinimum_winners_ranked Samples.toyHash Samples.one_asset
              Samples.varied (reverse (Samples.ptrs 0 11)))
    as (σ' & graded & Hrun & _ & Hsorted).
  - vm_compute. lia.
  - apply (bool_decide_unpack _). by vm_compute.
  - apply (bool_decide_unpack _). by vm_compute.
  - vm_compute. lia.
  - assert (ranking (Opr.GradeMinimum Samples.toyHash Samples.one_asset
                       Samples.varied (reverse (Samples.ptrs 0 11)))
            = Returns (Some [9; 6; 0; 3; 4; 8; 10; 2; 1; 7; 5]%N)) as Hrank
      by (by vm_compute).
    assert (∃ gs, grades (Opr.GradeMinimum Samples.toyHash Samples.one_asset
                            Samples.varied (reverse (Samples.ptrs 0 11)))
                  = Returns gs
                  ∧ forallb (λ g, negb (is_nan g)) gs = true
                  ∧ (nth 0 gs 0 <? nth 9 gs 0)%float = true)
      as (gs & Hgs & Hnum & Hlt).
    { eexists. split_and!; [vm_compute; reflexivity | by vm_compute..]. }
    rewrite Hrun in Hrank, Hgs. injection Hrank as ->. injection Hgs as <-.
    exists σ'. split; first exact Hrun. clear Hrun.
    split; last exact Hlt.
    apply Hsorted. left. clear Hsorted Hlt.
    apply Forall_take. cbn [elems default] in Hnum.
    apply Is_true_true_2, forallb_True in Hnum.
    apply (Forall_fmap (λ p, Opr.Grade (σ' p)) (λ g, is_nan g = false)).
    eapply Forall_impl; first exact Hnum.
    intros g Hg. cbn beta in Hg. apply negb_prop_elim in Hg.
    apply not_true_is_false. intros Hnan. apply Hg. by rewrite Hnan.
Defined.

(** X8.  [GradeMinimum] grades afresh: what [Grade] and [Difficulty] the
    records come with has no effect.  Run on two stores holding the same
    submissions, with at least 10 honest records, it returns the same slice
    and leaves the records of that slice equal, field by field. *)
Theorem GradeMinimum_grades_afresh (LXRHash : list byte → list byte)
    (AllAssets : list string) (σ σ0 : Opr.store) (l : list Opr.ptr) :
  (∀ p, same_submission (σ p) (σ0 p)) →
  (10 ≤ length (Opr.RemoveDuplicateSubmissions σ l))%nat →
  Forall (checkable LXRHash σ) l → Forall (fits AllAssets σ) l →
  (10 ≤ length (filter (λ p, honest LXRHash σ p) l))%nat →
  ∃ σa σb graded,
    Opr.GradeMinimum LXRHash AllAssets σ l = Returns (σa, Some graded)
    ∧ Opr.GradeMinimum LXRHash AllAssets σ0 l = Returns (σb, Some graded)
    ∧ agree_on graded σa σb.
Proof.
  intros Hsame Hten Hchk Hfit Hhon.
  assert (Opr.RemoveDuplicateSubmissions σ0 l
          = Opr.RemoveDuplicateSubmissions σ l) as Hdedup.
  { rewrite !RemoveDuplicateSubmissions_spec. unfold first_occurrences.
    apply first_occurrences_from_ext. intros p. symmetry.
    apply identity_same_submission, Hsame. }
  assert (Forall (checkable LXRHash σ) (scanned (honest LXRHash σ) 50 l))
    as Hscan.
  { eapply Forall_forall. intros p Hp%scanned_subseteq.
    rewrite Forall_forall in Hchk. by apply Hchk. }
  set (top := take 50 (filter (λ p, honest LXRHash σ p) l)).
  destruct (find_top50_spec LXRHash σ l σ [] 50)
    as (σ1 & Hrun1 & Hsame1 & _ & Hver1 & _);
    [auto using same_submission_refl | lia | done | done |].
  destruct (find_top50_spec LXRHash σ l σ0 [] 50)
    as (σ2 & Hrun2 & Hsame2 & _ & Hver2 & _); [done | lia | done | done |].
  cbn [app] in Hrun1, Hrun2. fold top in Hrun1, Hrun2.
  assert (10 ≤ length top)%nat as Hlen.
  { unfold top. rewrite length_take. lia. }
  destruct (narrow_fresh AllAssets σ1 σ2 top)
    as (σa & σb & graded & Hna & Hnb & Hperm & Hag).
  - done.
  - intros p Hp. apply take_filter_scanned in Hp.
    assert (same_submission (σ1 p) (σ2 p)) as Hs.
    { eapply same_submission_trans; last apply Hsame2.
      apply same_submission_sym, Hsame1. }
    split; first done.
    pose proof (Hver1 p Hp) as Hv1. pose proof (Hver2 p Hp) as Hv2.
    unfold verified, Opr.ComputeDifficulty in Hv1, Hv2.
    destruct Hs as (HN & HO & _). rewrite HN, HO in Hv1.
    rewrite Hv1 in Hv2. by injection Hv2.
  - eapply Forall_forall. intros p Hp. unfold fits.
    destruct (Hsame1 p) as [(_ & _ & _ & <- & _) _].
    rewrite Forall_forall in Hfit. apply Hfit.
    apply (list_elem_of_filter (λ p, honest LXRHash σ p) l p).
    rewrite <-(take_drop 50 (filter _ l)). apply elem_of_app. by left.
  - exists σa, σb, graded. unfold Opr.GradeMinimum. rewrite Hdedup.
    rewrite !decide_False by lia. rewrite Hrun1, Hrun2. cbn [bind].
    rewrite Hna, Hnb. cbn [bind]. split_and!; [done..|].
    intros p Hp. apply Hag. by rewrite <-Hperm.
Qed.

Lemma GradeMinimum_grades_afresh_witness :
  ∃ σa σb graded,
    Opr.GradeMinimum Samples.toyHash Samples.one_asset Samples.all_honest
      (Samples.ptrs 0 11) = Returns (σa, Some graded)
    ∧ Opr.GradeMinimum Samples.toyHash Samples.one_asset Samples.regraded
        (Samples.ptrs 0 11) = Returns (σb, Some graded)
    ∧ agree_on graded σa σb.
Proof.
  apply (GradeMinimum_grades_afresh Samples.toyHash Samples.one_asset
           Samples.all_honest Samples.regraded (Samples.ptrs 0 11)).
  - intros p. by split_and!.
  - vm_compute. lia.
  - apply (bool_decide_unpack _). by vm_compute.
  - apply (bool_decide_unpack _). by vm_compute.
  - vm_compute. lia.
Defined.

(** ** [Avg] and [CalculateGrade] at the edges *)

Lemma grade_tokens_skips avg tokens : ∀ i g,
  Forall (λ a, (0 <? a)%float = false) avg →
  (i + length tokens ≤ length avg)%nat →
  Opr.grade_tokens avg tokens i g = Returns g.
Proof.
  induction tokens as [|v tokens IH]; intros i g Hnone Hlen; first done.
  cbn [Opr.grade_tokens length] in *.
  destruct (lookup_lt_is_Some_2 avg i) as [a Ha]; first lia.
  rewrite Ha. rewrite Forall_forall in Hnone.
  rewrite (Hnone a) by (by eapply list_elem_of_lookup_2).
  apply IH; [by apply Forall_forall | lia].
Qed.

(** X9.  [Avg] takes every price by its magnitude: it is the average of the
    absolute values, and two stores whose prices differ at most in sign have
    the same averages. *)
Theorem Avg_by_magnitude (AllAssets : list string) (σ σ' : Opr.store)
    (l : list Opr.ptr) :
  Opr.Avg AllAssets σ l = Avg_abs AllAssets σ l
  ∧ ((∀ p, p ∈ l →
        Forall2 (λ t t', abs (Opr.value t) = abs (Opr.value t'))
          (Opr.Tokens (σ p)) (Opr.Tokens (σ' p))) →
     Opr.Avg AllAssets σ l = Opr.Avg AllAssets σ' l).
Proof.
  split; first apply Avg_magnitude.
  intros Hsign. rewrite !Avg_magnitude. unfold Avg_abs.
  by rewrite (Avg_sum_abs_ext σ σ' l _ Hsign).
Qed.

Lemma Avg_by_magnitude_witness :
  Opr.Avg Samples.one_asset Samples.all_honest (Samples.ptrs 0 10)
  = Opr.Avg Samples.one_asset Samples.all_negative (Samples.ptrs 0 10)
  ∧ Opr.Avg Samples.one_asset Samples.all_negative (Samples.ptrs 0 10)
    = Returns [100%float].
Proof.
  split; last by vm_compute.
  destruct (Avg_by_magnitude Samples.one_asset Samples.all_honest
              Samples.all_negative (Samples.ptrs 0 10)) as [_ Hsign].
  apply Hsign. intros p _. constructor; [by vm_compute | constructor].
Defined.

(** X10.  [CalculateGrade] skips every slot whose average is not above
    zero: graded against averages none of which is positive (zero, negative
    or NaN), a record gets the grade 0, whatever its prices.  The averages of
    an empty set of records are such: [Avg] divides zero by zero in every
    slot and returns NaN throughout. *)
Theorem CalculateGrade_skips_slots (AllAssets : list string) (σ : Opr.store) :
  Opr.Avg AllAssets σ [] = Returns (replicate (length AllAssets) nan)
  ∧ ∀ avg p,
      Forall (λ a, (0 <? a)%float = false) avg →
      (length (Opr.Tokens (σ p)) ≤ length avg)%nat →
      Opr.CalculateGrade avg σ p
      = Returns (Opr.update σ p (Opr.set_Grade 0%float), 0%float).
Proof.
  split.
  - unfold Opr.Avg. cbn [Opr.Avg_sum bind length]. by rewrite fmap_replicate.
  - intros avg p Hnone Hlen. unfold Opr.CalculateGrade, Opr.GetTokens.
    by rewrite grade_tokens_skips.
Qed.

Lemma CalculateGrade_skips_slots_witness :
  Opr.Avg Samples.two_assets Samples.one_short [] = Returns [nan; nan]
  ∧ Opr.CalculateGrade [nan; 0%float] Samples.one_short 4%N
    = Returns (Opr.update Samples.one_short 4%N (Opr.set_Grade 0%float),
               0%float).
Proof.
  destruct (CalculateGrade_skips_slots Samples.two_assets Samples.one_short)
    as [Hempty Hskip].
  split; first exact Hempty.
  apply Hskip.
  - repeat constructor.
  - vm_compute. lia.
Defined.

(** ** [VerifyWinners] with a non-nil winners slice *)

(** X11.  Against an empty, non-nil winners slice [VerifyWinners] accepts
    every candidate.  Against a non-empty one whose entry hashes have at
    least 8 bytes it compares references and winners position by position:
    it returns false when a reference differs from the short hash at its
    position; when they agree as far as both lists go it returns true for a
    candidate with no more references than there are winners, and fails with
    an index out of range for one with more. *)
Theorem VerifyWinners_outcomes (σ : Opr.store) (opr : Opr.ptr)
    (ws : list Opr.ptr) :
  Opr.VerifyWinners σ opr (Some []) = Returns true
  ∧ (ws ≠ [] → Forall (λ w, 8 ≤ length (Opr.EntryHash (σ w)))%nat ws →
     Opr.VerifyWinners σ opr (Some ws)
     = if bool_decide (refs_match σ (Opr.WinPreviousOPR (σ opr)) ws)
       then if decide (length (Opr.WinPreviousOPR (σ opr)) ≤ length ws)%nat
            then Returns true else Panics "index out of range"
       else Returns false).
Proof.
  unfold Opr.VerifyWinners. split; first apply VerifyWinners_from_empty.
  intros Hne Hhash.
  by rewrite (VerifyWinners_from_cases σ ws _ 0%nat Hne Hhash), drop_0.
Qed.

Lemma VerifyWinners_outcomes_witness :
  Opr.VerifyWinners Samples.winners_store 31%N (Some [20; 21; 22]%N)
  = Returns true
  ∧ Opr.VerifyWinners Samples.winners_store 34%N (Some [20; 21; 22]%N)
    = Returns false
  ∧ Opr.VerifyWinners Samples.winners_store 32%N (Some [20; 21; 22]%N)
    = Panics "index out of range".
Proof.
  assert (Forall (λ w, 8 ≤ length (Opr.EntryHash (Samples.winners_store w)))%nat
            [20; 21; 22]%N) as Hhash.
  { repeat constructor; vm_compute; lia. }
  split_and!.
  - destruct (VerifyWinners_outcomes Samples.winners_store 31%N [20; 21; 22]%N)
      as [_ Hws].
    etrans; [apply Hws; [done | exact Hhash] | by vm_compute].
  - destruct (VerifyWinners_outcomes Samples.winners_store 34%N [20; 21; 22]%N)
      as [_ Hws].
    etrans; [apply Hws; [done | exact Hhash] | by vm_compute].
  - destruct (VerifyWinners_outcomes Samples.winners_store 32%N [20; 21; 22]%N)
      as [_ Hws].
    etrans; [apply Hws; [done | exact Hhash] | by vm_compute].
Defined.

(** ** [GradeMinimum]: when it returns *)

(** X12.  [GradeMinimum] returns in exactly these cases: the input has fewer
    than 10 distinct identity keys; or every record the verifier loop
    examines has a hash and a claim of at least 8 bytes and, of the honest
    records it collects, there are fewer than 10 or none has more prices
    than the registry.  In every other case it fails with an index out of
    range. *)
Theorem GradeMinimum_returns_or_panics (LXRHash : list byte → list byte)
    (AllAssets : list string) (σ : Opr.store) (l : list Opr.ptr) :
  let top := take 50 (filter (λ p, honest LXRHash σ p) l) in
  let runs :=
    (length (Opr.RemoveDuplicateSubmissions σ l) < 10)%nat
    ∨ (Forall (checkable LXRHash σ) (scanned (honest LXRHash σ) 50 l)
       ∧ ((length top < 10)%nat ∨ Forall (fits AllAssets σ) top)) in
  (runs → returns (Opr.GradeMinimum LXRHash AllAssets σ l))
  ∧ (¬ runs →
     Opr.GradeMinimum LXRHash AllAssets σ l = Panics "index out of range").
Proof.
  intros top runs. unfold runs, Opr.GradeMinimum.
  destruct (decide (length (Opr.RemoveDuplicateSubmissions σ l) < 10)%nat)
    as [Hfew|Hten].
  { split; [by eexists | intros []; by left]. }
  destruct (decide (Forall (checkable LXRHash σ)
                      (scanned (honest LXRHash σ) 50 l))) as [Hchk|Hchk];
    last first.
  { rewrite (find_top50_panics LXRHash σ l σ [] 50);
      [| auto using same_submission_refl | lia | done | done].
    split; [intros [?|[? _]]; done | done]. }
  destruct (find_top50_spec LXRHash σ l σ [] 50)
    as (σ1 & -> & Hsame & _);
    [auto using same_submission_refl | lia | done | done |].
  cbn [app bind]. fold top.
  assert (Forall (fits AllAssets σ1) top ↔ Forall (fits AllAssets σ) top)
    as Hfits.
  { apply Forall_iff. intros p. unfold fits.
    by destruct (Hsame p) as [(_ & _ & _ & -> & _) _]. }
  destruct (decide (length top < 10)%nat) as [Hlt|Hge].
  { rewrite narrow_small by done. split; [by eexists | intros []; auto]. }
  destruct (decide (Forall (fits AllAssets σ) top)) as [Hfit|Hfit].
  - destruct (narrow_agree AllAssets (length top) σ1 σ1 top)
      as (σ' & _ & top' & -> & _);
      [apply agree_on_refl | by apply Hfits |].
    split; [by eexists | intros []; auto].
  - rewrite narrow_panics; [| lia | by rewrite Hfits].
    split; [intros [?|[_ [?|?]]]; done | done].
Qed.

Lemma GradeMinimum_returns_or_panics_witness :
  returns (Opr.GradeMinimum Samples.toyHash Samples.one_asset
             Samples.one_cheater (Samples.ptrs 0 10))
  ∧ Opr.GradeMinimum Samples.toyHash Samples.one_asset Samples.one_long
      (Samples.ptrs 0 10) = Panics "index out of range".
Proof.
  split.
  - destruct (GradeMinimum_returns_or_panics Samples.toyHash Samples.one_asset
                Samples.one_cheater (Samples.ptrs 0 10)) as [Hruns _].
    apply Hruns. right. split.
    + apply (bool_decide_unpack _). by vm_compute.
    + left. vm_compute. lia.
  - destruct (GradeMinimum_returns_or_panics Samples.toyHash Samples.one_asset
                Samples.one_long (Samples.ptrs 0 10)) as [_ Hpanics].
    apply Hpanics. intros [Hfew|[_ [Hfew|Hfit]]].
    + vm_compute in Hfew. lia.
    + vm_compute in Hfew. lia.
    + revert Hfit. apply (bool_decide_unpack _). by vm_compute.
Defined.

(** X13.  Below the quorum of honest records nothing is graded: on an input
    with at least 10 distinct identity keys but fewer than 10 honest
    records, [GradeMinimum] returns the honest records in the order of the
    input, whatever the lengths of their price vectors, and every record
    keeps the [Grade] it came with. *)
Theorem GradeMinimum_below_quorum (LXRHash : list byte → list byte)
    (AllAssets : list string) (σ : Opr.store) (l : list Opr.ptr) :
  (10 ≤ length (Opr.RemoveDuplicateSubmissions σ l))%nat →
  Forall (checkable LXRHash σ) l →
  (length (filter (λ p, honest LXRHash σ p) l) < 10)%nat →
  ∃ σ',
    Opr.GradeMinimum LXRHash AllAssets σ l
    = Returns (σ', Some (filter (λ p, honest LXRHash σ p) l))
    ∧ ∀ p, same_submission (σ p) (σ' p)
           ∧ Opr.Grade (σ' p) = Opr.Grade (σ p).
Proof.
  intros Hten Hchk Hfew.
  destruct (find_top50_spec LXRHash σ l σ [] 50)
    as (σ1 & Hfind & Hsame & _);
    [auto using same_submission_refl | lia | done | |].
  { eapply Forall_forall. intros p Hp%scanned_subseteq.
    rewrite Forall_forall in Hchk. by apply Hchk. }
  cbn [app] in Hfind. rewrite take_ge in Hfind by lia.
  exists σ1. split; last done.
  unfold Opr.GradeMinimum. rewrite decide_False by lia.
  rewrite Hfind. cbn [bind]. by rewrite narrow_small.
Qed.

Lemma GradeMinimum_below_quorum_witness :
  ∃ σ',
    Opr.GradeMinimum Samples.toyHash Samples.one_asset Samples.one_cheater
      (Samples.ptrs 0 10)
    = Returns (σ', Some (filter (λ p, honest Samples.toyHash
                                        Samples.one_cheater p)
                           (Samples.ptrs 0 10)))
    ∧ ∀ p, same_submission (Samples.one_cheater p) (σ' p)
           ∧ Opr.Grade (σ' p) = Opr.Grade (Samples.one_cheater p).
Proof.
  apply (GradeMinimum_below_quorum Samples.toyHash Samples.one_asset
           Samples.one_cheater (Samples.ptrs 0 10)).
  - vm_compute. lia.
  - apply (bool_decide_unpack _). by vm_compute.
  - vm_compute. lia.
Defined.

(** ** The grader: filtering, then sorting *)

(** X14.  Filtering the duplicates of a grader and then sorting it by
    difficulty with a limit leaves a grader whose records are all honest and
    carry distinct identity keys, are among the records it held, in the
    order it held them, and number no more than before and no more than the
    limit (one, for a limit below one).  Its height and the previous winners
    it was made with are as before, and [Count], [Height] and
    [GetPreviousWinners] report them. *)
Theorem grader_pipeline (Hash : list byte → list byte) (limit : Z)
    (bg : Grader.baseGrader) :
  Forall (checkableG Hash) (Grader.oprs bg) →
  ∃ bg',
    Grader.sortByDifficulty Hash limit (Grader.filterDuplicates bg)
    = Returns bg'
    ∧ Grader.oprs bg' `sublist_of` Grader.oprs bg
    ∧ NoDup (Grader.identity <$> Grader.oprs bg')
    ∧ Forall (λ o, honestG Hash o = true) (Grader.oprs bg')
    ∧ (Grader.Count bg' ≤ Grader.Count bg)%nat
    ∧ Z.of_nat (Grader.Count bg') ≤ Z.max 1 limit
    ∧ Grader.Height bg' = Grader.Height bg
    ∧ Grader.GetPreviousWinners bg' = Grader.GetPreviousWinners bg.
Proof.
  intros Hchk.
  set (kept := first_occurrences Grader.identity (Grader.oprs bg)).
  assert (Grader.filterDuplicates bg = Grader.set_oprs kept bg) as ->.
  { unfold Grader.filterDuplicates. by rewrite filter_added_spec. }
  assert (kept `sublist_of` Grader.oprs bg) as Hkept
    by apply first_occurrences_from_sublist.
  rewrite sortByDifficulty_unsorted. cbn [Grader.oprs Grader.set_oprs].
  rewrite find_topX_spec; last first.
  { eapply Forall_forall. intros o Ho%scanned_subseteq.
    rewrite Forall_forall in Hchk. apply Hchk.
    by eapply elem_of_sublist. }
  cbn [app bind length]. eexists. split; first reflexivity.
  cbn [Grader.oprs Grader.set_oprs Grader.Count Grader.Height
       Grader.GetPreviousWinners Grader.height Grader.prevWinners].
  set (honestKept := filter (λ o, honestG Hash o) kept).
  assert (take (remaining limit 0) honestKept `sublist_of` kept) as Hsub.
  { etrans; first apply sublist_take. apply sublist_filter. }
  split_and!; try done.
  - by etrans.
  - eapply sublist_NoDup; first apply (first_occurrences_from_NoDup
                                         Grader.identity [] (Grader.oprs bg)).
    by apply fmap_sublist.
  - apply Forall_forall. intros o Ho.
    assert (o ∈ honestKept) as Hin.
    { rewrite <-(take_drop (remaining limit 0) honestKept).
      apply elem_of_app. by left. }
    apply list_elem_of_filter in Hin as [Hin _]. by apply Is_true_true.
  - apply sublist_length. by etrans.
  - unfold Grader.Count. cbn [Grader.oprs Grader.set_oprs].
    rewrite length_take. unfold remaining. lia.
Qed.

Lemma grader_pipeline_witness :
  ∃ bg',
    Grader.sortByDifficulty Samples.toyHash 2
      (Grader.filterDuplicates
         (Samples.grader_with
            [Samples.gopr 1; Samples.gopr 1; Samples.gopr 2; Samples.gopr 3]))
    = Returns bg'
    ∧ Grader.oprs bg' = [Samples.gopr 1; Samples.gopr 2]
    ∧ NoDup (Grader.identity <$> Grader.oprs bg')
    ∧ Grader.Height bg' = 7.
Proof.
  destruct (grader_pipeline Samples.toyHash 2
              (Samples.grader_with
                 [Samples.gopr 1; Samples.gopr 1; Samples.gopr 2;
                  Samples.gopr 3]))
    as (bg' & Hrun & _ & Hnd & _ & _ & _ & Hheight & _).
  - apply (bool_decide_unpack _). by vm_compute.
  - exists bg'. split_and!; [exact Hrun | | exact Hnd | exact Hheight].
    assert (Grader.sortByDifficulty Samples.toyHash 2
              (Grader.filterDuplicates
                 (Samples.grader_with
                    [Samples.gopr 1; Samples.gopr 1; Samples.gopr 2;
                     Samples.gopr 3]))
            = Returns (Samples.grader_with [Samples.gopr 1; Samples.gopr 2]))
      as Hval by (by vm_compute).
    rewrite Hval in Hrun. by injection Hrun as <-.
Defined.

(** ** [GradeBlock]: ranking, and what it reads *)

(** X15.  [GradeBlock] reads the [Difficulty] its records come with, but not
    their [Grade]: run on two stores whose records differ at most in
    [Grade], on a block of at least 10 distinct keys, it returns the same two
    slices and leaves the graded records equal, field by field. *)
Theorem GradeBlock_ignores_grades (AllAssets : list string)
    (σ σ0 : Opr.store) (l : list Opr.ptr) :
  (∀ p, alike (σ p) (σ0 p)) →
  (10 ≤ length (Opr.RemoveDuplicateSubmissions σ l))%nat →
  Forall (fits AllAssets σ) l →
  ∃ σa σb graded sorted,
    Opr.GradeBlock AllAssets σ l = Returns (σa, Some graded, Some sorted)
    ∧ Opr.GradeBlock AllAssets σ0 l = Returns (σb, Some graded, Some sorted)
    ∧ agree_on graded σa σb.
Proof.
  intros Halike Hten Hfit.
  assert (Opr.RemoveDuplicateSubmissions σ0 l
          = Opr.RemoveDuplicateSubmissions σ l) as Hdedup.
  { rewrite !RemoveDuplicateSubmissions_spec. unfold first_occurrences.
    apply first_occurrences_from_ext. intros p. symmetry.
    apply identity_same_submission, Halike. }
  unfold Opr.GradeBlock. rewrite Hdedup, !decide_False by lia.
  set (dedup := Opr.RemoveDuplicateSubmissions σ l) in *.
  set (sorted := SliceStable _ dedup).
  assert (SliceStable
            (λ a b, Opr.Difficulty (σ0 b) <? Opr.Difficulty (σ0 a)) dedup
          = sorted) as ->.
  { apply SliceStable_ext. intros a b _ _.
    destruct (Halike a) as [_ ->]. by destruct (Halike b) as [_ ->]. }
  assert (length sorted = length dedup) as Hlen by apply SliceStable_length.
  destruct (narrow_fresh AllAssets σ σ0 (take 50 sorted))
    as (σa & σb & graded & -> & -> & Hperm & Hag).
  - rewrite length_take. lia.
  - intros p _. apply Halike.
  - apply Forall_forall. intros p Hp. rewrite Forall_forall in Hfit.
    apply Hfit.
    assert (p ∈ sorted) as Hin.
    { rewrite <-(take_drop 50 sorted). apply elem_of_app. by left. }
    unfold sorted in Hin.
    rewrite SliceStable_Permutation in Hin. unfold dedup in Hin.
    rewrite RemoveDuplicateSubmissions_spec in Hin.
    eapply elem_of_sublist; [done | apply first_occurrences_from_sublist].
  - exists σa, σb, graded, sorted. cbn [bind]. split_and!; [done..|].
    intros p Hp. apply Hag. by rewrite <-Hperm.
Qed.

Lemma GradeBlock_ignores_grades_witness :
  ∃ σa σb graded sorted,
    Opr.GradeBlock Samples.one_asset Samples.all_honest (Samples.ptrs 0 11)
    = Returns (σa, Some graded, Some sorted)
    ∧ Opr.GradeBlock Samples.one_asset
        (λ p, Opr.set_Grade 0.75%float (Samples.all_honest p))
        (Samples.ptrs 0 11)
      = Returns (σb, Some graded, Some sorted)
    ∧ agree_on graded σa σb.
Proof.
  apply (GradeBlock_ignores_grades Samples.one_asset Samples.all_honest
           (λ p, Opr.set_Grade 0.75%float (Samples.all_honest p))
           (Samples.ptrs 0 11)).
  - intros p. split; [by split_and! | done].
  - vm_compute. lia.
  - apply (bool_decide_unpack _). by vm_compute.
Defined.

(** X16.  The first 10 records [GradeBlock] returns as graded are in the
    order of its last pass: provided their grades can be compared (none is
    NaN, or all are), the grades ascend, and records that the grade does not
    tell apart stand by descending [Difficulty], the value they came with. *)
Theorem GradeBlock_winners_ranked (AllAssets : list string) (σ : Opr.store)
    (l : list Opr.ptr) :
  (10 ≤ length (Opr.RemoveDuplicateSubmissions σ l))%nat →
  Forall (fits AllAssets σ) l →
  ∃ σ' graded sorted,
    Opr.GradeBlock AllAssets σ l = Returns (σ', Some graded, Some sorted)
    ∧ (10 ≤ length graded)%nat
    ∧ (∀ p, Opr.Difficulty (σ' p) = Opr.Difficulty (σ p))
    ∧ (comparable_grades σ' (take 10 graded) →
       StronglySorted (ranked_before σ') (take 10 graded)).
Proof.
  intros Hten Hfit.
  destruct (GradeBlock_runs AllAssets σ l Hten Hfit)
    as (σ' & graded & sorted & Hrun & Hsorted & Hperm & Hsame & _).
  exists σ', graded, sorted. split; first exact Hrun.
  assert (length sorted = length (Opr.RemoveDuplicateSubmissions σ l)) as Hlen
    by (rewrite Hsorted; apply SliceStable_length).
  assert (10 ≤ length graded)%nat as Hgraded.
  { rewrite Hperm, length_take. lia. }
  split_and!; [done | intros p; apply Hsame |]. intros Hcmp.
  unfold Opr.GradeBlock in Hrun. rewrite decide_False in Hrun by lia.
  apply bind_Returns in Hrun as ([σ1 top] & Hnarrow & [= <- <- _]).
  rewrite <-Hsorted in Hnarrow.
  destruct (narrow_last AllAssets (length (take 50 sorted)) σ
              (take 50 sorted) σ1 top) as (prefix & Hprefix & ->);
    [rewrite length_take; lia | done |].
  apply rerank_sorted.
  destruct Hcmp as [Hcmp|Hcmp]; [left | right]; by rewrite Hprefix.
Qed.

Lemma GradeBlock_winners_ranked_witness :
  ∃ σ',
    Opr.GradeBlock Samples.one_asset Samples.varied_block (Samples.ptrs 0 11)
    = Returns (σ', Some [9; 6; 0; 3; 4; 8; 10; 2; 1; 7; 5]%N,
               Some [2; 9; 6; 4; 8; 0; 7; 1; 5; 3; 10]%N)
    ∧ (∀ p, Opr.Difficulty (σ' p) = Opr.Difficulty (Samples.varied_block p))
    ∧ StronglySorted (ranked_before σ') [9; 6; 0; 3; 4; 8; 10; 2; 1; 7]%N
    ∧ (Opr.Grade (σ' 9%N) <? Opr.Grade (σ' 7%N))%float = true.
Proof.
  destruct (GradeBlock_winners_ranked Samples.one_asset Samples.varied_block
              (Samples.ptrs 0 11))
    as (σ' & graded & sorted & Hrun & _ & Hdiff & Hsorted).
  - vm_compute. lia.
  - apply (bool_decide_unpack _). by vm_compute.
  - assert (∃ gs,
              match Opr.GradeBlock Samples.one_asset Samples.varied_block
                      (Samples.ptrs 0 11) with
              | Returns (σ, g, s) =>
                  Some (g, s, (λ p, Opr.Grade (σ p)) <$> elems g)
              | Panics _ => None
              end
              = Some (Some [9; 6; 0; 3; 4; 8; 10; 2; 1; 7; 5]%N,
                      Some [2; 9; 6; 4; 8; 0; 7; 1; 5; 3; 10]%N, gs)
              ∧ forallb (λ g, negb (is_nan g)) gs = true
              ∧ (nth 0 gs 0 <? nth 9 gs 0)%float = true)
      as (gs & Hgs & Hnum & Hlt).
    { eexists. split_and!; [vm_compute; reflexivity | by vm_compute..]. }
    rewrite Hrun in Hgs. injection Hgs as -> -> <-.
    exists σ'. split; first exact Hrun. clear Hrun.
    split; first exact Hdiff. split; last exact Hlt.
    apply Hsorted. left. clear Hsorted Hlt.
    apply Forall_take. cbn [elems default] in Hnum.
    apply Is_true_true_2, forallb_True in Hnum.
    apply (Forall_fmap (λ p, Opr.Grade (σ' p)) (λ g, is_nan g = false)).
    eapply Forall_impl; first exact Hnum.
    intros g Hg. cbn beta in Hg. apply negb_prop_elim in Hg.
    apply not_true_is_false. intros Hnan. apply Hg. by rewrite Hnan.
Defined.

(** ** [CalculateGrade] starts from zero *)

(** X17.  [CalculateGrade] resets the grade before it sums: the grade it
    returns is the one it leaves in the record, it touches no other record,
    it depends on the record's prices only (not on the grade the record
    had), and grading the record again with the same averages returns the
    same grade and changes nothing. *)
Theorem CalculateGrade_from_zero (avg : list float) (σ σ' : Opr.store)
    (p : Opr.ptr) (g : float) :
  Opr.CalculateGrade avg σ p = Returns (σ', g) →
  Opr.Grade (σ' p) = g
  ∧ (∀ q, q ≠ p → σ' q = σ q)
  ∧ (∀ σ0, Opr.Tokens (σ0 p) = Opr.Tokens (σ p) →
       ∃ σ0', Opr.CalculateGrade avg σ0 p = Returns (σ0', g))
  ∧ ∃ σ'', Opr.CalculateGrade avg σ' p = Returns (σ'', g)
           ∧ ∀ q, σ'' q = σ' q.
Proof.
  intros [Hg ->]%CalculateGrade_store. split_and!.
  - by rewrite update_eq.
  - intros q Hq. by rewrite update_ne.
  - intros σ0 Htok. unfold Opr.CalculateGrade, Opr.GetTokens.
    rewrite Htok, Hg. by eexists.
  - unfold Opr.CalculateGrade, Opr.GetTokens. rewrite update_eq.
    cbn [Opr.Tokens Opr.set_Grade]. rewrite Hg. eexists. split; first done.
    intros q. destruct (decide (q = p)) as [->|Hq].
    + by rewrite !update_eq.
    + by rewrite !update_ne.
Qed.

Lemma CalculateGrade_from_zero_witness :
  ∃ σ' g,
    Opr.CalculateGrade [50%float] Samples.regraded 3%N = Returns (σ', g)
    ∧ Opr.Grade (σ' 3%N) = g
    ∧ g = 1%float
    ∧ ∃ σ'', Opr.CalculateGrade [50%float] σ' 3%N = Returns (σ'', g)
             ∧ ∀ q, σ'' q = σ' q.
Proof.
  assert (Opr.CalculateGrade [50%float] Samples.regraded 3%N
          = Returns (Opr.update Samples.regraded 3%N (Opr.set_Grade 1%float),
                     1%float)) as Hrun.
  { unfold Opr.CalculateGrade.
    assert (Opr.grade_tokens [50%float]
              (Opr.GetTokens Samples.regraded 3%N) 0 0%float
            = Returns 1%float) as -> by (by vm_compute).
    done. }
  destruct (CalculateGrade_from_zero _ _ _ _ _ Hrun)
    as (Hgrade & _ & _ & Hagain).
  eexists _, _. split_and!; [exact Hrun | exact Hgrade | done | exact Hagain].
Defined.

(** ** [sortByDifficulty] at a limit below one *)

(** X19.  [sortByDifficulty] tests the limit after it has kept a record: with
    a limit of 0 or less it still keeps the first honest record it meets,
    and stops there. *)
Theorem sortByDifficulty_nonpositive_limit (Hash : list byte → list byte)
    (limit : Z) (bg : Grader.baseGrader) :
  limit ≤ 0 →
  Forall (checkableG Hash) (scanned (honestG Hash) 1 (Grader.oprs bg)) →
  Grader.sortByDifficulty Hash limit bg
  = Returns (Grader.set_oprs
               (take 1 (filter (λ o, honestG Hash o) (Grader.oprs bg))) bg).
Proof.
  intros Hlimit Hchk. rewrite sortByDifficulty_unsorted.
  assert (remaining limit (length (@nil Grader.GradingOPR)) = 1%nat) as Hrem.
  { unfold remaining. simpl. lia. }
  rewrite find_topX_spec by (by rewrite Hrem). by rewrite Hrem.
Qed.

Lemma sortByDifficulty_nonpositive_limit_witness :
  Grader.sortByDifficulty Samples.toyHash 0
    (Samples.grader_with [Samples.gopr 1; Samples.gopr 2])
  = Returns (Samples.grader_with [Samples.gopr 1]).
Proof.
  rewrite (sortByDifficulty_nonpositive_limit Samples.toyHash 0
             (Samples.grader_with [Samples.gopr 1; Samples.gopr 2])).
  - by vm_compute.
  - lia.
  - apply (bool_decide_unpack _). by vm_compute.
Defined.

(** ** [GradeBlock] and the order of its input *)

Lemma NoDup_fmap_eq {A B} (f : A → B) (l : list A) x y :
  NoDup (f <$> l) → x ∈ l → y ∈ l → f x = f y → x = y.
Proof.
  induction l as [|z l IH]; intros Hnd Hx Hy Hxy.
  { by apply elem_of_nil in Hx. }
  rewrite fmap_cons in Hnd. apply NoDup_cons in Hnd as [Hz Hnd].
  apply elem_of_cons in Hx as [->|Hx]; apply elem_of_cons in Hy as [->|Hy].
  - done.
  - destruct Hz. rewrite Hxy. by apply list_elem_of_fmap_2.
  - destruct Hz. rewrite <-Hxy. by apply list_elem_of_fmap_2.
  - by apply IH.
Qed.

(** X20.  The sort of [GradeBlock] compares two records, and it normalises
    the order: for two orderings of one set of records with pairwise
    distinct identity keys and pairwise distinct difficulties, [GradeBlock]
    gives the same outcome, the same two slices and the same records, or the
    same panic. *)
Theorem GradeBlock_permutation_invariant (AllAssets : list string)
    (σ : Opr.store) (l l' : list Opr.ptr) :
  l ≡ₚ l' →
  NoDup (Opr.identity σ <$> l) →
  NoDup ((λ p, Opr.Difficulty (σ p)) <$> l) →
  Opr.GradeBlock AllAssets σ l = Opr.GradeBlock AllAssets σ l'.
Proof.
  intros Hperm Hkeys Hdiff. unfold Opr.GradeBlock.
  rewrite !RemoveDuplicateSubmissions_spec.
  rewrite (first_occurrences_NoDup_id _ l) by done.
  rewrite (first_occurrences_NoDup_id _ l') by (by rewrite <-Hperm).
  rewrite <-(Permutation_length Hperm).
  destruct (decide (length l < 10)%nat); first done.
  assert (SliceStable (λ a b, Opr.Difficulty (σ b) <? Opr.Difficulty (σ a)) l
          = SliceStable (λ a b, Opr.Difficulty (σ b) <? Opr.Difficulty (σ a)) l')
    as ->; last done.
  eapply StronglySorted_unique_strong;
    [| apply SliceStable_Difficulty_sorted..
     | by rewrite !SliceStable_Permutation].
  intros a b Ha Hb Hab Hba. cbn beta in Hab, Hba.
  rewrite SliceStable_Permutation in Ha, Hb. rewrite <-Hperm in Hb.
  apply (NoDup_fmap_eq (λ p, Opr.Difficulty (σ p)) l); [done..|]. lia.
Qed.

Lemma GradeBlock_permutation_invariant_witness :
  Opr.GradeBlock Samples.one_asset
    (λ p, Opr.set_Difficulty (Z.of_N p) (Samples.varied p)) (Samples.ptrs 0 11)
  = Opr.GradeBlock Samples.one_asset
      (λ p, Opr.set_Difficulty (Z.of_N p) (Samples.varied p))
      ([3; 7; 0; 10; 5; 1; 9; 2; 8; 4; 6]%N).
Proof.
  apply (GradeBlock_permutation_invariant Samples.one_asset
           (λ p, Opr.set_Difficulty (Z.of_N p) (Samples.varied p))
           (Samples.ptrs 0 11) ([3; 7; 0; 10; 5; 1; 9; 2; 8; 4; 6]%N)).
  - apply (bool_decide_unpack _). by vm_compute.
  - apply (bool_decide_unpack _). by vm_compute.
  - apply (bool_decide_unpack _). by vm_compute.
Defined.
